(** * WinApkInfo: the badging parser [parse_aapt2_output] and the SDK formatter

    A shallow embedding of [src/main.py]: the text parser that turns the
    output of [aapt2 dump badging] into a record of fields, and the
    [fmt_sdk] formatter of [MainWindow.fill_info].

    The parser is a list of independent regular-expression extractions, so
    the development has three layers:
    - Python strings ([str]: sequences of Unicode code points) with
      [strip], [startswith] and [splitlines];
    - the part of Python's [re] the source uses: a backtracking matcher
      with greedy and lazy repetition and capture groups, [re.search] and
      [re.findall], together with a declarative reading of the patterns
      ([Lang]) and the proof that the matcher finds a match exactly when
      one exists;
    - [parse_aapt2_output] itself, written as the source writes it: an
      [info] value that each extraction step updates; and the same
      function on a store of objects ([parse_run]), for what it
      allocates and changes. *)

From Stdlib Require Import String Ascii.
From Stdlib Require Import List NArith Arith Bool Lia Permutation Sorted.
Import ListNotations.

Set Implicit Arguments.
Local Open Scope N_scope.

(* ================================================================== *)
(** ** Python strings *)

(** A Python [str] is a sequence of Unicode code points. *)
Definition char := N.
Definition str := list char.

Fixpoint of_string (s : string) : str :=
  match s with
  | EmptyString => []
  | String a s' => N_of_ascii a :: of_string s'
  end.

Definition quote : char := 39.   (* ' *)
Definition newline : char := 10. (* \n *)
Definition nl : str := [newline].

Fixpoint str_eqb (a b : str) : bool :=
  match a, b with
  | [], [] => true
  | x :: a', y :: b' => (x =? y) && str_eqb a' b'
  | _, _ => false
  end.

(** [Py_UNICODE_ISSPACE]: the characters [str.strip()] removes and [\s]
    matches in a [str] pattern. *)
Definition is_space (c : char) : bool :=
  ((9 <=? c) && (c <=? 13)) || ((28 <=? c) && (c <=? 32))
  || (c =? 133) || (c =? 160) || (c =? 5760)
  || ((8192 <=? c) && (c <=? 8202))
  || (c =? 8232) || (c =? 8233) || (c =? 8239) || (c =? 8287)
  || (c =? 12288).

(** The line boundaries of [str.splitlines()]. *)
Definition is_linebreak (c : char) : bool :=
  ((10 <=? c) && (c <=? 13)) || ((28 <=? c) && (c <=? 30))
  || (c =? 133) || (c =? 8232) || (c =? 8233).

Fixpoint lstrip (s : str) : str :=
  match s with
  | c :: s' => if is_space c then lstrip s' else s
  | [] => []
  end.

Definition rstrip (s : str) : str := rev (lstrip (rev s)).

(** [s.strip()] *)
Definition strip (s : str) : str := rstrip (lstrip s).

(** [s.startswith(p)] *)
Fixpoint startswith (p s : str) : bool :=
  match p, s with
  | [], _ => true
  | x :: p', y :: s' => (x =? y) && startswith p' s'
  | _ :: _, [] => false
  end.

(** [s.splitlines()]: [cur] holds, reversed, the characters of the line
    being read.  A line break ends the line, CR LF counts as one break,
    and no empty line is produced after the last break. *)
Fixpoint splitlines_from (cur : str) (s : str) : list str :=
  match s with
  | [] => match cur with [] => [] | _ => [rev cur] end
  | c :: s' =>
      if is_linebreak c then
        rev cur ::
          match s' with
          | d :: s'' =>
              if (c =? 13) && (d =? 10) then splitlines_from [] s''
              else splitlines_from [] s'
          | [] => []
          end
      else splitlines_from (c :: cur) s'
  end.

Definition splitlines (s : str) : list str := splitlines_from [] s.

(* ================================================================== *)
(** ** Python dictionaries

    A [dict] keeps its keys in insertion order; assigning to a key that is
    present replaces the value in place. *)

Definition dict := list (str * str).

Fixpoint dict_get (k : str) (d : dict) : option str :=
  match d with
  | [] => None
  | (k', v) :: d' => if str_eqb k k' then Some v else dict_get k d'
  end.

(** [d[k] = v] *)
Fixpoint dict_set (k v : str) (d : dict) : dict :=
  match d with
  | [] => [(k, v)]
  | (k', v') :: d' =>
      if str_eqb k k' then (k', v) :: d' else (k', v') :: dict_set k v d'
  end.

(** [k in d] *)
Definition dict_mem (k : str) (d : dict) : bool :=
  match dict_get k d with Some _ => true | None => false end.

(** [d.get(k, default)] *)
Definition dict_get_default (k : str) (default : str) (d : dict) : str :=
  match dict_get k d with Some v => v | None => default end.

Definition dict_keys (d : dict) : list str := map fst d.

(* ================================================================== *)
(** ** Regular expressions: the fragment of [re] used by the parser *)

(** Members of a character set. *)
Inductive citem :=
| ILit (c : char)            (* a literal character *)
| IRange (lo hi : char)      (* lo-hi *)
| ISpace                     (* \s *)
| IWord.                     (* \w *)

(** A one-character matcher: [.] (under [re.S]), or a set, possibly
    negated. *)
Inductive cset :=
| CAny
| CSet (negated : bool) (items : list citem).

Inductive regex :=
| Eps
| Chr (p : cset)
| Str (l : str)                       (* a literal run of characters *)
| Seq (a b : regex)
| Alt (a b : regex)
| Group (n : nat) (a : regex)         (* capturing group number n *)
| Star (greedy : bool) (a : regex).   (* a* and a*? *)

(** [a+] and [a+?] *)
Definition Plus (greedy : bool) (a : regex) : regex := Seq a (Star greedy a).
(** [a?] *)
Definition Opt (a : regex) : regex := Alt a Eps.
(** Concatenation of a list of pieces. *)
Fixpoint cat (rs : list regex) : regex :=
  match rs with
  | [] => Eps
  | [r] => r
  | r :: rs' => Seq r (cat rs')
  end.

Definition lit (s : string) : regex := Str (of_string s).
Definition ws : regex := Chr (CSet false [ISpace]).            (* \s *)
Definition notq : regex := Chr (CSet true [ILit quote]).       (* [^'] *)

(** Groups captured so far, most recent first. *)
Definition caps := list (nat * str).

Fixpoint getcap (n : nat) (c : caps) : option str :=
  match c with
  | [] => None
  | (m, v) :: c' => if Nat.eqb n m then Some v else getcap n c'
  end.

Section Matcher.

(** [str.isalnum] of one character, from the Unicode database of the
    interpreter; [\w] is an alphanumeric character or the underscore. *)
Variable isalnum : char -> bool.

Definition citem_mem (i : citem) (c : char) : bool :=
  match i with
  | ILit x => c =? x
  | IRange lo hi => (lo <=? c) && (c <=? hi)
  | ISpace => is_space c
  | IWord => isalnum c || (c =? 95)
  end.

Definition cset_mem (p : cset) (c : char) : bool :=
  match p with
  | CAny => true
  | CSet neg items => xorb neg (existsb (fun i => citem_mem i c) items)
  end.

(** The part of [s] consumed when [s'] is what is left of it. *)
Definition consumed (s s' : str) : str :=
  firstn (length s - length s') s.

(** One more round of a repetition.  [step] matches the body once.  A
    round that consumes nothing ends the repetition, as in [sre], so
    [length s] rounds are always enough. *)
Fixpoint iter (step : str -> caps -> list (str * caps)) (greedy : bool)
    (fuel : nat) (s : str) (c : caps) : list (str * caps) :=
  match fuel with
  | O => [(s, c)]
  | S f =>
      let more :=
        flat_map (fun sc : str * caps =>
                    if (length (fst sc) <? length s)%nat
                    then iter step greedy f (fst sc) (snd sc) else [])
                 (step s c) in
      if greedy then more ++ [(s, c)] else (s, c) :: more
  end.

(** The backtracking matcher: every way [r] matches at the start of [s],
    in the order in which [sre] tries them, each with the rest of the
    input and the groups captured. *)
Fixpoint mtch (r : regex) (s : str) (c : caps) : list (str * caps) :=
  match r with
  | Eps => [(s, c)]
  | Chr p =>
      match s with
      | x :: s' => if cset_mem p x then [(s', c)] else []
      | [] => []
      end
  | Str l => if startswith l s then [(skipn (length l) s, c)] else []
  | Seq a b => flat_map (fun sc => mtch b (fst sc) (snd sc)) (mtch a s c)
  | Alt a b => mtch a s c ++ mtch b s c
  | Group n a =>
      map (fun sc => (fst sc, (n, consumed s (fst sc)) :: snd sc)) (mtch a s c)
  | Star g a => iter (mtch a) g (length s) s c
  end.

(** The way [sre] finds first. *)
Definition first_match (r : regex) (s : str) (c : caps)
  : option (str * caps) := hd_error (mtch r s c).

(** A match object: where the match begins and ends (as the text from
    there on) and its groups. *)
Record rmatch := { m_from : str; m_rest : str; m_caps : caps }.

(** [m.group(0)] *)
Definition m_whole (m : rmatch) : str := consumed (m_from m) (m_rest m).

(** [m.group(n)], with the empty string for a group that took no part
    (the parser never reads such a group). *)
Definition group (n : nat) (m : rmatch) : str :=
  match getcap n (m_caps m) with Some v => v | None => [] end.

Definition is_empty_match (m : rmatch) : bool :=
  (length (m_from m) =? length (m_rest m))%nat.

(** The first way to match at the start of [s]; with [adv], a match that
    consumes nothing is not accepted ([must_advance] of [sre]). *)
Definition match_here (r : regex) (adv : bool) (s : str) : option rmatch :=
  match
    filter (fun sc : str * caps =>
              negb adv || (length (fst sc) <? length s)%nat)
           (mtch r s [])
  with
  | sc :: _ => Some {| m_from := s; m_rest := fst sc; m_caps := snd sc |}
  | [] => None
  end.

(** Scan for the leftmost position with a match. *)
Fixpoint scan (r : regex) (s : str) : option rmatch :=
  match match_here r false s with
  | Some m => Some m
  | None => match s with [] => None | _ :: s' => scan r s' end
  end.

(** [re.search(r, s)] *)
Definition re_search (r : regex) (s : str) : option rmatch := scan r s.

(** The search of one [findall] round: [adv] (set after an empty match)
    forbids an empty match at the first position only. *)
Definition scan_adv (r : regex) (adv : bool) (s : str) : option rmatch :=
  match match_here r adv s with
  | Some m => Some m
  | None => match s with [] => None | _ :: s' => scan r s' end
  end.

Fixpoint finditer_fuel (fuel : nat) (r : regex) (adv : bool) (s : str)
  : list rmatch :=
  match fuel with
  | O => []
  | S f =>
      match scan_adv r adv s with
      | None => []
      | Some m => m :: finditer_fuel f r (is_empty_match m) (m_rest m)
      end
  end.

(** [re.finditer(r, s)]: the successive non-overlapping matches, left to
    right. *)
Definition finditer (r : regex) (s : str) : list rmatch :=
  finditer_fuel (2 * length s + 2) r false s.

(** [re.findall(r, s)] for a pattern with one group. *)
Definition findall1 (r : regex) (s : str) : list str :=
  map (group 1) (finditer r s).

(** [re.findall(r, s)] for a pattern with two groups. *)
Definition findall2 (r : regex) (s : str) : list (str * str) :=
  map (fun m => (group 1 m, group 2 m)) (finditer r s).

End Matcher.

(* ================================================================== *)
(** ** The record built by [parse_aapt2_output]

    The source keeps it in a dictionary [info] with a fixed set of keys;
    here it is a record with one field per key. *)

Record Info := {
  package_name : str;
  version_name : str;
  version_code : str;
  platform_build_version_name : str;
  platform_build_version_code : str;
  compile_sdk_version : str;
  compile_sdk_codename : str;
  min_sdk : str;
  target_sdk : str;
  app_name : str;
  app_name_labels : dict;          (* locale -> label *)
  launchable_activity : str;
  permissions : list str;
  features : list str;
  implied_features : list str;
  supports_screens : list str;
  supports_any_density : str;
  densities : list str;
  locales : list str;
  icons : dict;                    (* density -> path *)
  raw : str;
  architectures : list str
}.

(** The initial value of [info]: every field empty, [raw] the stripped
    text. *)
Definition init_info (text : str) : Info :=
  {| package_name := []; version_name := []; version_code := [];
     platform_build_version_name := []; platform_build_version_code := [];
     compile_sdk_version := []; compile_sdk_codename := [];
     min_sdk := []; target_sdk := []; app_name := [];
     app_name_labels := []; launchable_activity := [];
     permissions := []; features := []; implied_features := [];
     supports_screens := []; supports_any_density := [];
     densities := []; locales := []; icons := [];
     raw := strip text; architectures := [] |}.

(** Truth value of a string: non-empty. *)
Definition truthy (s : str) : bool :=
  match s with [] => false | _ :: _ => true end.

(** [a or b] on strings *)
Definition py_or (a b : str) : str := if truthy a then a else b.

(* ================================================================== *)
(** ** The patterns of [parse_aapt2_output], in source order

    Each pattern is quoted with its pieces set apart by spaces, one piece
    per element of the [cat]. *)

(** "package:\s+name='([^']+)'\s+versionCode='([^']+)'\s+versionName='([^']+)'.*?]
    (with [re.S") *)
Definition re_package : regex :=
  cat [lit "package:"; Plus true ws; lit "name='"; Group 1 (Plus true notq);
       lit "'"; Plus true ws; lit "versionCode='"; Group 2 (Plus true notq);
       lit "'"; Plus true ws; lit "versionName='"; Group 3 (Plus true notq);
       lit "'"; Star false (Chr CAny)].

(** The shape of the six patterns that read one quoted value after a
    literal: [<marker> ([^']+) '], the marker ending with the opening
    quote. *)
Definition quoted_after (marker : string) : regex :=
  cat [lit marker; Group 1 (Plus true notq); lit "'"].

(** The shape of the three patterns that collect names:
    [<marker> \s+ name=' ([^']+) ']. *)
Definition named_after (marker : string) : regex :=
  cat [lit marker; Plus true ws; lit "name='"; Group 1 (Plus true notq);
       lit "'"].

(** [platformBuildVersionName=' ([^']+) '] *)
Definition re_platform_name : regex :=
  cat [lit "platformBuildVersionName='"; Group 1 (Plus true notq); lit "'"].

(** [platformBuildVersionCode=' ([^']+) '] *)
Definition re_platform_code : regex :=
  cat [lit "platformBuildVersionCode='"; Group 1 (Plus true notq); lit "'"].

(** [compileSdkVersion=' ([^']+) '] *)
Definition re_compile : regex :=
  cat [lit "compileSdkVersion='"; Group 1 (Plus true notq); lit "'"].

(** [compileSdkVersionCodename=' ([^']+) '] *)
Definition re_compile_codename : regex :=
  cat [lit "compileSdkVersionCodename='"; Group 1 (Plus true notq); lit "'"].

(** [minSdkVersion:' ([^']+) '] *)
Definition re_min_sdk : regex :=
  cat [lit "minSdkVersion:'"; Group 1 (Plus true notq); lit "'"].

(** [targetSdkVersion:' ([^']+) '] *)
Definition re_target_sdk : regex :=
  cat [lit "targetSdkVersion:'"; Group 1 (Plus true notq); lit "'"].

(** [application-label- ([\w-]+) :' ([^']* ) '] *)
Definition re_label_locale : regex :=
  cat [lit "application-label-";
       Group 1 (Plus true (Chr (CSet false [IWord; ILit 45])));
       lit ":'"; Group 2 (Star true notq); lit "'"].

(** [application-label:' ([^']* ) '] *)
Definition re_label_generic : regex :=
  cat [lit "application-label:'"; Group 1 (Star true notq); lit "'"].

(** [application: \s+ label=' ([^']* ) '] *)
Definition re_label_app : regex :=
  cat [lit "application:"; Plus true ws; lit "label='";
       Group 1 (Star true notq); lit "'"].

(** [launchable-activity: \s+ name=' ([^']* ) ' (?: \s+ label=' ([^']* ) ' )?] *)
Definition re_launchable : regex :=
  cat [lit "launchable-activity:"; Plus true ws; lit "name='";
       Group 1 (Star true notq); lit "'";
       Opt (cat [Plus true ws; lit "label='"; Group 2 (Star true notq);
                 lit "'"])].

(** [uses-permission: \s+ name=' ([^']+) '] *)
Definition re_permission : regex :=
  cat [lit "uses-permission:"; Plus true ws; lit "name='";
       Group 1 (Plus true notq); lit "'"].

(** [uses-feature: \s+ name=' ([^']+) '] *)
Definition re_feature : regex :=
  cat [lit "uses-feature:"; Plus true ws; lit "name='";
       Group 1 (Plus true notq); lit "'"].

(** [uses-implied-feature: \s+ name=' ([^']+) '] *)
Definition re_implied_feature : regex :=
  cat [lit "uses-implied-feature:"; Plus true ws; lit "name='";
       Group 1 (Plus true notq); lit "'"].

(** [(?: ' [^']+ ' \s* )+]: a run of quoted tokens *)
Definition token_run : regex :=
  Plus true (cat [lit "'"; Plus true notq; lit "'"; Star true ws]).

(** [<marker> \s+ ( (?: ' [^']+ ' \s* )+ )] *)
Definition re_run_after (marker : string) : regex :=
  cat [lit marker; Plus true ws; Group 1 token_run].

Definition re_screens : regex := re_run_after "supports-screens:".
Definition re_densities : regex := re_run_after "densities:".
Definition re_locales : regex := re_run_after "locales:".

(** [supports-any-density: \s+ ' ([^']+) '] *)
Definition re_any_density : regex :=
  cat [lit "supports-any-density:"; Plus true ws; lit "'";
       Group 1 (Plus true notq); lit "'"].

(** [' ([^']+) '] *)
Definition re_quoted : regex :=
  cat [lit "'"; Group 1 (Plus true notq); lit "'"].

(** [application-icon- ([0-9]+) :' ([^']+) '] *)
Definition re_icon : regex :=
  cat [lit "application-icon-";
       Group 1 (Plus true (Chr (CSet false [IRange 48 57])));
       lit ":'"; Group 2 (Plus true notq); lit "'"].

Definition preferred_locales : list str :=
  [of_string "zh-CN"; of_string "zh-HK"; of_string "zh-TW"].

(** The loop over the preferred locales: the first one whose label is
    present and non-empty sets [app_name] and ends the loop. *)
Fixpoint pick_preferred (prefs : list str) (labels : dict) (app_name : str)
  : str :=
  match prefs with
  | [] => app_name
  | pref :: prefs' =>
      match dict_get pref labels with
      | Some v => if truthy v then v else pick_preferred prefs' labels app_name
      | None => pick_preferred prefs' labels app_name
      end
  end.

(** [for k, v in pairs: d[k] = v] *)
Definition dict_fill (pairs : list (str * str)) (d : dict) : dict :=
  fold_left (fun d kv => dict_set (fst kv) (snd kv) d) pairs d.

(** The test on a stripped line of the architecture scan. *)
Definition is_arch_line (line : str) : bool :=
  startswith (of_string "native-code:") line
  || startswith (of_string "alt-native-code:") line.

Section Parser.

Variable isalnum : char -> bool.

(** [if m: x = m.group(n)], from the initial value [old] *)
Definition assign_group (m : option rmatch) (n : nat) (old : str) : str :=
  match m with Some m => group n m | None => old end.

(** The loop of the architecture scan, [archs] being the list so far. *)
Definition scan_archs (lines : list str) (archs : list str) : list str :=
  fold_left
    (fun archs line =>
       let line := strip line in
       if is_arch_line line then archs ++ findall1 isalnum re_quoted line else archs)
    lines archs.

(** [parse_aapt2_output(text)]: each field starts from its value in
    [init_info] and is assigned as the source assigns it. *)
Definition parse_aapt2_output (text : str) : Info :=
  let info := init_info text in
  let m_pkg := re_search isalnum re_package text in
  let m_plat := re_search isalnum re_platform_name text in
  let m_platc := re_search isalnum re_platform_code text in
  let m_compile := re_search isalnum re_compile text in
  let m_compile_code := re_search isalnum re_compile_codename text in
  let m_min := re_search isalnum re_min_sdk text in
  let m_target := re_search isalnum re_target_sdk text in
  let labels :=
    dict_fill (findall2 isalnum re_label_locale text) (app_name_labels info) in
  let m_label_generic := re_search isalnum re_label_generic text in
  let generic_label := assign_group m_label_generic 1 [] in
  let m_label_app := re_search isalnum re_label_app text in
  let app_node_label := assign_group m_label_app 1 [] in
  let name := pick_preferred preferred_locales labels (app_name info) in
  let name :=
    if negb (truthy name)
    then py_or (py_or generic_label
                      (dict_get_default (of_string "zh") [] labels))
               app_node_label
    else name in
  let m_launch := re_search isalnum re_launchable text in
  let m_screens := re_search isalnum re_screens text in
  let m_anyden := re_search isalnum re_any_density text in
  let m_dens := re_search isalnum re_densities text in
  let m_loc := re_search isalnum re_locales text in
  {| package_name := assign_group m_pkg 1 (package_name info);
     version_code := assign_group m_pkg 2 (version_code info);
     version_name := assign_group m_pkg 3 (version_name info);
     platform_build_version_name :=
       assign_group m_plat 1 (platform_build_version_name info);
     platform_build_version_code :=
       assign_group m_platc 1 (platform_build_version_code info);
     compile_sdk_version := assign_group m_compile 1 (compile_sdk_version info);
     compile_sdk_codename :=
       assign_group m_compile_code 1 (compile_sdk_codename info);
     min_sdk := assign_group m_min 1 (min_sdk info);
     target_sdk := assign_group m_target 1 (target_sdk info);
     app_name_labels := labels;
     app_name := name;
     launchable_activity := assign_group m_launch 1 (launchable_activity info);
     permissions := findall1 isalnum re_permission text;
     features := findall1 isalnum re_feature text;
     implied_features := findall1 isalnum re_implied_feature text;
     supports_screens :=
       match m_screens with
       | Some m => findall1 isalnum re_quoted (group 1 m)
       | None => supports_screens info
       end;
     supports_any_density :=
       assign_group m_anyden 1 (supports_any_density info);
     densities :=
       match m_dens with
       | Some m => findall1 isalnum re_quoted (group 1 m)
       | None => densities info
       end;
     locales :=
       match m_loc with
       | Some m => findall1 isalnum re_quoted (group 1 m)
       | None => locales info
       end;
     icons := dict_fill (findall2 isalnum re_icon text) (icons info);
     raw := raw info;
     architectures := scan_archs (splitlines text) [] |}.

End Parser.

(** ASCII letters and digits: the alphanumeric characters below 128. *)
Definition ascii_isalnum (c : char) : bool :=
  ((48 <=? c) && (c <=? 57)) || ((65 <=? c) && (c <=? 90))
  || ((97 <=? c) && (c <=? 122)).

(* ================================================================== *)
(** ** The display layer: [fmt_sdk] and the icon list of [fill_info] *)

(** [fmt_sdk(api_level)], a closure over [sdk_map]. *)
Definition fmt_sdk (sdk_map : dict) (api_level : str) : str :=
  if negb (truthy api_level) || str_eqb api_level (of_string "?")
  then of_string "?"
  else
    match dict_get api_level sdk_map with
    | Some label =>
        api_level ++ of_string "(" ++ label ++ of_string ")"
    | None => api_level
    end.

(** [fmt_sdk(info.get(k, "?") or "?")]: the way [fill_info] calls it; the
    key is always present in a parsed record. *)
Definition fmt_sdk_field (sdk_map : dict) (v : str) : str :=
  fmt_sdk sdk_map (py_or v (of_string "?")).

(** [sdk_map if sdk_map is not None else {}] *)
Definition sdk_map_or_empty (loaded : option dict) : dict :=
  match loaded with Some d => d | None => [] end.

Definition is_digit (c : char) : bool := (48 <=? c) && (c <=? 57).

(** The number a run of ASCII digits stands for, leading zeros
    allowed; [None] for the empty string and for a string with another
    character. *)
Fixpoint int_digits (acc : N) (s : str) : option N :=
  match s with
  | [] => Some acc
  | c :: s' => if is_digit c then int_digits (10 * acc + (c - 48)) s' else None
  end.

Definition digits_value (s : str) : option N :=
  match s with [] => None | _ :: _ => int_digits 0 s end.

(** The interpreter refuses to convert a decimal string with too many
    digits: one that has more than 640 digits and more than
    [max_str_digits], the value of [sys.get_int_max_str_digits()], when
    that value is not 0.  The value is 4300 unless it was set otherwise;
    0 stands for no limit, and for an interpreter that has none.  Leading
    zeros count as digits. *)
Definition too_long (max_str_digits : nat) (s : str) : bool :=
  (640 <? length s)%nat && (0 <? max_str_digits)%nat
  && (max_str_digits <? length s)%nat.

(** [int(s)] on a run of ASCII digits, the only strings the pattern of
    [re_icon] lets in as keys of [icons]; [None] stands for the
    [ValueError] of an empty string, of a run that is too long, and of a
    character that is no digit.  The signs, blanks, underscores and other
    Unicode digits that [int] also reads never reach it here and are not
    modelled. *)
Definition py_int (max_str_digits : nat) (s : str) : option N :=
  if too_long max_str_digits s then None else digits_value s.

(** A stable insertion sort on numeric keys, for [sorted(..., key=...)]. *)
Fixpoint insert_by_key (x : N * (str * str)) (l : list (N * (str * str)))
  : list (N * (str * str)) :=
  match l with
  | [] => [x]
  | y :: l' => if fst x <=? fst y then x :: l else y :: insert_by_key x l'
  end.

(** The keys of the items, computed one after the other; the first
    [ValueError] ends the sort. *)
Fixpoint keyed_items (max_str_digits : nat) (d : dict)
  : option (list (N * (str * str))) :=
  match d with
  | [] => Some []
  | kv :: d' =>
      match py_int max_str_digits (fst kv), keyed_items max_str_digits d' with
      | Some n, Some l => Some ((n, kv) :: l)
      | _, _ => None
      end
  end.

(** [sorted(icons.items(), key=lambda x: int(x[0]))]; [None] when [int]
    raises. *)
Definition sorted_icons (max_str_digits : nat) (icons : dict)
  : option (list (str * str)) :=
  match keyed_items max_str_digits icons with
  | Some l => Some (map snd (fold_right insert_by_key [] l))
  | None => None
  end.

(* ================================================================== *)
(** ** Equality of records: [==] on the values of [info]

    Strings and lists are equal when they hold the same elements in the
    same order, dictionaries when they hold the same keys with the same
    values, in whatever order. *)

Fixpoint list_eqb (a b : list str) : bool :=
  match a, b with
  | [], [] => true
  | x :: a', y :: b' => str_eqb x y && list_eqb a' b'
  | _, _ => false
  end.

Definition dict_eqb (a b : dict) : bool :=
  (length a =? length b)%nat
  && forallb (fun kv =>
                match dict_get (fst kv) b with
                | Some v => str_eqb (snd kv) v
                | None => false
                end) a.

Definition info_eqb (a b : Info) : bool :=
  str_eqb (package_name a) (package_name b)
  && str_eqb (version_name a) (version_name b)
  && str_eqb (version_code a) (version_code b)
  && str_eqb (platform_build_version_name a) (platform_build_version_name b)
  && str_eqb (platform_build_version_code a) (platform_build_version_code b)
  && str_eqb (compile_sdk_version a) (compile_sdk_version b)
  && str_eqb (compile_sdk_codename a) (compile_sdk_codename b)
  && str_eqb (min_sdk a) (min_sdk b)
  && str_eqb (target_sdk a) (target_sdk b)
  && str_eqb (app_name a) (app_name b)
  && dict_eqb (app_name_labels a) (app_name_labels b)
  && str_eqb (launchable_activity a) (launchable_activity b)
  && list_eqb (permissions a) (permissions b)
  && list_eqb (features a) (features b)
  && list_eqb (implied_features a) (implied_features b)
  && list_eqb (supports_screens a) (supports_screens b)
  && str_eqb (supports_any_density a) (supports_any_density b)
  && list_eqb (densities a) (densities b)
  && list_eqb (locales a) (locales b)
  && dict_eqb (icons a) (icons b)
  && str_eqb (raw a) (raw b)
  && list_eqb (architectures a) (architectures b).

(* ================================================================== *)
(** ** What a pattern means

    [Lang r x]: the string [x] is matched by [r], whatever the order in
    which a matcher tries the alternatives, and whatever it captures. *)

Section Language.

Variable isalnum : char -> bool.

Inductive Lang : regex -> str -> Prop :=
| L_eps : Lang Eps []
| L_chr p x : cset_mem isalnum p x = true -> Lang (Chr p) [x]
| L_str l : Lang (Str l) l
| L_seq a b x y : Lang a x -> Lang b y -> Lang (Seq a b) (x ++ y)
| L_alt_l a b x : Lang a x -> Lang (Alt a b) x
| L_alt_r a b x : Lang b x -> Lang (Alt a b) x
| L_group n a x : Lang a x -> Lang (Group n a) x
| L_star_nil g a : Lang (Star g a) []
| L_star_more g a x y :
    Lang a x -> Lang (Star g a) y -> Lang (Star g a) (x ++ y).

(** A match of [r] begins at the start of [s]. *)
Definition starts_with_match (r : regex) (s : str) : Prop :=
  exists x rest, s = x ++ rest /\ Lang r x.

(** The pattern [r] occurs in [s]. *)
Definition occurs (r : regex) (s : str) : Prop :=
  exists pre rest, s = pre ++ rest /\ starts_with_match r rest.

(** No match of [r] begins at any of the first [n] positions of [s]. *)
Definition no_match_before (r : regex) (n : nat) (s : str) : Prop :=
  forall k, (k < n)%nat -> ~ starts_with_match r (skipn k s).

(** The patterns [parse_aapt2_output] looks for with [re.search] and
    [re.findall]. *)
Definition text_patterns : list regex :=
  [re_package; re_platform_name; re_platform_code; re_compile;
   re_compile_codename; re_min_sdk; re_target_sdk; re_label_locale;
   re_label_generic; re_label_app; re_launchable; re_permission;
   re_feature; re_implied_feature; re_screens; re_any_density;
   re_densities; re_locales; re_icon].

(** None of the patterns occurs in the text, and none of its lines is an
    architecture line with a quoted token. *)
Definition no_pattern (text : str) : Prop :=
  Forall (fun r => ~ occurs r text) text_patterns /\
  (forall line, In line (splitlines text) ->
                is_arch_line (strip line) = true ->
                ~ occurs re_quoted (strip line)).

(** The groups a match of [r] can set: [v] is matched by the body of a
    group numbered [n]. *)
Fixpoint group_lang (r : regex) (n : nat) (v : str) : Prop :=
  match r with
  | Group m a => (n = m /\ Lang a v) \/ group_lang a n v
  | Seq a b | Alt a b => group_lang a n v \/ group_lang b n v
  | Star _ a => group_lang a n v
  | _ => False
  end.

End Language.

(** The groups every match of [r] sets. *)
Fixpoint sets_group (r : regex) (n : nat) : bool :=
  match r with
  | Group m a => Nat.eqb n m || sets_group a n
  | Seq a b => sets_group a n || sets_group b n
  | Alt a b => sets_group a n && sets_group b n
  | _ => false
  end.

(** [l] is a substring of [s]. *)
Definition substring (l s : str) : Prop :=
  exists pre post, s = pre ++ l ++ post.

(** A value that can stand between quotes: not empty, no quote in it. *)
Definition quotable (v : str) : Prop := v <> [] /\ ~ In quote v.

Definition all_space (s : str) : Prop :=
  forall c, In c s -> is_space c = true.

(** A string without white space at either end. *)
Definition trimmed (s : str) : Prop :=
  s = [] \/
  ((exists c t, s = c :: t /\ is_space c = false) /\
   (exists u d, s = u ++ [d] /\ is_space d = false)).

(** [r] is [text] with the white space at both ends removed. *)
Definition stripped_of (text r : str) : Prop :=
  exists l t, text = l ++ r ++ t /\ all_space l /\ all_space t /\ trimmed r.

(** The table is right on the ASCII characters. *)
Definition ascii_table (isalnum : char -> bool) : Prop :=
  forall c, c < 128 -> isalnum c = ascii_isalnum c.

Definition is_ascii (s : str) : bool := forallb (fun c => c <? 128) s.

(** The text of the second testable property: a label for [zh-CN] and a
    generic label, in both orders. *)
Definition text_label_cn_generic : str :=
  of_string "application-label-zh-CN:'A'" ++ nl
  ++ of_string "application-label:'B'".

Definition text_label_generic_cn : str :=
  of_string "application-label:'B'" ++ nl
  ++ of_string "application-label-zh-CN:'A'".

(** A locale as the pattern of the labels reads it: a non-empty run of
    alphanumeric characters, underscores and hyphens. *)
Definition locale_name (isalnum : char -> bool) (loc : str) : Prop :=
  loc <> [] /\ Forall (fun c => isalnum c = true \/ c = 95 \/ c = 45) loc.

(** Texts for the lower part of the chain: a generic label, a label for
    [zh] and the label of the application node; the last two; the last
    one; labels for [zh-TW] and [zh-HK], in this order; a label for
    another locale; an empty label for [zh-CN] and a generic label. *)
Definition text_label_generic_zh_node : str :=
  of_string "application-label:'B'" ++ nl
  ++ of_string "application-label-zh:'Z'" ++ nl
  ++ of_string "application: label='C' icon='i.png'".

Definition text_label_zh_node : str :=
  of_string "application-label-zh:'Z'" ++ nl
  ++ of_string "application: label='C' icon='i.png'".

Definition text_label_node : str :=
  of_string "application: label='C' icon='i.png'".

Definition text_label_tw_hk : str :=
  of_string "application-label-zh-TW:'T'" ++ nl
  ++ of_string "application-label-zh-HK:'H'".

Definition text_label_en : str := of_string "application-label-en:'E'".

Definition text_label_empty_cn_generic : str :=
  of_string "application-label-zh-CN:''" ++ nl
  ++ of_string "application-label:'B'".

(** A run of quoted tokens, each followed by a separator: the text
    ['t1' s1 't2' s2 ...] for the items [(t1, s1); (t2, s2); ...]. *)
Definition render_tokens (items : list (str * str)) : str :=
  flat_map (fun it => quote :: fst it ++ quote :: snd it) items.

(** Tokens that can be quoted, separators without a quote. *)
Definition token_items (items : list (str * str)) : Prop :=
  Forall (fun it => quotable (fst it) /\ ~ In quote (snd it)) items.

(** The text of the fourth testable property. *)
Definition text_native_code : str :=
  of_string "native-code: 'arm64-v8a' 'armeabi-v7a'" ++ nl
  ++ of_string "alt-native-code: 'x86'".

(** A line [<marker> name='v'], as the dump prints it. *)
Definition name_line (marker : string) (v : str) : str :=
  of_string marker ++ of_string " name='" ++ v ++ of_string "'" ++ nl.

(** The text of the third testable property. *)
Definition text_permission_twice : str :=
  of_string "uses-permission: name='P1'" ++ nl
  ++ of_string "uses-permission: name='P1'".

(** A non-empty run of white space. *)
Definition spaces (w : str) : Prop := w <> [] /\ all_space w.

(** The field [field] collects the names that follow [marker]: it is what
    [findall] gives for the pattern of the marker; it is empty when the
    pattern does not occur; where the first match of the pattern is
    [<marker> name='v'], it is [v] followed by what the text after that
    match gives; and a list of rendered lines is read back as it is. *)
Definition collects_names (isalnum : char -> bool)
    (field : Info -> list str) (marker : string) : Prop :=
  (forall text,
     field (parse_aapt2_output isalnum text)
     = findall1 isalnum (named_after marker) text)
  /\ (forall text,
        ~ occurs isalnum (named_after marker) text ->
        field (parse_aapt2_output isalnum text) = [])
  /\ (forall pre w v post,
        spaces w -> quotable v ->
        no_match_before isalnum (named_after marker) (length pre)
          (pre ++ of_string marker ++ w ++ of_string "name='" ++ v
           ++ of_string "'" ++ post) ->
        field (parse_aapt2_output isalnum
                 (pre ++ of_string marker ++ w ++ of_string "name='" ++ v
                  ++ of_string "'" ++ post))
        = v :: field (parse_aapt2_output isalnum post))
  /\ (forall values,
        Forall quotable values ->
        field (parse_aapt2_output isalnum
                 (flat_map (name_line marker) values))
        = values).

(** Tokens that can be quoted, each followed by white space (or by
    nothing). *)
Definition spaced_tokens (items : list (str * str)) : Prop :=
  Forall (fun it => quotable (fst it) /\ all_space (snd it)) items.

(** What follows a run of tokens ends it: the end of the text, or a
    character that is neither white space nor a quote. *)
Definition run_ends (post : str) : Prop :=
  match post with
  | [] => True
  | c :: _ => c <> quote /\ is_space c = false
  end.

(** The field [field] reads the run of tokens after [marker]: it is empty
    when the pattern of the marker does not occur; and where the first
    match of the pattern begins with the marker, white space and the
    tokens [items] with their separators, and the run ends there, the
    field is the list of these tokens. *)
Definition reads_token_run (isalnum : char -> bool)
    (field : Info -> list str) (marker : string) : Prop :=
  (forall text,
     ~ occurs isalnum (re_run_after marker) text ->
     field (parse_aapt2_output isalnum text) = [])
  /\ (forall pre w items post,
        spaces w -> items <> [] -> spaced_tokens items -> run_ends post ->
        no_match_before isalnum (re_run_after marker) (length pre)
          (pre ++ of_string marker ++ w ++ render_tokens items ++ post) ->
        field (parse_aapt2_output isalnum
                 (pre ++ of_string marker ++ w ++ render_tokens items
                  ++ post))
        = map fst items).

(** The reading of the claim on single lines: the field is empty, or it
    is the list of the quoted tokens of one line of the text, a line that
    holds the marker. *)
Definition from_one_line (isalnum : char -> bool)
    (field : Info -> list str) (marker : string) (text : str) : Prop :=
  field (parse_aapt2_output isalnum text) = [] \/
  exists line,
    In line (splitlines text) /\
    substring (of_string marker) line /\
    field (parse_aapt2_output isalnum text)
    = findall1 isalnum re_quoted line.

(** Densities on two lines. *)
Definition text_densities_two_lines : str :=
  of_string "densities: '160'" ++ nl ++ of_string "'240'".

(** The reading of the claim on icons that counts occurrences: as many
    entries as matches. *)
Definition one_entry_per_match (isalnum : char -> bool) (text : str) : Prop :=
  length (icons (parse_aapt2_output isalnum text))
  = length (findall2 isalnum re_icon text).

(** The same density twice. *)
Definition text_icon_twice : str :=
  of_string "application-icon-48:'res/a.png'" ++ nl
  ++ of_string "application-icon-48:'res/b.png'".

(** The text of the fifth testable property, in both orders. *)
Definition text_icons_48_192 : str :=
  of_string "application-icon-48:'res/icon48.png'" ++ nl
  ++ of_string "application-icon-192:'res/icon192.png'".

Definition text_icons_192_48 : str :=
  of_string "application-icon-192:'res/icon192.png'" ++ nl
  ++ of_string "application-icon-48:'res/icon48.png'".

(** A numeric string: a non-empty run of ASCII digits. *)
Definition numeric (k : str) : Prop := k <> [] /\ forallb is_digit k = true.

(** The claim on the formatter, clause by clause. *)
Definition fmt_claim (sdk_map : dict) (level : str) : Prop :=
  (forall label,
     dict_get level sdk_map = Some label ->
     fmt_sdk sdk_map level = level ++ of_string "(" ++ label ++ of_string ")")
  /\ (level <> [] -> dict_get level sdk_map = None ->
      fmt_sdk sdk_map level = level)
  /\ (level = [] -> fmt_sdk sdk_map level = of_string "?").

(** A table that has the placeholder as a key. *)
Definition table_with_placeholder : dict := [(of_string "?", of_string "x")].

(** The rest [s] of the input and the groups [c] hold characters of
    [text] only. *)
Definition within (text s : str) (c : caps) : Prop :=
  (forall x, In x s -> In x text) /\
  (forall n v, getcap n c = Some v -> forall x, In x v -> In x text).

(** The characters at which a line ends: line feed, vertical tab, form
    feed, carriage return, the file, group and record separators, next
    line, and the line and paragraph separators. *)
Definition line_boundaries : list char :=
  [10; 11; 12; 13; 28; 29; 30; 133; 8232; 8233].

(** A string that holds no line boundary. *)
Definition one_line (s : str) : Prop :=
  forall c, In c s -> ~ In c line_boundaries.

(** [line] is a whole line of [text]: it holds no line boundary, and it
    stands between the beginning of the text or a line boundary and the
    end of the text or a line boundary. *)
Definition line_of (text line : str) : Prop :=
  exists pre post,
    text = pre ++ line ++ post
    /\ one_line line
    /\ (pre = [] \/ exists p b, pre = p ++ [b] /\ In b line_boundaries)
    /\ (post = [] \/ exists b p, post = b :: p /\ In b line_boundaries).

(** [s] begins with [p]. *)
Definition begins_with (p s : str) : Prop := exists rest, s = p ++ rest.

(** A trimmed line that begins with one of the two markers. *)
Definition arch_marked (core : str) : Prop :=
  begins_with (of_string "native-code:") core
  \/ begins_with (of_string "alt-native-code:") core.

(** [a] stands between two quotes in [s], and can: it is not empty and
    holds no quote. *)
Definition quoted_in (a s : str) : Prop :=
  quotable a /\ exists x y, s = x ++ quote :: a ++ quote :: y.

(** A text in which the lines end in different ways, with a line that is
    indented, one that holds tokens after another marker, and one whose
    marker does not come first. *)
Definition text_arch_mixed : str :=
  of_string "densities: '160' '240'" ++ [13; 10]
  ++ [9; 32] ++ of_string "native-code: 'arm64-v8a' 'x86'  " ++ [13]
  ++ of_string "x native-code: 'mips'" ++ [8232]
  ++ [160] ++ of_string "alt-native-code: 'x86'" ++ [133]
  ++ of_string "native-code: 'cut" ++ [10] ++ of_string "off'".

(** The text holds a package line: the three attributes, in this order,
    each with a quotable value. *)
Definition package_line (text : str) : Prop :=
  exists pre w1 v1 w2 v2 w3 v3 post,
    text = pre ++ of_string "package:" ++ w1 ++ of_string "name='" ++ v1
           ++ of_string "'" ++ w2 ++ of_string "versionCode='" ++ v2
           ++ of_string "'" ++ w3 ++ of_string "versionName='" ++ v3
           ++ of_string "'" ++ post
    /\ spaces w1 /\ spaces w2 /\ spaces w3
    /\ quotable v1 /\ quotable v2 /\ quotable v3.

(** The character set [p] does not match at the start of [s]. *)
Definition stops (isalnum : char -> bool) (p : cset) (s : str) : Prop :=
  match s with [] => True | x :: _ => cset_mem isalnum p x = false end.

(** How many quotes a match of [r] holds at least. *)
Fixpoint min_quotes (r : regex) : nat :=
  match r with
  | Str l => count_occ N.eq_dec l quote
  | Seq a b => min_quotes a + min_quotes b
  | Alt a b => Nat.min (min_quotes a) (min_quotes b)
  | Group _ a => min_quotes a
  | _ => 0
  end.

(** Fuel that [finditer_fuel] never exhausts. *)
Definition rounds (adv : bool) (s : str) : nat :=
  2 * length s + (if adv then 1 else 2).

(* ================================================================== *)
(** ** The parser on a store of objects

    [parse_aapt2_output] builds its result in objects of the interpreter:
    the dictionary [info], and the lists and dictionaries that are its
    values.  Here these objects live in a store, each at an address.  A
    value is a string (a string cannot be changed, and is held as it is)
    or a reference to a list or a dictionary of the store.  The function
    is written as the source runs it, statement by statement: it
    allocates, reads and writes objects.  Match objects and the lists
    [found] are used once and dropped; only what [info] can reach is
    kept in the store. *)

Definition addr := nat.

Inductive value :=
| VStr (s : str)
| VRef (l : addr).

Inductive object :=
| OList (items : list str)              (* a list of strings *)
| ODict (items : dict)                  (* a dictionary of strings *)
| OInfo (fields : list (string * value)). (* the dictionary [info] *)

(** The store: the object at address [l] is the element number [l]. *)
Definition store := list object.

(** A computation on the store; [None] stands for an exception. *)
Definition M (A : Type) : Type := store -> option (A * store).

Definition ret {A : Type} (a : A) : M A := fun h => Some (a, h).

Definition bind {A B : Type} (m : M A) (f : A -> M B) : M B :=
  fun h => match m h with Some (a, h') => f a h' | None => None end.

Definition raise {A : Type} : M A := fun _ => None.

Notation "x <- c1 ;; c2" := (bind c1 (fun x => c2))
  (at level 61, c1 at next level, right associativity).
Notation "c1 ;; c2" := (bind c1 (fun _ => c2))
  (at level 61, right associativity).

(** A new object, at the first free address. *)
Definition alloc (o : object) : M addr :=
  fun h => Some (length h, h ++ [o]).

(** The object at [l]. *)
Definition load (l : addr) : M object :=
  fun h => match nth_error h l with Some o => Some (o, h) | None => None end.

Fixpoint upd (l : nat) (o : object) (h : store) : store :=
  match h, l with
  | [], _ => []
  | _ :: h', O => o :: h'
  | x :: h', S l' => x :: upd l' o h'
  end.

(** The object at [l] is replaced by [o]. *)
Definition store_at (l : addr) (o : object) : M unit :=
  fun h => match nth_error h l with
           | Some _ => Some (tt, upd l o h)
           | None => None
           end.

Definition entry (k : string) (v : value) : string * value := (k, v).

Fixpoint field_get (k : string) (fs : list (string * value)) : option value :=
  match fs with
  | [] => None
  | kv :: fs' => if String.eqb k (fst kv) then Some (snd kv) else field_get k fs'
  end.

Fixpoint field_set (k : string) (v : value) (fs : list (string * value))
  : list (string * value) :=
  match fs with
  | [] => [(k, v)]
  | kv :: fs' =>
      if String.eqb k (fst kv) then (fst kv, v) :: fs'
      else kv :: field_set k v fs'
  end.

(** [info[k]] *)
Definition get_item (info : addr) (k : string) : M value :=
  o <- load info ;;
  match o with
  | OInfo fs => match field_get k fs with Some v => ret v | None => raise end
  | _ => raise
  end.

(** [info[k]] where a string is expected, and where a list or a
    dictionary is. *)
Definition get_str (info : addr) (k : string) : M str :=
  v <- get_item info k ;;
  match v with VStr s => ret s | VRef _ => raise end.

Definition get_ref (info : addr) (k : string) : M addr :=
  v <- get_item info k ;;
  match v with VRef l => ret l | VStr _ => raise end.

(** [info[k] = v] *)
Definition set_item (info : addr) (k : string) (v : value) : M unit :=
  o <- load info ;;
  match o with
  | OInfo fs => store_at info (OInfo (field_set k v fs))
  | _ => raise
  end.

(** [d[k] = v], [d.get(k)] and [d[k]] on the dictionary at [d]. *)
Definition dict_store (d : addr) (k v : str) : M unit :=
  o <- load d ;;
  match o with
  | ODict items => store_at d (ODict (dict_set k v items))
  | _ => raise
  end.

Definition dict_lookup (d : addr) (k : str) : M (option str) :=
  o <- load d ;;
  match o with ODict items => ret (dict_get k items) | _ => raise end.

Definition dict_index (d : addr) (k : str) : M str :=
  v <- dict_lookup d k ;;
  match v with Some s => ret s | None => raise end.

(** [l.extend(xs)] on the list at [l]. *)
Definition list_extend (l : addr) (xs : list str) : M unit :=
  o <- load l ;;
  match o with
  | OList items => store_at l (OList (items ++ xs))
  | _ => raise
  end.

(** [for x in xs: body] *)
Fixpoint for_each {A : Type} (xs : list A) (body : A -> M unit) : M unit :=
  match xs with
  | [] => ret tt
  | x :: xs' => body x ;; for_each xs' body
  end.

(** [if m: info[k] = m.group(n)] *)
Definition assign_field (info : addr) (k : string) (m : option rmatch)
    (n : nat) : M unit :=
  match m with
  | Some m => set_item info k (VStr (group n m))
  | None => ret tt
  end.

(** The three assignments under [if m_pkg]. *)
Definition assign_package (info : addr) (m : option rmatch) : M unit :=
  match m with
  | Some m =>
      set_item info "package_name" (VStr (group 1 m)) ;;
      set_item info "version_code" (VStr (group 2 m)) ;;
      set_item info "version_name" (VStr (group 3 m))
  | None => ret tt
  end.

(** The loop over the preferred locales, with its [break]. *)
Fixpoint pick_run (info : addr) (prefs : list str) : M unit :=
  match prefs with
  | [] => ret tt
  | pref :: prefs' =>
      d <- get_ref info "app_name_labels" ;;
      v <- dict_lookup d pref ;;
      if match v with Some s => truthy s | None => false end
      then
        d' <- get_ref info "app_name_labels" ;;
        s <- dict_index d' pref ;;
        set_item info "app_name" (VStr s)
      else pick_run info prefs'
  end.

(** The value of [generic_label or ....get("zh", "") or app_node_label];
    the dictionary is read only when the generic label is empty. *)
Definition fallback_name (info : addr) (generic_label app_node_label : str)
  : M str :=
  if truthy generic_label then ret generic_label
  else
    d <- get_ref info "app_name_labels" ;;
    zh <- dict_lookup d (of_string "zh") ;;
    ret (py_or (match zh with Some s => s | None => [] end) app_node_label).

(** [if not info["app_name"]: info["app_name"] = ...] *)
Definition default_name (info : addr) (generic_label app_node_label : str)
  : M unit :=
  name <- get_str info "app_name" ;;
  if negb (truthy name)
  then
    v <- fallback_name info generic_label app_node_label ;;
    set_item info "app_name" (VStr v)
  else ret tt.

Section Run.

Variable isalnum : char -> bool.

(** [info[k] = [x for x in re.findall(r, text)]]: the list is a new
    object. *)
Definition assign_names (info : addr) (k : string) (r : regex) (text : str)
  : M unit :=
  l <- alloc (OList (findall1 isalnum r text)) ;;
  set_item info k (VRef l).

(** [if m: info[k] = re.findall(quoted, m.group(1))]: the list that
    [findall] returns is a new object. *)
Definition assign_tokens (info : addr) (k : string) (m : option rmatch)
  : M unit :=
  match m with
  | Some m =>
      l <- alloc (OList (findall1 isalnum re_quoted (group 1 m))) ;;
      set_item info k (VRef l)
  | None => ret tt
  end.

(** [for k, v in re.findall(r, text): info[field][k] = v] *)
Definition fill_field (info : addr) (field : string) (r : regex) (text : str)
  : M unit :=
  for_each (findall2 isalnum r text)
    (fun kv =>
       d <- get_ref info field ;;
       dict_store d (fst kv) (snd kv)).

(** The body of the loop over the lines. *)
Definition arch_line (archs : addr) (line : str) : M unit :=
  let line := strip line in
  if is_arch_line line
  then list_extend archs (findall1 isalnum re_quoted line)
  else ret tt.

(** [parse_aapt2_output(text)], statement by statement; the result is
    the address of [info]. *)
Definition parse_run (text : str) : M addr :=
  labels <- alloc (ODict []) ;;
  permissions <- alloc (OList []) ;;
  features <- alloc (OList []) ;;
  implied_features <- alloc (OList []) ;;
  supports_screens <- alloc (OList []) ;;
  densities <- alloc (OList []) ;;
  locales <- alloc (OList []) ;;
  icons <- alloc (ODict []) ;;
  architectures <- alloc (OList []) ;;
  info <- alloc (OInfo
    [entry "package_name" (VStr []);
     entry "version_name" (VStr []);
     entry "version_code" (VStr []);
     entry "platform_build_version_name" (VStr []);
     entry "platform_build_version_code" (VStr []);
     entry "compile_sdk_version" (VStr []);
     entry "compile_sdk_codename" (VStr []);
     entry "min_sdk" (VStr []);
     entry "target_sdk" (VStr []);
     entry "app_name" (VStr []);
     entry "app_name_labels" (VRef labels);
     entry "launchable_activity" (VStr []);
     entry "permissions" (VRef permissions);
     entry "features" (VRef features);
     entry "implied_features" (VRef implied_features);
     entry "supports_screens" (VRef supports_screens);
     entry "supports_any_density" (VStr []);
     entry "densities" (VRef densities);
     entry "locales" (VRef locales);
     entry "icons" (VRef icons);
     entry "raw" (VStr (strip text));
     entry "architectures" (VRef architectures)]) ;;
  assign_package info (re_search isalnum re_package text) ;;
  assign_field info "platform_build_version_name"
    (re_search isalnum re_platform_name text) 1 ;;
  assign_field info "platform_build_version_code"
    (re_search isalnum re_platform_code text) 1 ;;
  assign_field info "compile_sdk_version"
    (re_search isalnum re_compile text) 1 ;;
  assign_field info "compile_sdk_codename"
    (re_search isalnum re_compile_codename text) 1 ;;
  assign_field info "min_sdk" (re_search isalnum re_min_sdk text) 1 ;;
  assign_field info "target_sdk" (re_search isalnum re_target_sdk text) 1 ;;
  fill_field info "app_name_labels" re_label_locale text ;;
  let generic_label :=
    match re_search isalnum re_label_generic text with
    | Some m => group 1 m
    | None => []
    end in
  let app_node_label :=
    match re_search isalnum re_label_app text with
    | Some m => group 1 m
    | None => []
    end in
  pick_run info preferred_locales ;;
  default_name info generic_label app_node_label ;;
  assign_field info "launchable_activity"
    (re_search isalnum re_launchable text) 1 ;;
  assign_names info "permissions" re_permission text ;;
  assign_names info "features" re_feature text ;;
  assign_names info "implied_features" re_implied_feature text ;;
  assign_tokens info "supports_screens" (re_search isalnum re_screens text) ;;
  assign_field info "supports_any_density"
    (re_search isalnum re_any_density text) 1 ;;
  assign_tokens info "densities" (re_search isalnum re_densities text) ;;
  assign_tokens info "locales" (re_search isalnum re_locales text) ;;
  fill_field info "icons" re_icon text ;;
  archs <- alloc (OList []) ;;
  for_each (splitlines text) (arch_line archs) ;;
  set_item info "architectures" (VRef archs) ;;
  ret info.

End Run.

(** *** Reading a record back from the store *)

(** What a value stands for: the string, or the content of the list or
    of the dictionary it refers to. *)
Inductive content :=
| CStr (s : str)
| CList (items : list str)
| CDict (items : dict).

Definition deref (h : store) (v : value) : option content :=
  match v with
  | VStr s => Some (CStr s)
  | VRef l =>
      match nth_error h l with
      | Some (OList items) => Some (CList items)
      | Some (ODict items) => Some (CDict items)
      | _ => None
      end
  end.

Fixpoint read_fields (h : store) (fs : list (string * value))
  : option (list (string * content)) :=
  match fs with
  | [] => Some []
  | kv :: fs' =>
      match deref h (snd kv), read_fields h fs' with
      | Some c, Some cs => Some ((fst kv, c) :: cs)
      | _, _ => None
      end
  end.

Fixpoint content_get (k : string) (cs : list (string * content))
  : option content :=
  match cs with
  | [] => None
  | kc :: cs' =>
      if String.eqb k (fst kc) then Some (snd kc) else content_get k cs'
  end.

Definition the_str (k : string) (cs : list (string * content)) : option str :=
  match content_get k cs with Some (CStr s) => Some s | _ => None end.

Definition the_list (k : string) (cs : list (string * content))
  : option (list str) :=
  match content_get k cs with Some (CList l) => Some l | _ => None end.

Definition the_dict (k : string) (cs : list (string * content))
  : option dict :=
  match content_get k cs with Some (CDict d) => Some d | _ => None end.

Definition obind {A B : Type} (o : option A) (f : A -> option B) : option B :=
  match o with Some a => f a | None => None end.

(** The record a list of fields stands for. *)
Definition info_of (cs : list (string * content)) : option Info :=
  obind (the_str "package_name" cs) (fun f1 =>
  obind (the_str "version_name" cs) (fun f2 =>
  obind (the_str "version_code" cs) (fun f3 =>
  obind (the_str "platform_build_version_name" cs) (fun f4 =>
  obind (the_str "platform_build_version_code" cs) (fun f5 =>
  obind (the_str "compile_sdk_version" cs) (fun f6 =>
  obind (the_str "compile_sdk_codename" cs) (fun f7 =>
  obind (the_str "min_sdk" cs) (fun f8 =>
  obind (the_str "target_sdk" cs) (fun f9 =>
  obind (the_str "app_name" cs) (fun f10 =>
  obind (the_dict "app_name_labels" cs) (fun f11 =>
  obind (the_str "launchable_activity" cs) (fun f12 =>
  obind (the_list "permissions" cs) (fun f13 =>
  obind (the_list "features" cs) (fun f14 =>
  obind (the_list "implied_features" cs) (fun f15 =>
  obind (the_list "supports_screens" cs) (fun f16 =>
  obind (the_str "supports_any_density" cs) (fun f17 =>
  obind (the_list "densities" cs) (fun f18 =>
  obind (the_list "locales" cs) (fun f19 =>
  obind (the_dict "icons" cs) (fun f20 =>
  obind (the_str "raw" cs) (fun f21 =>
  obind (the_list "architectures" cs) (fun f22 =>
  Some {| package_name := f1; version_name := f2; version_code := f3;
          platform_build_version_name := f4;
          platform_build_version_code := f5;
          compile_sdk_version := f6; compile_sdk_codename := f7;
          min_sdk := f8; target_sdk := f9; app_name := f10;
          app_name_labels := f11; launchable_activity := f12;
          permissions := f13; features := f14; implied_features := f15;
          supports_screens := f16; supports_any_density := f17;
          densities := f18; locales := f19; icons := f20; raw := f21;
          architectures := f22 |})))))))))))))))))))))).

(** The record that the dictionary at [r] holds in the store [h]. *)
Definition read_info (h : store) (r : addr) : option Info :=
  match nth_error h r with
  | Some (OInfo fs) => obind (read_fields h fs) info_of
  | _ => None
  end.

(** The lists and dictionaries that the dictionary at [r] refers to. *)
Definition info_refs (h : store) (r : addr) : list addr :=
  match nth_error h r with
  | Some (OInfo fs) =>
      flat_map (fun kv => match snd kv with VRef l => [l] | VStr _ => [] end)
        fs
  | _ => []
  end.

(* ================================================================== *)
(** ** More of [fill_info]: the version line, the labels shown *)

(** [s.lstrip(chars)] and [s.strip(chars)] *)
Fixpoint lstrip_chars (chars s : str) : str :=
  match s with
  | c :: s' => if existsb (N.eqb c) chars then lstrip_chars chars s' else s
  | [] => []
  end.

Definition strip_chars (chars s : str) : str :=
  rev (lstrip_chars chars (rev (lstrip_chars chars s))).

(** The text of the version field: the name, [" / "] and the code, with
    spaces and slashes stripped at both ends. *)
Definition version_text (i : Info) : str :=
  strip_chars (of_string " /")
    (version_name i ++ of_string " / " ++ version_code i).

(** The locales [fill_info] shows first. *)
Definition display_preferred : list str :=
  [of_string "zh-CN"; of_string "zh-HK"; of_string "zh-TW";
   of_string "en-GB"; of_string "en-US"; of_string "ja"; of_string "ko"].

(** The heading of the label list, a bracketed Chinese caption. *)
Definition labels_header : str :=
  [91; 37096; 20998; 22810; 35821; 35328; 24212; 29992; 21517; 93].

(** The line [k: v] of a label. *)
Definition label_line (kv : str * str) : str :=
  fst kv ++ of_string ": " ++ snd kv.

(** [k in shown] and [shown.add(k)] on a set of strings. *)
Definition set_mem (k : str) (shown : list str) : bool :=
  existsb (str_eqb k) shown.

Definition set_add (k : str) (shown : list str) : list str :=
  if set_mem k shown then shown else k :: shown.

(** The first loop: the preferred locales that have a non-empty label, in
    the order of the list.  [other] is the list of lines so far, [shown]
    the set of locales shown. *)
Fixpoint show_preferred (prefs : list str) (labels : dict)
    (other : list str) (shown : list str) : list str * list str :=
  match prefs with
  | [] => (other, shown)
  | k :: prefs' =>
      match dict_get k labels with
      | Some v =>
          if truthy v
          then show_preferred prefs' labels (other ++ [label_line (k, v)])
                 (set_add k shown)
          else show_preferred prefs' labels other shown
      | None => show_preferred prefs' labels other shown
      end
  end.

(** The second loop, over [labels.items()]: it ends when [limit] locales
    are shown, and shows the labels that are not empty and not shown
    yet. *)
Fixpoint show_others (items : list (str * str)) (limit : nat)
    (other : list str) (shown : list str) : list str * list str :=
  match items with
  | [] => (other, shown)
  | kv :: items' =>
      if (limit <=? length shown)%nat then (other, shown)
      else if negb (set_mem (fst kv) shown) && truthy (snd kv)
      then show_others items' limit (other ++ [label_line kv])
             (set_add (fst kv) shown)
      else show_others items' limit other shown
  end.

(** The label part of [fill_info]: what it appends to [other]. *)
Definition label_block (labels : dict) (other : list str) : list str :=
  match labels with
  | [] => other
  | _ :: _ =>
      let other := other ++ [[]; labels_header] in
      let st := show_preferred display_preferred labels other [] in
      fst (show_others labels (5 + length display_preferred)
             (fst st) (snd st))
  end.

(* ================================================================== *)
(** ** [load_sdk_versions]

    The function reads a JSON file and builds the table of [fmt_sdk].
    Of the JSON it reads, the loop sees this much: each item is an
    object or not; [apiLevel] is turned into a string by [str], whatever
    it is; [version] and [codename] are absent, a string, or another
    value, of which only the truth value matters. *)

Inductive jfield :=
| JAbsent
| JString (s : str)
| JOther (truth : bool).

Inductive jitem :=
| JNotObject
| JObject (api : str) (version codename : jfield).

(** [version = item.get("version", "")] and the removal of a leading
    ["Android "]; [None] when [startswith] is not there to call. *)
Definition sdk_version (version : jfield) : option str :=
  match version with
  | JAbsent => Some []
  | JString s =>
      Some (if startswith (of_string "Android ") s then skipn 8 s else s)
  | JOther _ => None
  end.

(** [codename = item.get("codename") or ""] and the removal of its
    spaces; [None] when [replace] is not there to call. *)
Definition sdk_codename (codename : jfield) : option str :=
  match codename with
  | JAbsent => Some []
  | JString s => Some (filter (fun c => negb (c =? 32)) s)
  | JOther false => Some []
  | JOther true => None
  end.

(** The label of one item. *)
Definition sdk_label (version codename : jfield) : option str :=
  match sdk_version version, sdk_codename codename with
  | Some v, Some c => Some (if truthy c then v ++ of_string " " ++ c else v)
  | _, _ => None
  end.

(** The loop over the items; [None] is the exception that ends it. *)
Fixpoint fill_sdk_map (data : list jitem) (sdk_map : dict) : option dict :=
  match data with
  | [] => Some sdk_map
  | JNotObject :: _ => None
  | JObject api version codename :: data' =>
      match sdk_label version codename with
      | Some label => fill_sdk_map data' (dict_set api label sdk_map)
      | None => None
      end
  end.

(** [load_sdk_versions()]: [file] is [None] when the file is missing or
    is no JSON that can be iterated, and the items of the JSON otherwise;
    the result is [None] when the function returns nothing. *)
Definition load_sdk_versions (file : option (list jitem)) : option dict :=
  match file with
  | None => None
  | Some data => fill_sdk_map data []
  end.

(** An item the loop can handle. *)
Definition good_item (it : jitem) : Prop :=
  match it with
  | JNotObject => False
  | JObject _ version codename => sdk_label version codename <> None
  end.

(** The entry an item stands for. *)
Definition item_entry (it : jitem) : str * str :=
  match it with
  | JNotObject => ([], [])
  | JObject api version codename =>
      (api, match sdk_label version codename with
            | Some l => l
            | None => []
            end)
  end.

(* ================================================================== *)
(** ** Notions for the properties of these parts *)

(** The field [field] reads the value that follows [marker]: it is a
    non-empty [v] exactly when the first match of the pattern is the
    marker, [v] and the closing quote, and it is empty exactly when the
    pattern does not occur. *)
Definition reads_quoted_after (isalnum : char -> bool)
    (field : Info -> str) (marker : string) : Prop :=
  (forall text v,
     v <> [] ->
     (field (parse_aapt2_output isalnum text) = v <->
      exists pre post,
        text = pre ++ of_string marker ++ v ++ of_string "'" ++ post
        /\ quotable v
        /\ no_match_before isalnum (quoted_after marker) (length pre) text))
  /\ (forall text,
        field (parse_aapt2_output isalnum text) = [] <->
        ~ occurs isalnum (quoted_after marker) text).

(** The keys of a list of pairs, each once, in the order in which they
    first appear. *)
Fixpoint first_keys (seen : list str) (pairs : list (str * str))
  : list str :=
  match pairs with
  | [] => []
  | kv :: pairs' =>
      if set_mem (fst kv) seen then first_keys seen pairs'
      else fst kv :: first_keys (fst kv :: seen) pairs'
  end.

(** No quote in a string. *)
Definition clean (v : str) : Prop := ~ In quote v.

(** No field of the record, [raw] apart, holds a quote; the collected
    values and the paths of the icons are not empty; the densities are
    numeric. *)
Definition clean_info (i : Info) : Prop :=
  (clean (package_name i) /\ clean (version_name i) /\
   clean (version_code i) /\ clean (platform_build_version_name i) /\
   clean (platform_build_version_code i) /\ clean (compile_sdk_version i) /\
   clean (compile_sdk_codename i) /\ clean (min_sdk i) /\
   clean (target_sdk i) /\ clean (app_name i) /\
   clean (launchable_activity i) /\ clean (supports_any_density i))
  /\ (Forall quotable (permissions i) /\ Forall quotable (features i) /\
      Forall quotable (implied_features i) /\
      Forall quotable (supports_screens i) /\ Forall quotable (densities i) /\
      Forall quotable (locales i) /\ Forall quotable (architectures i))
  /\ Forall (fun kv => fst kv <> [] /\ clean (snd kv)) (app_name_labels i)
  /\ Forall (fun kv => numeric (fst kv) /\ quotable (snd kv)) (icons i).

(** The entry [kv] of [icons] has the density [n]. *)
Definition density_is (n : N) (kv : str * str) : bool :=
  match digits_value (fst kv) with
  | Some x => x =? n
  | None => false
  end.

(** The preferred locales that have a non-empty label, with the label. *)
Definition preferred_pairs (labels : dict) (prefs : list str)
  : list (str * str) :=
  flat_map (fun k =>
              match dict_get k labels with
              | Some v => if truthy v then [(k, v)] else []
              | None => []
              end) prefs.

(** The numeric order of two entries of [icons]. *)
Definition density_le (a b : str * str) : Prop :=
  match digits_value (fst a), digits_value (fst b) with
  | Some x, Some y => (x <= y)%N
  | _, _ => False
  end.

(* ================================================================== *)
(** * Properties *)

Unset Implicit Arguments.

(** ** Lists and strings *)

Lemma flat_map_none (A B : Type) (f : A -> list B) (l : list A) :
  (forall x, In x l -> f x = []) -> flat_map f l = [].
Proof.
  induction l as [|x l IH]; intros H; simpl; [reflexivity|].
  rewrite (H x) by (left; reflexivity). apply IH.
  intros y Hy. apply H. right. exact Hy.
Qed.

Lemma flat_map_agree (A B : Type) (f g : A -> list B) (l : list A) :
  (forall x, In x l -> f x = g x) -> flat_map f l = flat_map g l.
Proof.
  induction l as [|x l IH]; intros H; simpl; [reflexivity|].
  rewrite (H x) by (left; reflexivity). f_equal. apply IH.
  intros y Hy. apply H. right. exact Hy.
Qed.

Lemma str_eqb_refl (a : str) : str_eqb a a = true.
Proof.
  induction a as [|x a IH]; simpl; [reflexivity|].
  rewrite N.eqb_refl. exact IH.
Qed.

Lemma str_eqb_eq (a b : str) : str_eqb a b = true <-> a = b.
Proof.
  split.
  - revert b. induction a as [|x a IH]; intros [|y b]; simpl; try discriminate.
    + reflexivity.
    + intros H. apply andb_prop in H. destruct H as [H1 H2].
      apply N.eqb_eq in H1. subst y. f_equal. apply IH. exact H2.
  - intros ->. apply str_eqb_refl.
Qed.

Lemma str_eqb_neq (a b : str) : str_eqb a b = false <-> a <> b.
Proof.
  split.
  - intros H E. apply str_eqb_eq in E. congruence.
  - intros H. destruct (str_eqb a b) eqn:E; [|reflexivity].
    apply str_eqb_eq in E. contradiction.
Qed.

Lemma startswith_app (l s : str) : startswith l (l ++ s) = true.
Proof.
  induction l as [|x l IH]; simpl; [reflexivity|].
  rewrite N.eqb_refl. exact IH.
Qed.

Lemma startswith_split (l s : str) :
  startswith l s = true -> s = l ++ skipn (length l) s.
Proof.
  revert s. induction l as [|x l IH]; intros s H; simpl in *.
  - reflexivity.
  - destruct s as [|y s]; [discriminate|].
    apply andb_prop in H. destruct H as [H1 H2].
    apply N.eqb_eq in H1. subst y. simpl. f_equal. apply IH. exact H2.
Qed.

Lemma skipn_length_app (A : Type) (l s : list A) : skipn (length l) (l ++ s) = s.
Proof. induction l as [|x l IH]; simpl; [reflexivity|exact IH]. Qed.

Lemma consumed_app (x s : str) : consumed (x ++ s) s = x.
Proof.
  unfold consumed. rewrite length_app.
  replace (length x + length s - length s)%nat with (length x) by lia.
  rewrite firstn_app, Nat.sub_diag, firstn_all. simpl. apply app_nil_r.
Qed.

Lemma consumed_same (s : str) : consumed s s = [].
Proof. apply (consumed_app [] s). Qed.

Lemma lstrip_incl c s : In c (lstrip s) -> In c s.
Proof.
  induction s as [|x s IH]; simpl; [tauto|].
  destruct (is_space x); simpl; tauto.
Qed.

Lemma strip_incl c s : In c (strip s) -> In c s.
Proof.
  unfold strip, rstrip. intros H. apply in_rev in H.
  apply lstrip_incl in H. apply in_rev in H. apply lstrip_incl in H. exact H.
Qed.

Lemma splitlines_from_incl c : forall n s cur line,
  (length s <= n)%nat ->
  In line (splitlines_from cur s) -> In c line -> In c cur \/ In c s.
Proof.
  induction n as [|n IH]; intros s cur line Hn Hl Hc.
  - destruct s; [|simpl in Hn; lia]. simpl in Hl.
    destruct cur; [destruct Hl|]. destruct Hl as [<-|[]].
    left. apply in_rev. exact Hc.
  - destruct s as [|x s].
    + simpl in Hl. destruct cur; [destruct Hl|]. destruct Hl as [<-|[]].
      left. apply in_rev. exact Hc.
    + simpl in Hn. simpl in Hl. destruct (is_linebreak x).
      * destruct Hl as [<-|Hl]; [left; apply in_rev; exact Hc|].
        destruct s as [|d s]; [destruct Hl|].
        destruct ((x =? 13) && (d =? 10)).
        -- destruct (IH s [] line ltac:(simpl in Hn; lia) Hl Hc) as [[]|H].
           right. right. right. exact H.
        -- destruct (IH (d :: s) [] line ltac:(simpl in *; lia) Hl Hc)
             as [[]|H].
           right. right. exact H.
      * destruct (IH s (x :: cur) line ltac:(lia) Hl Hc) as [[H|H]|H].
        -- right. left. exact H.
        -- left. exact H.
        -- right. right. exact H.
Qed.

Lemma splitlines_incl c text line :
  In line (splitlines text) -> In c line -> In c text.
Proof.
  intros Hl Hc.
  destruct (@splitlines_from_incl c (length text) text [] line
              (le_n _) Hl Hc) as [[]|H].
  exact H.
Qed.

(** [strip] removes the white space at both ends, and nothing else. *)

Lemma lstrip_split s :
  exists l, s = l ++ lstrip s /\ all_space l /\
            match lstrip s with [] => True | c :: _ => is_space c = false end.
Proof.
  induction s as [|x s IH]; simpl.
  - exists []. split; [reflexivity|]. split; [intros c []|exact I].
  - destruct (is_space x) eqn:E.
    + destruct IH as [l [H1 [H2 H3]]]. exists (x :: l).
      split; [simpl; f_equal; exact H1|]. split; [|exact H3].
      intros c [<-|Hc]; [exact E|apply H2; exact Hc].
    + exists []. split; [reflexivity|]. split; [intros c []|exact E].
Qed.

Lemma lstrip_keeps_last a c :
  is_space c = false -> exists b, lstrip (a ++ [c]) = b ++ [c].
Proof.
  intros Hc. induction a as [|x a IH]; simpl.
  - rewrite Hc. exists []. reflexivity.
  - destruct (is_space x); [exact IH|]. exists (x :: a). reflexivity.
Qed.

Lemma strip_stripped text : stripped_of text (strip text).
Proof.
  unfold stripped_of, strip, rstrip.
  destruct (lstrip_split text) as [l [Hl [Hls Hhd]]].
  destruct (lstrip_split (rev (lstrip text))) as [t [Ht [Hts Hlast]]].
  exists l, (rev t). split; [|split; [exact Hls|split]].
  - rewrite <- rev_app_distr, <- Ht, rev_involutive. exact Hl.
  - intros c Hc. apply Hts. apply in_rev. exact Hc.
  - destruct (lstrip text) as [|c u] eqn:Eu.
    + left. reflexivity.
    + right. simpl rev in *. destruct (lstrip_keeps_last (rev u) c Hhd) as [b Hb].
      rewrite Hb in *. split.
      * exists c, (rev b). split; [|exact Hhd].
        rewrite rev_app_distr. reflexivity.
      * destruct (b ++ [c]) as [|d w] eqn:Ew.
        -- destruct b; discriminate.
        -- exists (rev w), d. split; [reflexivity|exact Hlast].
Qed.

(** ** Dictionaries *)

Lemma dict_get_set_same k v d : dict_get k (dict_set k v d) = Some v.
Proof.
  induction d as [|[k' v'] d IH]; simpl.
  - rewrite str_eqb_refl. reflexivity.
  - destruct (str_eqb k k') eqn:E; simpl; rewrite E; [reflexivity|exact IH].
Qed.

Lemma dict_get_set_other k k' v d :
  k <> k' -> dict_get k (dict_set k' v d) = dict_get k d.
Proof.
  intros Hne. induction d as [|[k0 v0] d IH]; simpl.
  - apply str_eqb_neq in Hne. rewrite Hne. reflexivity.
  - destruct (str_eqb k' k0) eqn:E; simpl.
    + apply str_eqb_eq in E. subst k0.
      rewrite (proj2 (str_eqb_neq k k') Hne). reflexivity.
    + rewrite IH. reflexivity.
Qed.

(** After [for k, v in pairs: d[k] = v], a key holds the value of its last
    pair, or what it held before. *)
Lemma dict_get_fill k pairs : forall d,
  dict_get k (dict_fill pairs d) =
  match dict_get k (rev pairs) with
  | Some v => Some v
  | None => dict_get k d
  end.
Proof.
  unfold dict_fill. induction pairs as [|[k' v'] pairs IH]; intros d.
  - reflexivity.
  - simpl fold_left. rewrite IH. simpl rev.
    assert (Happ : forall l1 l2, dict_get k (l1 ++ l2) =
              match dict_get k l1 with
              | Some v => Some v
              | None => dict_get k l2
              end).
    { induction l1 as [|[k1 v1] l1 IH1]; intros l2; simpl; [reflexivity|].
      destruct (str_eqb k k1); [reflexivity|apply IH1]. }
    rewrite Happ. destruct (dict_get k (rev pairs)); [reflexivity|].
    simpl. destruct (str_eqb k k') eqn:E.
    + apply str_eqb_eq in E. subst k'. apply dict_get_set_same.
    + apply dict_get_set_other. apply str_eqb_neq. exact E.
Qed.

Lemma dict_keys_set k v d :
  dict_keys (dict_set k v d) =
  if dict_mem k d then dict_keys d else dict_keys d ++ [k].
Proof.
  unfold dict_mem. induction d as [|[k' v'] d IH]; simpl; [reflexivity|].
  destruct (str_eqb k k') eqn:E; simpl; [reflexivity|].
  rewrite IH. destruct (dict_get k d); reflexivity.
Qed.

Lemma dict_mem_keys k d : dict_mem k d = true <-> In k (dict_keys d).
Proof.
  unfold dict_mem. induction d as [|[k' v'] d IH]; simpl.
  - split; [discriminate|tauto].
  - destruct (str_eqb k k') eqn:E.
    + apply str_eqb_eq in E. subst k'. split; auto.
    + apply str_eqb_neq in E. rewrite IH. split; [auto|].
      intros [H|H]; [congruence|exact H].
Qed.

Lemma dict_keys_nodup_set k v d :
  NoDup (dict_keys d) -> NoDup (dict_keys (dict_set k v d)).
Proof.
  intros H. rewrite dict_keys_set. destruct (dict_mem k d) eqn:E; [exact H|].
  apply NoDup_app; [exact H|constructor; [intros []|constructor]|].
  intros x Hx [<-|[]]. apply dict_mem_keys in Hx. congruence.
Qed.

(** A dictionary never holds a key twice, and the keys of a filled
    dictionary are the keys it had and the keys of the pairs. *)
Lemma dict_fill_keys pairs : forall d,
  NoDup (dict_keys d) ->
  NoDup (dict_keys (dict_fill pairs d)) /\
  (forall k, In k (dict_keys (dict_fill pairs d)) <->
             In k (dict_keys d) \/ In k (map fst pairs)).
Proof.
  unfold dict_fill. induction pairs as [|[k' v'] pairs IH]; intros d Hd.
  - simpl. split; [exact Hd|]. intros k. tauto.
  - simpl fold_left.
    destruct (IH (dict_set k' v' d) (dict_keys_nodup_set k' v' d Hd)) as [H1 H2].
    split; [exact H1|]. intros k. rewrite H2, dict_keys_set. simpl.
    destruct (dict_mem k' d) eqn:E.
    + apply dict_mem_keys in E. split; [tauto|].
      intros [H|[H|H]]; [tauto|subst; tauto|tauto].
    + rewrite in_app_iff. simpl. tauto.
Qed.

(** Pairs with distinct keys fill an empty dictionary with themselves. *)
Lemma dict_fill_distinct pairs : forall d,
  NoDup (map fst pairs) ->
  (forall k, In k (map fst pairs) -> dict_mem k d = false) ->
  dict_fill pairs d = d ++ pairs.
Proof.
  unfold dict_fill. induction pairs as [|[k v] pairs IH]; intros d Hnd Hfresh.
  - simpl. symmetry. apply app_nil_r.
  - simpl fold_left. inversion Hnd as [|? ? Hk Hnd']; subst.
    assert (Hset : dict_set k v d = d ++ [(k, v)]).
    { specialize (Hfresh k (or_introl eq_refl)). clear - Hfresh.
      unfold dict_mem in Hfresh.
      induction d as [|[k' v'] d IHd]; simpl in *; [reflexivity|].
      destruct (str_eqb k k'); [discriminate|]. rewrite IHd; [reflexivity|].
      exact Hfresh. }
    rewrite Hset, IH.
    + rewrite <- app_assoc. reflexivity.
    + exact Hnd'.
    + intros k0 Hk0. unfold dict_mem.
      assert (Hne : k0 <> k) by (intros ->; contradiction).
      rewrite <- Hset, dict_get_set_other by exact Hne.
      apply (Hfresh k0). right. exact Hk0.
Qed.

(* ================================================================== *)
(** ** The matcher finds exactly the matches of [Lang] *)

Section Engine.

Variable isalnum : char -> bool.

Local Abbreviation mtch := (mtch isalnum).
Local Abbreviation Lang := (Lang isalnum).

(** *** The fuel of a repetition is never exhausted *)

Lemma iter_fuel step g f1 : forall f2 s c,
  (length s <= f1)%nat -> (length s <= f2)%nat ->
  iter step g f1 s c = iter step g f2 s c.
Proof.
  induction f1 as [|f1 IH]; intros f2 s c H1 H2.
  - destruct s; [|simpl in H1; lia].
    destruct f2 as [|f2]; [reflexivity|]. simpl.
    rewrite flat_map_none; [destruct g; reflexivity|].
    intros x _. reflexivity.
  - destruct f2 as [|f2].
    + destruct s; [|simpl in H2; lia]. simpl.
      rewrite flat_map_none; [destruct g; reflexivity|].
      intros x _. reflexivity.
    + simpl.
      rewrite (flat_map_agree _ _ _
                 (fun sc : str * caps =>
                    if (length (fst sc) <? length s)%nat
                    then iter step g f2 (fst sc) (snd sc) else [])).
      * reflexivity.
      * intros sc _. destruct (length (fst sc) <? length s)%nat eqn:E.
        -- apply Nat.ltb_lt in E. apply IH; lia.
        -- reflexivity.
Qed.

Lemma mtch_star_unfold g a s c f :
  (length s <= f)%nat -> mtch (Star g a) s c = iter (mtch a) g f s c.
Proof. intros H. simpl. apply iter_fuel; lia. Qed.

(** *** Soundness: what the matcher consumes is in the language *)

Lemma iter_sound g a :
  (forall s c s' c', In (s', c') (mtch a s c) ->
                     exists x, s = x ++ s' /\ Lang a x) ->
  forall f s c s' c', In (s', c') (iter (mtch a) g f s c) ->
                      exists x, s = x ++ s' /\ Lang (Star g a) x.
Proof.
  intros Ha. induction f as [|f IH]; intros s c s' c' H.
  - simpl in H. destruct H as [H|[]]. inversion H; subst.
    exists []. split; [reflexivity|constructor].
  - simpl in H.
    assert (Hmore : In (s', c')
              (flat_map (fun sc : str * caps =>
                           if (length (fst sc) <? length s)%nat
                           then iter (mtch a) g f (fst sc) (snd sc) else [])
                        (mtch a s c)) ->
            exists x, s = x ++ s' /\ Lang (Star g a) x).
    { intros Hin. apply in_flat_map in Hin. destruct Hin as [[s1 c1] [H1 H2]].
      simpl in H2. destruct (length s1 <? length s)%nat; [|destruct H2].
      apply Ha in H1. destruct H1 as [x [-> Hx]].
      apply IH in H2. destruct H2 as [y [-> Hy]].
      exists (x ++ y). split; [apply app_assoc|]. constructor; assumption. }
    assert (Hhere : (s', c') = (s, c) ->
            exists x, s = x ++ s' /\ Lang (Star g a) x).
    { intros E. inversion E; subst. exists []. split; [reflexivity|constructor]. }
    destruct g.
    + apply in_app_or in H. destruct H as [H|[H|[]]]; auto.
    + destruct H as [H|H]; auto.
Qed.

Theorem mtch_sound r : forall s c s' c',
  In (s', c') (mtch r s c) -> exists x, s = x ++ s' /\ Lang r x.
Proof.
  induction r as [|p|l|a IHa b IHb|a IHa b IHb|n a IHa|g a IHa];
    intros s c s' c' H.
  - simpl in H. destruct H as [H|[]]. inversion H; subst.
    exists []. split; [reflexivity|constructor].
  - simpl in H. destruct s as [|x s]; [destruct H|].
    destruct (cset_mem isalnum p x) eqn:E; [|destruct H].
    destruct H as [H|[]]. inversion H; subst.
    exists [x]. split; [reflexivity|constructor; exact E].
  - simpl in H. destruct (startswith l s) eqn:E; [|destruct H].
    destruct H as [H|[]]. inversion H; subst.
    exists l. split; [apply startswith_split; exact E|constructor].
  - simpl in H. apply in_flat_map in H. destruct H as [[s1 c1] [H1 H2]].
    simpl in H2. apply IHa in H1. destruct H1 as [x [-> Hx]].
    apply IHb in H2. destruct H2 as [y [-> Hy]].
    exists (x ++ y). split; [apply app_assoc|constructor; assumption].
  - simpl in H. apply in_app_or in H. destruct H as [H|H].
    + apply IHa in H. destruct H as [x [-> Hx]].
      exists x. split; [reflexivity|apply L_alt_l; exact Hx].
    + apply IHb in H. destruct H as [x [-> Hx]].
      exists x. split; [reflexivity|apply L_alt_r; exact Hx].
  - simpl in H. apply in_map_iff in H. destruct H as [[s1 c1] [E H]].
    simpl in E. inversion E; subst s' c'. clear E.
    apply IHa in H. destruct H as [x [-> Hx]].
    exists x. split; [reflexivity|constructor; exact Hx].
  - simpl in H. eapply iter_sound; eauto.
Qed.

Corollary mtch_rest_length r s c s' c' :
  In (s', c') (mtch r s c) -> (length s' <= length s)%nat.
Proof.
  intros H. apply mtch_sound in H. destruct H as [x [-> _]].
  rewrite length_app. lia.
Qed.

(** *** Completeness: every match of [Lang] is among the results *)

Theorem mtch_complete r x :
  Lang r x -> forall s' c, exists c', In (s', c') (mtch r (x ++ s') c).
Proof.
  induction 1 as [|p x Hp|l|a b x y Ha IHa Hb IHb|a b x Ha IHa|a b x Hb IHb
                  |n a x Ha IHa|g a|g a x y Ha IHa Hs IHs]; intros s' c.
  - exists c. left. reflexivity.
  - exists c. simpl. rewrite Hp. left. reflexivity.
  - exists c. simpl. rewrite startswith_app, skipn_length_app. left. reflexivity.
  - destruct (IHa (y ++ s') c) as [c1 H1]. destruct (IHb s' c1) as [c2 H2].
    exists c2. rewrite <- app_assoc. simpl. apply in_flat_map.
    exists (y ++ s', c1). split; assumption.
  - destruct (IHa s' c) as [c1 H1]. exists c1. simpl.
    apply in_or_app. left. exact H1.
  - destruct (IHb s' c) as [c1 H1]. exists c1. simpl.
    apply in_or_app. right. exact H1.
  - destruct (IHa s' c) as [c1 H1].
    exists ((n, consumed (x ++ s') s') :: c1). simpl. apply in_map_iff.
    exists (s', c1). split; [reflexivity|exact H1].
  - exists c. simpl. destruct (length s') as [|f]; simpl.
    + left. reflexivity.
    + destruct g; [apply in_or_app; right|]; left; reflexivity.
  - destruct x as [|x0 x]; [apply IHs|].
    destruct (IHa (y ++ s') c) as [c1 H1]. destruct (IHs s' c1) as [c2 H2].
    exists c2. rewrite <- app_assoc.
    rewrite (@mtch_star_unfold g a _ c (S (length (x ++ y ++ s'))))
      by (simpl; lia).
    assert (Hin : In (s', c2)
              (flat_map (fun sc : str * caps =>
                 if (length (fst sc) <? length ((x0 :: x) ++ y ++ s'))%nat
                 then iter (mtch a) g (length (x ++ y ++ s')) (fst sc) (snd sc)
                 else [])
                 (mtch a ((x0 :: x) ++ y ++ s') c))).
    { apply in_flat_map. exists (y ++ s', c1). split; [exact H1|]. simpl.
      replace (length (y ++ s') <? S (length (x ++ y ++ s')))%nat with true.
      - rewrite <- (@mtch_star_unfold g a (y ++ s') c1); [exact H2|].
        rewrite !length_app. lia.
      - symmetry. apply Nat.ltb_lt. rewrite !length_app. lia. }
    simpl. simpl in Hin.
    destruct g; [apply in_or_app; left|right]; exact Hin.
Qed.

(** *** [re.search] and occurrence *)

Lemma match_here_none r s :
  match_here isalnum r false s = None <-> ~ starts_with_match isalnum r s.
Proof.
  unfold match_here. simpl.
  rewrite (@forallb_filter_id _ _ (mtch r s [])) by
    (apply forallb_forall; intros; reflexivity).
  split.
  - intros H [x [rest [-> Hx]]].
    destruct (mtch_complete r x Hx rest []) as [c' Hin].
    destruct (mtch r (x ++ rest) []); [destruct Hin|discriminate].
  - intros H. destruct (mtch r s []) as [|[s1 c1] l] eqn:E; [reflexivity|].
    exfalso. apply H.
    destruct (@mtch_sound r s [] s1 c1) as [x [-> Hx]].
    + rewrite E. left. reflexivity.
    + exists x, s1. split; [reflexivity|exact Hx].
Qed.

Theorem search_none r s :
  re_search isalnum r s = None <-> ~ occurs isalnum r s.
Proof.
  unfold re_search. induction s as [|x s IH].
  - simpl scan. destruct (match_here isalnum r false []) eqn:E.
    + split; [discriminate|]. intros H. exfalso.
      assert (E' : match_here isalnum r false [] <> None) by congruence.
      apply E'. apply match_here_none. intros Hs. apply H.
      exists [], []. split; [reflexivity|exact Hs].
    + split; [|reflexivity]. intros _ [pre [rest [E' Hs]]].
      symmetry in E'. apply app_eq_nil in E'. destruct E' as [_ ->].
      apply match_here_none in E. contradiction.
  - simpl scan. destruct (match_here isalnum r false (x :: s)) eqn:E.
    + split; [discriminate|]. intros H. exfalso.
      assert (E' : match_here isalnum r false (x :: s) <> None) by congruence.
      apply E'. apply match_here_none. intros Hs. apply H.
      exists [], (x :: s). split; [reflexivity|exact Hs].
    + rewrite IH. apply match_here_none in E. split.
      * intros H [pre [rest [E' Hs]]]. destruct pre as [|y pre].
        -- simpl in E'. subst rest. contradiction.
        -- simpl in E'. inversion E'; subst. apply H.
           exists pre, rest. split; [reflexivity|exact Hs].
      * intros H [pre [rest [-> Hs]]]. apply H.
        exists (x :: pre), rest. split; [reflexivity|exact Hs].
Qed.

End Engine.

(* ================================================================== *)
(** ** The first match, rule by rule

    [re.search] and [re.findall] keep the first way the matcher finds.
    These rules compute it on a text that is only partly known. *)

Section FirstMatch.

Variable isalnum : char -> bool.

Local Abbreviation run := (mtch isalnum).
Local Abbreviation first := (first_match isalnum).

Lemma first_eps s c : first Eps s c = Some (s, c).
Proof. reflexivity. Qed.

Lemma first_str l s c : first (Str l) (l ++ s) c = Some (s, c).
Proof.
  unfold first_match. simpl.
  rewrite startswith_app, skipn_length_app. reflexivity.
Qed.

Lemma first_chr p x s c :
  cset_mem isalnum p x = true -> first (Chr p) (x :: s) c = Some (s, c).
Proof. intros H. unfold first_match. simpl. rewrite H. reflexivity. Qed.

Lemma first_seq a b s c s1 c1 res :
  first a s c = Some (s1, c1) ->
  first b s1 c1 = Some res ->
  first (Seq a b) s c = Some res.
Proof.
  unfold first_match. simpl. intros Ha Hb.
  destruct (run a s c) as [|sc l]; [discriminate|].
  simpl in Ha. inversion Ha; subst sc. simpl.
  destruct (run b s1 c1) as [|sc' l']; [discriminate|].
  simpl in Hb. inversion Hb; subst. reflexivity.
Qed.

Lemma first_group n a s c s1 c1 :
  first a s c = Some (s1, c1) ->
  first (Group n a) s c = Some (s1, (n, consumed s s1) :: c1).
Proof.
  unfold first_match. simpl. intros Ha.
  destruct (run a s c) as [|sc l]; [discriminate|].
  simpl in Ha. inversion Ha; subst sc. reflexivity.
Qed.

Lemma first_alt_l a b s c res :
  first a s c = Some res -> first (Alt a b) s c = Some res.
Proof.
  unfold first_match. simpl. intros Ha.
  destruct (run a s c) as [|sc l]; [discriminate|]. exact Ha.
Qed.

Lemma first_alt_r a b s c res :
  run a s c = [] -> first b s c = Some res ->
  first (Alt a b) s c = Some res.
Proof.
  unfold first_match. simpl. intros Ha Hb. rewrite Ha. exact Hb.
Qed.

(** A lazy repetition first tries to match nothing. *)
Lemma first_star_lazy a s c : first (Star false a) s c = Some (s, c).
Proof.
  unfold first_match. simpl. destruct (length s); reflexivity.
Qed.

(** A greedy repetition ends where its body does not match. *)
Lemma first_star_stop a s c :
  run a s c = [] -> first (Star true a) s c = Some (s, c).
Proof.
  unfold first_match. simpl. intros Ha.
  destruct (length s); simpl; [reflexivity|]. rewrite Ha. reflexivity.
Qed.

(** A greedy repetition goes on where its body first matches. *)
Lemma first_star_step a s c s1 c1 res :
  first a s c = Some (s1, c1) ->
  (length s1 < length s)%nat ->
  first (Star true a) s1 c1 = Some res ->
  first (Star true a) s c = Some res.
Proof.
  unfold first_match. intros Ha Hlen Hs. simpl.
  assert (Hlt := proj2 (Nat.ltb_lt _ _) Hlen).
  destruct (length s) as [|f] eqn:E; [lia|]. simpl.
  destruct (run a s c) as [|sc l]; [discriminate|].
  simpl in Ha. inversion Ha; subst sc. simpl. rewrite E, Hlt.
  rewrite <- (@mtch_star_unfold isalnum true a s1 c1 f) by lia.
  destruct (run (Star true a) s1 c1) as [|sc' l']; [discriminate|].
  simpl in Hs. inversion Hs; subst. reflexivity.
Qed.

(** [p*] takes a run of characters of [p] whole. *)
Lemma first_star_class p v : forall s c,
  Forall (fun x => cset_mem isalnum p x = true) v ->
  stops isalnum p s ->
  first (Star true (Chr p)) (v ++ s) c = Some (s, c).
Proof.
  induction v as [|x v IH]; intros s c Hv Hs.
  - apply first_star_stop. simpl. destruct s as [|y s]; [reflexivity|].
    simpl in Hs. rewrite Hs. reflexivity.
  - inversion Hv as [|? ? Hx Hv']; subst.
    apply (@first_star_step (Chr p) ((x :: v) ++ s) c (v ++ s) c).
    + apply first_chr. exact Hx.
    + simpl. lia.
    + apply IH; assumption.
Qed.

(** [p+] takes a non-empty run of characters of [p] whole. *)
Lemma first_plus_class p v s c :
  v <> [] ->
  Forall (fun x => cset_mem isalnum p x = true) v ->
  stops isalnum p s ->
  first (Plus true (Chr p)) (v ++ s) c = Some (s, c).
Proof.
  intros Hne Hv Hs. destruct v as [|x v]; [contradiction|].
  inversion Hv as [|? ? Hx Hv']; subst.
  apply (@first_seq (Chr p) (Star true (Chr p)) _ c (v ++ s) c).
  - apply first_chr. exact Hx.
  - apply first_star_class; assumption.
Qed.

(** A pattern that begins with a literal fails where the literal is not. *)
Lemma mtch_str_fail l b s c :
  startswith l s = false -> run (Seq (Str l) b) s c = [].
Proof. intros H. simpl. rewrite H. reflexivity. Qed.

End FirstMatch.

(* ================================================================== *)
(** ** [re.search] and [re.finditer] *)

Section Search.

Variable isalnum : char -> bool.

Local Abbreviation here := (match_here isalnum).
Local Abbreviation scan_ := (scan isalnum).
Local Abbreviation finditer_ := (finditer isalnum).

Lemma filter_all (A : Type) (l : list A) : filter (fun _ => true) l = l.
Proof. induction l as [|x l IH]; simpl; [reflexivity|]. rewrite IH. reflexivity. Qed.

Lemma match_here_first r s s' c' :
  first_match isalnum r s [] = Some (s', c') ->
  here r false s = Some {| m_from := s; m_rest := s'; m_caps := c' |}.
Proof.
  unfold first_match, match_here. simpl. rewrite filter_all.
  destruct (mtch isalnum r s []) as [|sc l]; [discriminate|].
  simpl. intros H. inversion H; subst. reflexivity.
Qed.

Lemma match_here_fail r adv s : mtch isalnum r s [] = [] -> here r adv s = None.
Proof. intros H. unfold match_here. rewrite H. reflexivity. Qed.

Lemma match_here_size r adv s m :
  here r adv s = Some m ->
  m_from m = s /\ (length (m_rest m) <= length s)%nat /\
  (adv = true -> (length (m_rest m) < length s)%nat).
Proof.
  unfold match_here.
  destruct (filter _ (mtch isalnum r s [])) as [|sc l] eqn:E; [discriminate|].
  intros H. inversion H; subst m; simpl. clear H.
  assert (Hin : In sc (filter
            (fun sc : str * caps =>
               negb adv || (length (fst sc) <? length s)%nat)
            (mtch isalnum r s []))) by (rewrite E; left; reflexivity).
  apply filter_In in Hin. destruct Hin as [Hin Hp]. destruct sc as [s1 c1].
  split; [reflexivity|]. split.
  - eapply mtch_rest_length. exact Hin.
  - intros ->. simpl in Hp. apply Nat.ltb_lt in Hp. exact Hp.
Qed.

Lemma scan_adv_false r s : scan_adv isalnum r false s = scan_ r s.
Proof. destruct s; reflexivity. Qed.

Lemma scan_here r s m : here r false s = Some m -> scan_ r s = Some m.
Proof. intros H. destruct s; simpl; rewrite H; reflexivity. Qed.

Lemma scan_next r x s : here r false (x :: s) = None -> scan_ r (x :: s) = scan_ r s.
Proof. intros H. simpl. rewrite H. reflexivity. Qed.

(** The search passes over a prefix in which no match begins. *)
Lemma scan_skip r pre : forall s,
  (forall k, (k < length pre)%nat -> here r false (skipn k (pre ++ s)) = None) ->
  scan_ r (pre ++ s) = scan_ r s.
Proof.
  induction pre as [|x pre IH]; intros s H; [reflexivity|].
  simpl app. rewrite scan_next.
  - apply IH. intros k Hk. apply (H (S k)). simpl. lia.
  - apply (H O). simpl. lia.
Qed.

Lemma scan_size r s : forall m,
  scan_ r s = Some m ->
  (length (m_rest m) <= length (m_from m))%nat /\
  (length (m_from m) <= length s)%nat.
Proof.
  induction s as [|x s IH]; intros m H; simpl in H.
  - destruct (here r false []) eqn:E; [|discriminate].
    inversion H; subst. apply match_here_size in E.
    destruct E as [-> [E _]]. split; [exact E|lia].
  - destruct (here r false (x :: s)) eqn:E.
    + inversion H; subst. apply match_here_size in E.
      destruct E as [-> [E _]]. split; [exact E|lia].
    + apply IH in H. simpl. lia.
Qed.

Lemma rounds_decrease r adv s m :
  scan_adv isalnum r adv s = Some m ->
  (rounds (is_empty_match m) (m_rest m) < rounds adv s)%nat.
Proof.
  unfold scan_adv, rounds, is_empty_match. intros H.
  destruct (here r adv s) eqn:E.
  - inversion H; subst. apply match_here_size in E.
    destruct E as [E1 [E2 E3]]. rewrite E1.
    destruct (length s =? length (m_rest m))%nat eqn:Q.
    + apply Nat.eqb_eq in Q. destruct adv; [|lia].
      specialize (E3 eq_refl). lia.
    + apply Nat.eqb_neq in Q. destruct adv; lia.
  - destruct s as [|x s]; [discriminate|]. apply scan_size in H. simpl.
    destruct (length (m_from m) =? length (m_rest m))%nat; destruct adv; lia.
Qed.

(** The fuel of [finditer] is never exhausted. *)
Lemma finditer_fuel_enough r f1 : forall f2 adv s,
  (rounds adv s <= f1)%nat -> (rounds adv s <= f2)%nat ->
  finditer_fuel isalnum f1 r adv s = finditer_fuel isalnum f2 r adv s.
Proof.
  induction f1 as [|f1 IH]; intros f2 adv s H1 H2.
  - unfold rounds in H1. destruct adv; lia.
  - destruct f2 as [|f2]; [unfold rounds in H2; destruct adv; lia|].
    simpl. destruct (scan_adv isalnum r adv s) as [m|] eqn:E; [|reflexivity].
    f_equal. apply rounds_decrease in E. apply IH; lia.
Qed.

Lemma finditer_fuel_S f r adv s :
  finditer_fuel isalnum (S f) r adv s =
  match scan_adv isalnum r adv s with
  | None => []
  | Some m => m :: finditer_fuel isalnum f r (is_empty_match m) (m_rest m)
  end.
Proof. reflexivity. Qed.

Lemma finditer_unfold r s :
  finditer_ r s =
  match scan_ r s with
  | None => []
  | Some m =>
      m :: finditer_fuel isalnum (rounds (is_empty_match m) (m_rest m)) r
             (is_empty_match m) (m_rest m)
  end.
Proof.
  unfold finditer.
  replace (2 * length s + 2)%nat with (S (2 * length s + 1)) by lia.
  rewrite finditer_fuel_S, scan_adv_false.
  destruct (scan_ r s) as [m|] eqn:E; [|reflexivity]. f_equal.
  rewrite <- scan_adv_false in E. apply rounds_decrease in E.
  apply finditer_fuel_enough; unfold rounds in *; lia.
Qed.

Lemma finditer_none r s : scan_ r s = None -> finditer_ r s = [].
Proof. intros H. rewrite finditer_unfold, H. reflexivity. Qed.

(** After a match that is not empty, [finditer] goes on from its end. *)
Lemma finditer_cons r s m :
  scan_ r s = Some m -> is_empty_match m = false ->
  finditer_ r s = m :: finditer_ r (m_rest m).
Proof.
  intros H He. rewrite finditer_unfold, H, He. reflexivity.
Qed.

(** Where no match begins, [finditer] moves on by one character. *)
Lemma finditer_next r x s :
  here r false (x :: s) = None -> finditer_ r (x :: s) = finditer_ r s.
Proof.
  intros H. rewrite !finditer_unfold, (@scan_next r x s H). reflexivity.
Qed.

Lemma finditer_skip r pre : forall s,
  (forall k, (k < length pre)%nat -> here r false (skipn k (pre ++ s)) = None) ->
  finditer_ r (pre ++ s) = finditer_ r s.
Proof.
  induction pre as [|x pre IH]; intros s H; [reflexivity|].
  simpl app. rewrite finditer_next.
  - apply IH. intros k Hk. apply (H (S k)). simpl. lia.
  - apply (H O). simpl. lia.
Qed.

End Search.

(* ================================================================== *)
(** ** What the groups of a match hold *)

Section Captures.

Variable isalnum : char -> bool.

Local Abbreviation run := (mtch isalnum).

(** A property of the groups that each round of a repetition keeps is
    kept by the repetition. *)
Lemma iter_rel (R : caps -> caps -> Prop) step g :
  (forall c, R c c) ->
  (forall c1 c2 c3, R c1 c2 -> R c2 c3 -> R c1 c3) ->
  (forall s c s' c', In (s', c') (step s c) -> R c c') ->
  forall f s c s' c', In (s', c') (iter step g f s c) -> R c c'.
Proof.
  intros Hrefl Htrans Hstep. induction f as [|f IH]; intros s c s' c' H.
  - simpl in H. destruct H as [H|[]]. inversion H; subst. apply Hrefl.
  - simpl in H.
    assert (Hmore : In (s', c')
              (flat_map (fun sc : str * caps =>
                           if (length (fst sc) <? length s)%nat
                           then iter step g f (fst sc) (snd sc) else [])
                        (step s c)) -> R c c').
    { intros Hin. apply in_flat_map in Hin. destruct Hin as [[s1 c1] [H1 H2]].
      simpl in H2. destruct (length s1 <? length s)%nat; [|destruct H2].
      apply Htrans with c1; [eapply Hstep; exact H1|eapply IH; exact H2]. }
    assert (Hhere : (s', c') = (s, c) -> R c c').
    { intros E. inversion E; subst. apply Hrefl. }
    destruct g.
    + apply in_app_or in H. destruct H as [H|[H|[]]]; auto.
    + destruct H as [H|H]; auto.
Qed.

(** A group that is set stays set. *)
Lemma caps_keep n r : forall s c s' c',
  In (s', c') (run r s c) -> getcap n c <> None -> getcap n c' <> None.
Proof.
  induction r as [|p|l|a IHa b IHb|a IHa b IHb|m a IHa|g a IHa];
    intros s c s' c' H Hc.
  - simpl in H. destruct H as [H|[]]. inversion H; subst. exact Hc.
  - simpl in H. destruct s as [|x s]; [destruct H|].
    destruct (cset_mem isalnum p x); [|destruct H].
    destruct H as [H|[]]. inversion H; subst. exact Hc.
  - simpl in H. destruct (startswith l s); [|destruct H].
    destruct H as [H|[]]. inversion H; subst. exact Hc.
  - simpl in H. apply in_flat_map in H. destruct H as [[s1 c1] [H1 H2]].
    simpl in H2. eapply IHb; [exact H2|]. eapply IHa; [exact H1|exact Hc].
  - simpl in H. apply in_app_or in H. destruct H as [H|H].
    + eapply IHa; [exact H|exact Hc].
    + eapply IHb; [exact H|exact Hc].
  - simpl in H. apply in_map_iff in H. destruct H as [[s1 c1] [E H]].
    simpl in E. inversion E; subst s' c'. clear E. simpl.
    destruct (Nat.eqb n m); [discriminate|]. eapply IHa; [exact H|exact Hc].
  - simpl in H. revert Hc.
    apply (@iter_rel (fun c c' => getcap n c <> None -> getcap n c' <> None)
             (run a) g) with (f := length s) (s := s) (s' := s').
    + intros c0 H0. exact H0.
    + intros c1 c2 c3 H12 H23 H1. apply H23, H12, H1.
    + intros s0 c0 s0' c0' H0. eapply IHa. exact H0.
    + exact H.
Qed.

(** Every match sets the groups of [sets_group]. *)
Lemma caps_set n r : forall s c s' c',
  In (s', c') (run r s c) -> sets_group r n = true -> getcap n c' <> None.
Proof.
  induction r as [|p|l|a IHa b IHb|a IHa b IHb|m a IHa|g a IHa];
    intros s c s' c' H Hs; simpl in Hs; try discriminate.
  - simpl in H. apply in_flat_map in H. destruct H as [[s1 c1] [H1 H2]].
    simpl in H2. apply orb_prop in Hs. destruct Hs as [Hs|Hs].
    + eapply caps_keep; [exact H2|]. eapply IHa; [exact H1|exact Hs].
    + eapply IHb; [exact H2|exact Hs].
  - apply andb_prop in Hs. destruct Hs as [Hs1 Hs2].
    simpl in H. apply in_app_or in H. destruct H as [H|H].
    + eapply IHa; [exact H|exact Hs1].
    + eapply IHb; [exact H|exact Hs2].
  - simpl in H. apply in_map_iff in H. destruct H as [[s1 c1] [E H]].
    simpl in E. inversion E; subst s' c'. clear E. simpl.
    destruct (Nat.eqb n m) eqn:Q; [discriminate|].
    simpl in Hs. eapply IHa; [exact H|exact Hs].
Qed.

(** A group holds a string matched by the body of a group with its
    number, or what it held before. *)
Lemma caps_sound n r : forall s c s' c' v,
  In (s', c') (run r s c) -> getcap n c' = Some v ->
  getcap n c = Some v \/ group_lang isalnum r n v.
Proof.
  induction r as [|p|l|a IHa b IHb|a IHa b IHb|m a IHa|g a IHa];
    intros s c s' c' v H Hv.
  - simpl in H. destruct H as [H|[]]. inversion H; subst. left. exact Hv.
  - simpl in H. destruct s as [|x s]; [destruct H|].
    destruct (cset_mem isalnum p x); [|destruct H].
    destruct H as [H|[]]. inversion H; subst. left. exact Hv.
  - simpl in H. destruct (startswith l s); [|destruct H].
    destruct H as [H|[]]. inversion H; subst. left. exact Hv.
  - simpl in H. apply in_flat_map in H. destruct H as [[s1 c1] [H1 H2]].
    simpl in H2. destruct (IHb _ _ _ _ _ H2 Hv) as [Hb|Hb].
    + destruct (IHa _ _ _ _ _ H1 Hb) as [Ha|Ha].
      * left. exact Ha.
      * right. left. exact Ha.
    + right. right. exact Hb.
  - simpl in H. apply in_app_or in H. destruct H as [H|H].
    + destruct (IHa _ _ _ _ _ H Hv) as [Ha|Ha]; [left|right; left]; exact Ha.
    + destruct (IHb _ _ _ _ _ H Hv) as [Hb|Hb]; [left|right; right]; exact Hb.
  - simpl in H. apply in_map_iff in H. destruct H as [[s1 c1] [E H]].
    simpl in E. inversion E; subst s' c'. clear E. simpl in Hv.
    destruct (Nat.eqb n m) eqn:Q.
    + apply Nat.eqb_eq in Q. subst m. inversion Hv; subst v. clear Hv.
      right. left. split; [reflexivity|].
      destruct (mtch_sound _ _ _ _ _ _ H) as [x [-> Hx]].
      rewrite consumed_app. exact Hx.
    + destruct (IHa _ _ _ _ _ H Hv) as [Ha|Ha]; [left|right; right]; exact Ha.
  - simpl in H. revert v Hv.
    apply (@iter_rel
             (fun c c' => forall v, getcap n c' = Some v ->
                          getcap n c = Some v \/ group_lang isalnum a n v)
             (run a) g) with (f := length s) (s := s) (s' := s').
    + intros c0 v0 H0. left. exact H0.
    + intros c1 c2 c3 H12 H23 v0 H0.
      destruct (H23 _ H0) as [H2|H2]; [apply H12; exact H2|right; exact H2].
    + intros s0 c0 s0' c0' H0 v0 Hv0. eapply IHa; eassumption.
    + exact H.
Qed.

(** The groups of a match found by [re.search]. *)
Lemma scan_groups r n : forall s m,
  scan isalnum r s = Some m ->
  (sets_group r n = true -> getcap n (m_caps m) <> None) /\
  (forall v, getcap n (m_caps m) = Some v -> group_lang isalnum r n v).
Proof.
  assert (Hhere : forall s m, match_here isalnum r false s = Some m ->
            (sets_group r n = true -> getcap n (m_caps m) <> None) /\
            (forall v, getcap n (m_caps m) = Some v ->
                       group_lang isalnum r n v)).
  { intros s m. unfold match_here. simpl. rewrite filter_all.
    destruct (run r s []) as [|[s1 c1] l] eqn:E; [discriminate|].
    intros H. inversion H; subst m. simpl. clear H.
    assert (Hin : In (s1, c1) (run r s [])) by (rewrite E; left; reflexivity).
    split.
    - intros Hs. eapply caps_set; eassumption.
    - intros v Hv. destruct (@caps_sound n r _ _ _ _ _ Hin Hv) as [H|H];
        [discriminate|exact H]. }
  induction s as [|x s IH]; intros m H; simpl in H.
  - destruct (match_here isalnum r false []) eqn:E; [|discriminate].
    inversion H; subst. eapply Hhere. exact E.
  - destruct (match_here isalnum r false (x :: s)) eqn:E.
    + inversion H; subst. eapply Hhere. exact E.
    + apply IH. exact H.
Qed.

(** *** Groups are parts of the text *)

Lemma iter_inv (I : str -> caps -> Prop) step g :
  (forall s c s' c', I s c -> In (s', c') (step s c) -> I s' c') ->
  forall f s c s' c', I s c -> In (s', c') (iter step g f s c) -> I s' c'.
Proof.
  intros Hstep. induction f as [|f IH]; intros s c s' c' Hi H.
  - simpl in H. destruct H as [H|[]]. inversion H; subst. exact Hi.
  - simpl in H.
    assert (Hmore : In (s', c')
              (flat_map (fun sc : str * caps =>
                           if (length (fst sc) <? length s)%nat
                           then iter step g f (fst sc) (snd sc) else [])
                        (step s c)) -> I s' c').
    { intros Hin. apply in_flat_map in Hin. destruct Hin as [[s1 c1] [H1 H2]].
      simpl in H2. destruct (length s1 <? length s)%nat; [|destruct H2].
      eapply IH; [|exact H2]. eapply Hstep; [exact Hi|exact H1]. }
    assert (Hhere : (s', c') = (s, c) -> I s' c').
    { intros E. inversion E; subst. exact Hi. }
    destruct g.
    + apply in_app_or in H. destruct H as [H|[H|[]]]; auto.
    + destruct H as [H|H]; auto.
Qed.

Lemma mtch_within text r : forall s c s' c',
  within text s c -> In (s', c') (run r s c) -> within text s' c'.
Proof.
  assert (Hrest : forall r s c s' c', within text s c ->
            In (s', c') (run r s c) -> forall x, In x s' -> In x text).
  { intros r0 s c s' c' [Hs _] H x Hx. apply Hs.
    apply mtch_sound in H. destruct H as [y [-> _]].
    apply in_or_app. right. exact Hx. }
  induction r as [|p|l|a IHa b IHb|a IHa b IHb|m a IHa|g a IHa];
    intros s c s' c' Hw H.
  - simpl in H. destruct H as [H|[]]. inversion H; subst. exact Hw.
  - split; [eapply Hrest; eassumption|].
    simpl in H. destruct s as [|x s]; [destruct H|].
    destruct (cset_mem isalnum p x); [|destruct H].
    destruct H as [H|[]]. inversion H; subst. apply Hw.
  - split; [eapply Hrest; eassumption|].
    simpl in H. destruct (startswith l s); [|destruct H].
    destruct H as [H|[]]. inversion H; subst. apply Hw.
  - simpl in H. apply in_flat_map in H. destruct H as [[s1 c1] [H1 H2]].
    simpl in H2. eapply IHb; [|exact H2]. eapply IHa; [exact Hw|exact H1].
  - simpl in H. apply in_app_or in H. destruct H as [H|H].
    + eapply IHa; eassumption.
    + eapply IHb; eassumption.
  - split; [eapply Hrest; eassumption|].
    simpl in H. apply in_map_iff in H. destruct H as [[s1 c1] [E H]].
    simpl in E. inversion E; subst s' c'. clear E.
    intros n v Hv x Hx. simpl in Hv. destruct (Nat.eqb n m).
    + inversion Hv; subst v. clear Hv. apply Hw.
      destruct (mtch_sound _ _ _ _ _ _ H) as [y [-> _]].
      rewrite consumed_app in Hx. apply in_or_app. left. exact Hx.
    + destruct (IHa _ _ _ _ Hw H) as [_ Hc]. eapply Hc; eassumption.
  - simpl in H. eapply (@iter_inv (within text) (run a) g); [|exact Hw|exact H].
    intros s0 c0 s0' c0' H0 Hin. eapply IHa; eassumption.
Qed.

(** What a group of the match found by [re.search] holds is made of
    characters of the text. *)
Lemma group_incl r n : forall text m x,
  scan isalnum r text = Some m -> In x (group n m) -> In x text.
Proof.
  assert (Hhere : forall text m x, match_here isalnum r false text = Some m ->
            In x (group n m) -> In x text).
  { intros text m x. unfold match_here. simpl. rewrite filter_all.
    destruct (run r text []) as [|[s1 c1] l] eqn:E; [discriminate|].
    intros H. inversion H; subst m. unfold group. simpl. clear H.
    destruct (getcap n c1) as [v|] eqn:Ev; [|intros []].
    assert (Hin : In (s1, c1) (run r text [])) by (rewrite E; left; reflexivity).
    assert (Hw : within text text []).
    { split; [auto|]. intros k w Hk. discriminate. }
    destruct (@mtch_within text r text [] s1 c1 Hw Hin) as [_ Hc].
    eapply Hc. exact Ev. }
  induction text as [|y text IH]; intros m x H Hx; simpl in H.
  - destruct (match_here isalnum r false []) eqn:E; [|discriminate].
    inversion H; subst. apply (Hhere [] m); assumption.
  - destruct (match_here isalnum r false (y :: text)) eqn:E.
    + inversion H; subst. apply (Hhere (y :: text) m); assumption.
    + right. eapply IH; eassumption.
Qed.

End Captures.

(* ================================================================== *)
(** ** Reading the patterns *)

Section Patterns.

Variable isalnum : char -> bool.

Local Abbreviation Lang := (Lang isalnum).
Local Abbreviation occurs := (occurs isalnum).

Lemma occurs_tail a b text : occurs (Seq a b) text -> occurs b text.
Proof.
  intros [pre [rest [-> [x [rest' [-> H]]]]]].
  inversion H as [| | |? ? x1 x2 Ha Hb| | | | |]; subst.
  exists (pre ++ x1), (x2 ++ rest'). split.
  - rewrite <- !app_assoc. reflexivity.
  - exists x2, rest'. split; [reflexivity|exact Hb].
Qed.

Lemma occurs_literal l b text : occurs (Seq (Str l) b) text -> substring l text.
Proof.
  intros [pre [rest [-> [x [rest' [-> H]]]]]].
  inversion H as [| | |? ? x1 x2 Ha Hb| | | | |]; subst.
  inversion Ha; subst.
  exists pre, (x2 ++ rest'). rewrite <- !app_assoc. reflexivity.
Qed.

Lemma count_occ_quote_app (a b : str) :
  count_occ N.eq_dec (a ++ b) quote =
  (count_occ N.eq_dec a quote + count_occ N.eq_dec b quote)%nat.
Proof. apply count_occ_app. Qed.

Lemma lang_min_quotes r x :
  Lang r x -> (min_quotes r <= count_occ N.eq_dec x quote)%nat.
Proof.
  induction 1; simpl min_quotes; try rewrite count_occ_quote_app; try lia.
Qed.

Lemma occurs_min_quotes r text :
  occurs r text -> (min_quotes r <= count_occ N.eq_dec text quote)%nat.
Proof.
  intros [pre [rest [-> [x [rest' [-> H]]]]]].
  apply lang_min_quotes in H. rewrite !count_occ_quote_app. lia.
Qed.

(** [[^']+] matches the quotable values, [[^']*] the strings without a
    quote, [\s+] the non-empty runs of white space. *)

Lemma notq_mem x : cset_mem isalnum (CSet true [ILit quote]) x = negb (x =? quote).
Proof. simpl. rewrite orb_false_r. reflexivity. Qed.

Lemma ws_mem x : cset_mem isalnum (CSet false [ISpace]) x = is_space x.
Proof. simpl. rewrite orb_false_r. reflexivity. Qed.

Lemma lang_star_chr g p x :
  Lang (Star g (Chr p)) x <-> Forall (fun c => cset_mem isalnum p c = true) x.
Proof.
  split.
  - intros H. remember (Star g (Chr p)) as r eqn:Er.
    induction H as [| | | | | | | |g' a x y Ha _ Hs IHs]; try discriminate.
    + constructor.
    + inversion Er; subst. inversion Ha; subst.
      constructor; [assumption|]. apply IHs. reflexivity.
  - induction 1 as [|c x Hc Hx IH].
    + constructor.
    + apply (@L_star_more isalnum g (Chr p) [c] x); [constructor; exact Hc|exact IH].
Qed.

Lemma lang_plus_chr g p x :
  Lang (Plus g (Chr p)) x <->
  x <> [] /\ Forall (fun c => cset_mem isalnum p c = true) x.
Proof.
  unfold Plus. split.
  - intros H. inversion H as [| | |? ? x1 x2 Ha Hb| | | | |]; subst.
    inversion Ha; subst. apply lang_star_chr in Hb. split; [discriminate|].
    constructor; assumption.
  - intros [Hne H]. destruct x as [|c x]; [contradiction|].
    inversion H; subst.
    apply (@L_seq isalnum (Chr p) (Star g (Chr p)) [c] x).
    + constructor. assumption.
    + apply lang_star_chr. assumption.
Qed.

Lemma forall_notq x :
  Forall (fun c => cset_mem isalnum (CSet true [ILit quote]) c = true) x <->
  ~ In quote x.
Proof.
  rewrite Forall_forall. split.
  - intros H Hin. specialize (H _ Hin). rewrite notq_mem, N.eqb_refl in H.
    discriminate.
  - intros H c Hc. rewrite notq_mem. destruct (c =? quote) eqn:E; [|reflexivity].
    apply N.eqb_eq in E. subst c. contradiction.
Qed.

Lemma forall_ws x :
  Forall (fun c => cset_mem isalnum (CSet false [ISpace]) c = true) x <->
  all_space x.
Proof.
  rewrite Forall_forall. unfold all_space. split; intros H c Hc.
  - rewrite <- ws_mem. apply H. exact Hc.
  - rewrite ws_mem. apply H. exact Hc.
Qed.

Lemma lang_quotable g v : Lang (Plus g notq) v <-> quotable v.
Proof. unfold notq, quotable. rewrite lang_plus_chr, forall_notq. reflexivity. Qed.

Lemma lang_spaces g w : Lang (Plus g ws) w <-> w <> [] /\ all_space w.
Proof. unfold ws. rewrite lang_plus_chr, forall_ws. reflexivity. Qed.

End Patterns.

(* ================================================================== *)
(** ** The fields of a parsed record *)

Section Fields.

Variable isalnum : char -> bool.

Local Abbreviation parse := (parse_aapt2_output isalnum).
Local Abbreviation search := (re_search isalnum).
Local Abbreviation occurs := (occurs isalnum).

Lemma assign_group_none r text n :
  ~ occurs r text -> assign_group (search r text) n [] = [].
Proof. intros H. apply search_none in H. rewrite H. reflexivity. Qed.

Lemma findall1_none r text : ~ occurs r text -> findall1 isalnum r text = [].
Proof.
  intros H. apply search_none in H. unfold findall1.
  rewrite finditer_none; [reflexivity|exact H].
Qed.

Lemma findall2_none r text : ~ occurs r text -> findall2 isalnum r text = [].
Proof.
  intros H. apply search_none in H. unfold findall2.
  rewrite finditer_none; [reflexivity|exact H].
Qed.

(** A group whose body is [[^']+] holds a quotable value when the match
    sets it. *)
Lemma group_quotable r n text m :
  search r text = Some m ->
  sets_group r n = true ->
  (forall v, group_lang isalnum r n v -> quotable v) ->
  quotable (group n m).
Proof.
  intros Hm Hs Hq. destruct (@scan_groups isalnum r n text m Hm) as [H1 H2].
  unfold group. destruct (getcap n (m_caps m)) as [v|] eqn:E.
  - apply Hq, H2. reflexivity.
  - exfalso. apply (H1 Hs). reflexivity.
Qed.

End Fields.

(* ================================================================== *)
(** ** The package line *)

Ltac lang_inv :=
  repeat match goal with
    | H : Lang _ (Seq ws (Star _ ws)) _ |- _ => apply lang_spaces in H
    | H : Lang _ (Seq notq (Star _ notq)) _ |- _ => apply lang_quotable in H
    | H : Lang _ (Seq _ _) _ |- _ => inversion H; subst; clear H
    | H : Lang _ (Str _) _ |- _ => inversion H; subst; clear H
    | H : Lang _ (Group _ _) _ |- _ => inversion H; subst; clear H
    end.

Section PackageLine.

Variable isalnum : char -> bool.

Local Abbreviation parse := (parse_aapt2_output isalnum).
Local Abbreviation search := (re_search isalnum).
Local Abbreviation occurs := (occurs isalnum).

Lemma occurs_package text : occurs re_package text <-> package_line text.
Proof.
  unfold re_package, lit, Plus. cbn [cat]. split.
  - intros [pre [rest [-> [x [rest' [-> H]]]]]]. lang_inv.
    match goal with
    | |- package_line (pre ++ (_ ++ ?w1 ++ _ ++ ?v1 ++ _ ++ ?w2 ++ _ ++ ?v2
                                 ++ _ ++ ?w3 ++ _ ++ ?v3 ++ _ ++ ?t) ++ rest') =>
        exists pre, w1, v1, w2, v2, w3, v3, (t ++ rest')
    end.
    rewrite <- !app_assoc. unfold spaces.
    split; [reflexivity|tauto].
  - intros [pre [w1 [v1 [w2 [v2 [w3 [v3 [post [-> H]]]]]]]]].
    destruct H as [Hw1 [Hw2 [Hw3 [Hv1 [Hv2 Hv3]]]]].
    exists pre, (of_string "package:" ++ w1 ++ of_string "name='" ++ v1
                 ++ of_string "'" ++ w2 ++ of_string "versionCode='" ++ v2
                 ++ of_string "'" ++ w3 ++ of_string "versionName='" ++ v3
                 ++ of_string "'" ++ post).
    split; [reflexivity|].
    exists (of_string "package:" ++ w1 ++ of_string "name='" ++ v1
            ++ of_string "'" ++ w2 ++ of_string "versionCode='" ++ v2
            ++ of_string "'" ++ w3 ++ of_string "versionName='" ++ v3
            ++ of_string "'" ++ []), post.
    split; [rewrite <- !app_assoc; reflexivity|].
    repeat first
      [ apply L_seq | apply L_str | apply L_group | apply L_star_nil
      | apply (proj2 (lang_spaces isalnum true _)); assumption
      | apply (proj2 (lang_quotable isalnum true _)); assumption ].
Qed.

End PackageLine.

Section SearchSound.

Variable isalnum : char -> bool.

(** What [re.search] returns is a match: the text is a prefix, then the
    matched part, then the rest. *)
Lemma search_some r : forall s m,
  re_search isalnum r s = Some m ->
  (exists pre, s = pre ++ m_from m /\
               no_match_before isalnum r (length pre) s) /\
  m_from m = m_whole m ++ m_rest m /\
  Lang isalnum r (m_whole m).
Proof.
  assert (Hhere : forall s m, match_here isalnum r false s = Some m ->
            m_from m = s /\ m_from m = m_whole m ++ m_rest m /\
            Lang isalnum r (m_whole m)).
  { intros s m. unfold match_here. simpl. rewrite filter_all.
    destruct (mtch isalnum r s []) as [|[s1 c1] l] eqn:E; [discriminate|].
    intros H. inversion H; subst m. unfold m_whole. simpl. clear H.
    destruct (@mtch_sound isalnum r s [] s1 c1) as [x [-> Hx]].
    - rewrite E. left. reflexivity.
    - rewrite consumed_app. auto. }
  unfold re_search. induction s as [|x s IH]; intros m H; simpl in H.
  - destruct (match_here isalnum r false []) eqn:E; [|discriminate].
    inversion H; subst. apply Hhere in E. destruct E as [E1 E2].
    split; [|exact E2]. exists []. split; [symmetry; exact E1|].
    intros k Hk. simpl in Hk. lia.
  - destruct (match_here isalnum r false (x :: s)) eqn:E.
    + inversion H; subst. apply Hhere in E. destruct E as [E1 E2].
      split; [|exact E2]. exists []. split; [symmetry; exact E1|].
      intros k Hk. simpl in Hk. lia.
    + destruct (IH _ H) as [[pre [Hpre Hno]] H2]. split; [|exact H2].
      exists (x :: pre). split; [simpl; f_equal; exact Hpre|].
      intros [|k] Hk.
      * simpl. apply match_here_none. exact E.
      * simpl. apply Hno. simpl in Hk. lia.
Qed.

Lemma search_some_occurs r s m :
  re_search isalnum r s = Some m -> occurs isalnum r s.
Proof.
  intros H. apply search_some in H. destruct H as [[pre [Hp _]] [Hw HL]].
  exists pre, (m_from m). split; [exact Hp|].
  exists (m_whole m), (m_rest m). split; assumption.
Qed.

(** Where the first match begins, [re.search] finds what the matcher
    finds first there. *)
Lemma search_first r pre s s' c' :
  no_match_before isalnum r (length pre) (pre ++ s) ->
  first_match isalnum r s [] = Some (s', c') ->
  re_search isalnum r (pre ++ s)
  = Some {| m_from := s; m_rest := s'; m_caps := c' |}.
Proof.
  intros Hno Hf. unfold re_search. rewrite scan_skip.
  - apply scan_here, match_here_first. exact Hf.
  - intros k Hk. apply match_here_none. apply Hno. exact Hk.
Qed.

End SearchSound.

(* ================================================================== *)
(** * The claims *)

(** ** Single values: the package line, the SDK levels, the defaults *)

Section Identity.

Variable isalnum : char -> bool.

Local Abbreviation parse := (parse_aapt2_output isalnum).
Local Abbreviation search := (re_search isalnum).
Local Abbreviation occurs := (occurs isalnum).

Lemma package_groups_quotable n v :
  group_lang isalnum re_package n v -> quotable v.
Proof.
  unfold re_package, lit, Plus, ws, notq. cbn [cat group_lang]. intros H.
  repeat match type of H with
         | _ \/ _ => destruct H as [H|H]
         | False => destruct H
         | _ /\ _ => destruct H as [_ H]
         end; apply (proj1 (lang_quotable isalnum true v) H).
Qed.

(** C10: [package_name], [version_code] and [version_name] are set
    together or not at all.  Either the text holds a package line (the
    attributes [name], [versionCode], [versionName] in this order), the
    three fields are the three groups of one match and none is empty; or
    it holds none and the three fields are empty.  A text without a
    [versionCode] or a [versionName] attribute, such as [package: name='X']
    alone, leaves [package_name] empty. *)
Theorem package_fields_all_or_nothing (text : str) :
  let i := parse text in
  ((package_line text /\
    (exists m, search re_package text = Some m /\
               package_name i = group 1 m /\
               version_code i = group 2 m /\
               version_name i = group 3 m) /\
    quotable (package_name i) /\ quotable (version_code i) /\
    quotable (version_name i))
   \/
   (~ package_line text /\
    package_name i = [] /\ version_code i = [] /\ version_name i = []))
  /\ (~ substring (of_string "versionCode='") text -> package_name i = [])
  /\ (~ substring (of_string "versionName='") text -> package_name i = [])
  /\ (forall x, ~ In quote x ->
        package_name (parse (of_string "package: name='" ++ x ++ of_string "'"))
        = []).
Proof.
  assert (Hfields : forall t,
    package_name (parse t) = assign_group (search re_package t) 1 [] /\
    version_code (parse t) = assign_group (search re_package t) 2 [] /\
    version_name (parse t) = assign_group (search re_package t) 3 [])
    by (intros t; repeat split).
  cbv zeta. destruct (Hfields text) as [E1 [E2 E3]]. rewrite E1, E2, E3.
  split; [|split; [|split]].
  - destruct (search re_package text) as [m|] eqn:E.
    + left. split.
      * apply occurs_package with (isalnum := isalnum).
        eapply search_some_occurs. exact E.
      * split; [exists m; repeat split|].
        simpl assign_group.
        repeat split;
          try (eapply group_quotable;
               [exact E|reflexivity|apply package_groups_quotable]).
    + right. split; [|repeat split].
      intros Hp. apply occurs_package with (isalnum := isalnum) in Hp.
      apply search_none in E. contradiction.
  - intros Hno. destruct (search re_package text) as [m|] eqn:E; [|reflexivity].
    exfalso. apply Hno. apply search_some_occurs in E.
    unfold re_package, lit in E. cbn [cat] in E.
    do 6 apply occurs_tail in E. eapply occurs_literal. exact E.
  - intros Hno. destruct (search re_package text) as [m|] eqn:E; [|reflexivity].
    exfalso. apply Hno. apply search_some_occurs in E.
    unfold re_package, lit in E. cbn [cat] in E.
    do 10 apply occurs_tail in E. eapply occurs_literal. exact E.
  - intros x Hx. destruct (Hfields (of_string "package: name='" ++ x ++ of_string "'"))
      as [-> _].
    apply assign_group_none. intros Ho. apply occurs_min_quotes in Ho.
    rewrite !count_occ_quote_app in Ho.
    rewrite (proj1 (count_occ_not_In N.eq_dec x quote) Hx) in Ho.
    vm_compute in Ho. lia.
Qed.

(** *** One quoted value after a literal *)

Lemma first_quoted_after marker v s :
  quotable v ->
  first_match isalnum (quoted_after marker)
    (of_string marker ++ v ++ of_string "'" ++ s) []
  = Some (s, [(1%nat, v)]).
Proof.
  intros [Hne Hq]. unfold quoted_after, lit. cbn [cat].
  eapply first_seq; [apply first_str|].
  eapply first_seq; [|apply first_str].
  rewrite <- (consumed_app v (of_string "'" ++ s)) at 2.
  apply first_group. apply first_plus_class.
  - exact Hne.
  - apply forall_notq. exact Hq.
  - reflexivity.
Qed.

(** The field read by such a pattern is [v] exactly when the first match
    of the pattern in the text is [<marker>v']. *)
Lemma quoted_after_field marker text v :
  v <> [] ->
  assign_group (search (quoted_after marker) text) 1 [] = v <->
  exists pre post,
    text = pre ++ of_string marker ++ v ++ of_string "'" ++ post /\
    quotable v /\
    no_match_before isalnum (quoted_after marker) (length pre) text.
Proof.
  intros Hne. split.
  - destruct (search (quoted_after marker) text) as [m|] eqn:E;
      [|simpl; congruence].
    destruct (@search_some isalnum _ _ _ E) as [[pre [Hpre Hno]] [Hfrom HL]].
    unfold quoted_after, lit in HL. cbn [cat] in HL. unfold Plus in HL.
    revert E Hpre Hno Hfrom. lang_inv. intros E Hpre Hno Hfrom.
    match goal with
    | Hq : quotable ?w, Hx : _ ++ ?w ++ _ = m_whole m |- _ =>
        rename Hq into Hquot; rename Hx into Hw; rename w into v'
    end.
    rewrite <- !app_assoc in Hfrom. rewrite Hfrom in Hpre.
    assert (E' := E). rewrite Hpre in E' at 1.
    rewrite (@search_first isalnum (quoted_after marker) pre _ (m_rest m)
               [(1%nat, v')]) in E'.
    + inversion E' as [Em]. rewrite <- Em. unfold assign_group, group. simpl.
      intros <-. exists pre, (m_rest m).
      repeat split; [exact Hpre|apply Hquot|apply Hquot|exact Hno].
    + rewrite <- Hpre. exact Hno.
    + apply first_quoted_after. exact Hquot.
  - intros [pre [post [-> [Hq Hno]]]].
    rewrite (@search_first isalnum (quoted_after marker) pre _ post
               [(1%nat, v)]).
    + reflexivity.
    + exact Hno.
    + apply first_quoted_after. exact Hq.
Qed.

Lemma quoted_after_empty marker text :
  assign_group (search (quoted_after marker) text) 1 [] = [] <->
  ~ occurs (quoted_after marker) text.
Proof.
  split.
  - intros H Ho. destruct (search (quoted_after marker) text) as [m|] eqn:E.
    + assert (Hq : quotable (group 1 m)).
      { eapply group_quotable; [exact E|reflexivity|].
        unfold quoted_after, lit, Plus, ws, notq. cbn [cat group_lang].
        intros v Hv.
        repeat match type of Hv with
               | _ \/ _ => destruct Hv as [Hv|Hv]
               | False => destruct Hv
               | _ /\ _ => destruct Hv as [_ Hv]
               end; apply (proj1 (lang_quotable isalnum true v) Hv). }
      simpl in H. destruct Hq as [Hq _]. contradiction.
    + apply search_none in E. contradiction.
  - apply assign_group_none.
Qed.

(** C7: [min_sdk] and [target_sdk] are read by the colon-then-quote
    patterns [minSdkVersion:'...'] and [targetSdkVersion:'...'] only, from
    the first match of each.  The field is a non-empty [v] exactly when the
    first match of its pattern in the text is the marker, [v] and a closing
    quote; it is empty exactly when the pattern does not occur.  A text in
    which the marker with colon and quote is absent (whatever it holds in
    the form [minSdkVersion='X']) leaves the field empty. *)
Theorem sdk_levels_colon_form (text : str) :
  let i := parse text in
  (forall v, v <> [] ->
     (min_sdk i = v <->
      exists pre post,
        text = pre ++ of_string "minSdkVersion:'" ++ v ++ of_string "'" ++ post
        /\ quotable v
        /\ no_match_before isalnum re_min_sdk (length pre) text))
  /\ (forall v, v <> [] ->
     (target_sdk i = v <->
      exists pre post,
        text = pre ++ of_string "targetSdkVersion:'" ++ v ++ of_string "'"
               ++ post
        /\ quotable v
        /\ no_match_before isalnum re_target_sdk (length pre) text))
  /\ (min_sdk i = [] <-> ~ occurs re_min_sdk text)
  /\ (target_sdk i = [] <-> ~ occurs re_target_sdk text)
  /\ (~ substring (of_string "minSdkVersion:'") text -> min_sdk i = [])
  /\ (~ substring (of_string "targetSdkVersion:'") text -> target_sdk i = [])
  /\ min_sdk (parse (of_string "minSdkVersion='21' targetSdkVersion='34'")) = []
  /\ target_sdk (parse (of_string "minSdkVersion='21' targetSdkVersion='34'"))
     = []
  /\ min_sdk (parse (of_string
       "minSdkVersion='19' minSdkVersion:'21' minSdkVersion:'23'"))
     = of_string "21".
Proof.
  cbv zeta.
  change (min_sdk (parse text))
    with (assign_group (search (quoted_after "minSdkVersion:'") text) 1 []).
  change (target_sdk (parse text))
    with (assign_group (search (quoted_after "targetSdkVersion:'") text) 1 []).
  change re_min_sdk with (quoted_after "minSdkVersion:'").
  change re_target_sdk with (quoted_after "targetSdkVersion:'").
  repeat split; try (apply quoted_after_field; assumption);
    try (apply quoted_after_empty; assumption).
  - intros Hno. apply quoted_after_empty. intros Ho. apply Hno.
    eapply occurs_literal. exact Ho.
  - intros Hno. apply quoted_after_empty. intros Ho. apply Hno.
    eapply occurs_literal. exact Ho.
Qed.

(** *** Absent patterns *)

Lemma scan_archs_app lines : forall archs,
  scan_archs isalnum lines archs
  = archs ++
    flat_map (fun line =>
                if is_arch_line (strip line)
                then findall1 isalnum re_quoted (strip line) else [])
             lines.
Proof.
  unfold scan_archs. induction lines as [|l lines IH]; intros archs; simpl.
  - symmetry. apply app_nil_r.
  - rewrite IH. destruct (is_arch_line (strip l)).
    + rewrite <- app_assoc. reflexivity.
    + reflexivity.
Qed.

Lemma quote_of_occurs r text :
  (1 <= min_quotes r)%nat -> occurs r text -> In quote text.
Proof.
  intros Hr Ho. apply occurs_min_quotes in Ho.
  apply (count_occ_In N.eq_dec). lia.
Qed.

Lemma no_quote_no_pattern text : ~ In quote text -> no_pattern isalnum text.
Proof.
  intros Hq. split.
  - apply Forall_forall. intros r Hr Ho. apply Hq.
    apply (@quote_of_occurs r text); [|exact Ho].
    simpl in Hr.
    repeat (destruct Hr as [<-|Hr]; [vm_compute; lia|]). destruct Hr.
  - intros line Hl _ Ho. apply Hq.
    apply (@quote_of_occurs re_quoted (strip line)) in Ho; [|vm_compute; lia].
    eapply splitlines_incl; [exact Hl|]. apply strip_incl. exact Ho.
Qed.

Lemma no_pattern_parse text :
  no_pattern isalnum text -> parse text = init_info text.
Proof.
  intros [Hp Ha]. rewrite Forall_forall in Hp.
  assert (Hs : forall r, In r text_patterns -> search r text = None).
  { intros r Hr. apply search_none. apply Hp. exact Hr. }
  assert (Hf : forall r, In r text_patterns -> finditer isalnum r text = []).
  { intros r Hr. apply finditer_none. apply Hs. exact Hr. }
  unfold parse_aapt2_output, findall1, findall2.
  rewrite !Hs by (simpl; tauto). rewrite !Hf by (simpl; tauto).
  rewrite scan_archs_app.
  rewrite flat_map_none; [reflexivity|].
  intros line Hl. destruct (is_arch_line (strip line)) eqn:E; [|reflexivity].
  apply findall1_none. apply Ha; assumption.
Qed.

(** C1: [parse_aapt2_output] is a total function from texts to records
    (every repetition and every [findall] inside it runs on fuel that is
    never exhausted: [iter_fuel], [finditer_fuel_enough]).  [raw] is the
    stripped text: the text without the white space at its two ends.  A
    field whose pattern does not occur in the text has
    its zero value; when none of the patterns occurs, and in particular
    when the text holds no quote, the record is the initial one: every
    field at its zero value and [raw] the stripped text. *)
Theorem parse_total_defaults (text : str) :
  let i := parse text in
  raw i = strip text
  /\ stripped_of text (raw i)
  /\ (~ occurs re_package text ->
      package_name i = [] /\ version_code i = [] /\ version_name i = [])
  /\ (~ occurs re_platform_name text -> platform_build_version_name i = [])
  /\ (~ occurs re_platform_code text -> platform_build_version_code i = [])
  /\ (~ occurs re_compile text -> compile_sdk_version i = [])
  /\ (~ occurs re_compile_codename text -> compile_sdk_codename i = [])
  /\ (~ occurs re_min_sdk text -> min_sdk i = [])
  /\ (~ occurs re_target_sdk text -> target_sdk i = [])
  /\ (~ occurs re_label_locale text -> app_name_labels i = [])
  /\ (~ occurs re_label_locale text -> ~ occurs re_label_generic text ->
      ~ occurs re_label_app text -> app_name i = [])
  /\ (~ occurs re_launchable text -> launchable_activity i = [])
  /\ (~ occurs re_permission text -> permissions i = [])
  /\ (~ occurs re_feature text -> features i = [])
  /\ (~ occurs re_implied_feature text -> implied_features i = [])
  /\ (~ occurs re_screens text -> supports_screens i = [])
  /\ (~ occurs re_any_density text -> supports_any_density i = [])
  /\ (~ occurs re_densities text -> densities i = [])
  /\ (~ occurs re_locales text -> locales i = [])
  /\ (~ occurs re_icon text -> icons i = [])
  /\ ((forall line, In line (splitlines text) ->
                    is_arch_line (strip line) = true ->
                    ~ occurs re_quoted (strip line)) ->
      architectures i = [])
  /\ (no_pattern isalnum text -> i = init_info text)
  /\ (~ In quote text -> i = init_info text).
Proof.
  cbv zeta. unfold parse_aapt2_output. cbn [raw package_name version_code
    version_name platform_build_version_name platform_build_version_code
    compile_sdk_version compile_sdk_codename min_sdk target_sdk
    app_name_labels app_name launchable_activity permissions features
    implied_features supports_screens supports_any_density densities
    locales icons architectures init_info].
  fold (parse_aapt2_output isalnum text).
  repeat match goal with
         | |- _ /\ _ => split
         end;
    try reflexivity;
    try apply strip_stripped;
    try (intros H; rewrite ?(assign_group_none isalnum _ _ 1 H),
           ?(assign_group_none isalnum _ _ 2 H),
           ?(assign_group_none isalnum _ _ 3 H),
           ?(findall1_none isalnum _ _ H), ?(findall2_none isalnum _ _ H);
         repeat split; reflexivity).
  - intros H1 H2 H3.
    rewrite (findall2_none isalnum _ _ H1),
      (assign_group_none isalnum _ _ 1 H2),
      (assign_group_none isalnum _ _ 1 H3). reflexivity.
  - intros H. apply (proj2 (search_none _ _ _)) in H. rewrite H. reflexivity.
  - intros H. apply (proj2 (search_none _ _ _)) in H. rewrite H. reflexivity.
  - intros H. apply (proj2 (search_none _ _ _)) in H. rewrite H. reflexivity.
  - intros H. rewrite scan_archs_app. apply flat_map_none.
    intros line Hl. destruct (is_arch_line (strip line)) eqn:E; [|reflexivity].
    apply findall1_none. apply H; assumption.
  - apply no_pattern_parse.
  - intros H. apply no_pattern_parse, no_quote_no_pattern. exact H.
Qed.

End Identity.

(* ================================================================== *)
(** ** The Unicode table matters on the characters of the text only *)

Section Tables.

Variables f g : char -> bool.

Lemma cset_mem_agree p x : f x = g x -> cset_mem f p x = cset_mem g p x.
Proof.
  intros H. destruct p as [|neg items]; [reflexivity|]. simpl. f_equal.
  induction items as [|i items IH]; [reflexivity|]. simpl. rewrite IH.
  f_equal. destruct i; simpl; try reflexivity. rewrite H. reflexivity.
Qed.

Lemma iter_agree (step1 step2 : str -> caps -> list (str * caps)) gr :
  forall fuel s,
  (forall s' c, (length s' <= length s)%nat ->
                (forall x, In x s' -> In x s) -> step1 s' c = step2 s' c) ->
  (forall s1 c s2 c2, In (s2, c2) (step2 s1 c) ->
                      forall x, In x s2 -> In x s1) ->
  forall c, iter step1 gr fuel s c = iter step2 gr fuel s c.
Proof.
  induction fuel as [|fuel IH]; intros s Hstep Hsub c; [reflexivity|].
  simpl. rewrite (Hstep s c) by auto.
  rewrite (flat_map_agree _ _ _
             (fun sc : str * caps =>
                if (length (fst sc) <? length s)%nat
                then iter step2 gr fuel (fst sc) (snd sc) else [])).
  - reflexivity.
  - intros [s1 c1] Hin. simpl.
    destruct (length s1 <? length s)%nat eqn:E; [|reflexivity].
    apply Nat.ltb_lt in E. apply IH; [|exact Hsub].
    intros s' c' Hlen Hin'. apply Hstep; [lia|].
    intros x Hx. eapply Hsub; [exact Hin|]. apply Hin'. exact Hx.
Qed.

Lemma mtch_rest_incl r s c s' c' x :
  In (s', c') (mtch g r s c) -> In x s' -> In x s.
Proof.
  intros H Hx. apply mtch_sound in H. destruct H as [y [-> _]].
  apply in_or_app. right. exact Hx.
Qed.

Lemma mtch_agree r : forall s c,
  (forall x, In x s -> f x = g x) -> mtch f r s c = mtch g r s c.
Proof.
  induction r as [|p|l|a IHa b IHb|a IHa b IHb|n a IHa|gr a IHa];
    intros s c H; simpl.
  - reflexivity.
  - destruct s as [|x s]; [reflexivity|].
    rewrite (@cset_mem_agree p x) by (apply H; left; reflexivity).
    reflexivity.
  - reflexivity.
  - rewrite IHa by exact H. apply flat_map_agree. intros [s1 c1] Hin.
    simpl. apply IHb. intros x Hx. apply H.
    eapply mtch_rest_incl; eassumption.
  - rewrite IHa, IHb by exact H. reflexivity.
  - rewrite IHa by exact H. reflexivity.
  - apply iter_agree.
    + intros s' c' _ Hin. apply IHa. intros x Hx. apply H, Hin, Hx.
    + intros s1 c1 s2 c2 Hin x Hx. eapply mtch_rest_incl; eassumption.
Qed.

Lemma match_here_agree r adv s :
  (forall x, In x s -> f x = g x) ->
  match_here f r adv s = match_here g r adv s.
Proof. intros H. unfold match_here. rewrite mtch_agree by exact H. reflexivity. Qed.

Lemma scan_agree r s :
  (forall x, In x s -> f x = g x) -> scan f r s = scan g r s.
Proof.
  induction s as [|x s IH]; intros H; simpl.
  - rewrite match_here_agree by exact H. reflexivity.
  - rewrite match_here_agree by exact H. rewrite IH; [reflexivity|].
    intros y Hy. apply H. right. exact Hy.
Qed.

Lemma scan_adv_agree r adv s :
  (forall x, In x s -> f x = g x) -> scan_adv f r adv s = scan_adv g r adv s.
Proof.
  intros H. unfold scan_adv. rewrite match_here_agree by exact H.
  destruct s as [|x s]; [reflexivity|]. rewrite scan_agree; [reflexivity|].
  intros y Hy. apply H. right. exact Hy.
Qed.

Lemma scan_adv_rest_incl r adv s m x :
  scan_adv g r adv s = Some m -> In x (m_rest m) -> In x s.
Proof.
  assert (Hhere : forall s0 adv0, match_here g r adv0 s0 = Some m ->
                                  In x (m_rest m) -> In x s0).
  { intros s0 adv0. unfold match_here.
    destruct (filter _ (mtch g r s0 [])) as [|sc l] eqn:E; [discriminate|].
    intros H. inversion H; subst m. simpl. clear H.
    assert (Hin : In sc (filter
              (fun sc : str * caps =>
                 negb adv0 || (length (fst sc) <? length s0)%nat)
              (mtch g r s0 []))) by (rewrite E; left; reflexivity).
    apply filter_In in Hin. destruct Hin as [Hin _]. destruct sc as [s1 c1].
    simpl. eapply mtch_rest_incl. exact Hin. }
  assert (Hscan : forall s0, scan g r s0 = Some m ->
                             In x (m_rest m) -> In x s0).
  { induction s0 as [|y s0 IH]; intros H Hx; simpl in H.
    - destruct (match_here g r false []) eqn:E; [|discriminate].
      inversion H; subst. apply (Hhere [] false); assumption.
    - destruct (match_here g r false (y :: s0)) eqn:E.
      + inversion H; subst. apply (Hhere (y :: s0) false); assumption.
      + right. apply IH; assumption. }
  unfold scan_adv. destruct (match_here g r adv s) eqn:E.
  - intros H. inversion H; subst. eapply Hhere. exact E.
  - destruct s as [|y s]; [discriminate|]. intros H Hx. right.
    apply Hscan; assumption.
Qed.

Lemma finditer_fuel_agree r fuel : forall adv s,
  (forall x, In x s -> f x = g x) ->
  finditer_fuel f fuel r adv s = finditer_fuel g fuel r adv s.
Proof.
  induction fuel as [|fuel IH]; intros adv s H; [reflexivity|]. simpl.
  rewrite scan_adv_agree by exact H.
  destruct (scan_adv g r adv s) as [m|] eqn:E; [|reflexivity].
  f_equal. apply IH. intros x Hx. apply H.
  eapply scan_adv_rest_incl; eassumption.
Qed.

Lemma finditer_agree r s :
  (forall x, In x s -> f x = g x) -> finditer f r s = finditer g r s.
Proof. intros H. apply finditer_fuel_agree. exact H. Qed.

Lemma scan_archs_agree text :
  (forall x, In x text -> f x = g x) ->
  scan_archs f (splitlines text) [] = scan_archs g (splitlines text) [].
Proof.
  intros H. rewrite !scan_archs_app. simpl. apply flat_map_agree.
  intros line Hl. destruct (is_arch_line (strip line)); [|reflexivity].
  unfold findall1. rewrite (@finditer_agree _ (strip line)); [reflexivity|].
  intros x Hx. apply H.
  eapply splitlines_incl; [exact Hl|]. apply strip_incl. exact Hx.
Qed.

(** Two tables that agree on the characters of the text give the same
    record. *)
Theorem parse_agree text :
  (forall x, In x text -> f x = g x) ->
  parse_aapt2_output f text = parse_aapt2_output g text.
Proof.
  intros H. unfold parse_aapt2_output.
  rewrite (@scan_archs_agree text H).
  unfold re_search, findall1, findall2.
  rewrite !(@scan_agree _ text) by exact H.
  rewrite !(@finditer_agree _ text) by exact H.
  assert (Hrun : forall r,
    match scan g r text with
    | Some m => map (group 1) (finditer f re_quoted (group 1 m))
    | None => []
    end =
    match scan g r text with
    | Some m => map (group 1) (finditer g re_quoted (group 1 m))
    | None => []
    end).
  { intros r. destruct (scan g r text) as [m|] eqn:E; [|reflexivity].
    rewrite (@finditer_agree _ (group 1 m)); [reflexivity|].
    intros x Hx. apply H. eapply group_incl; eassumption. }
  cbn [init_info supports_screens densities locales].
  rewrite !Hrun. reflexivity.
Qed.

End Tables.

(** On an ASCII text, the record is the one the ASCII table gives. *)
Lemma parse_ascii isalnum text :
  ascii_table isalnum -> is_ascii text = true ->
  parse_aapt2_output isalnum text = parse_aapt2_output ascii_isalnum text.
Proof.
  intros Ht Ha. apply parse_agree. intros x Hx. apply Ht.
  unfold is_ascii in Ha. rewrite forallb_forall in Ha.
  apply N.ltb_lt. apply Ha. exact Hx.
Qed.

(** ** The display name and the collected fields *)

Section Collections.

Variable isalnum : char -> bool.

Local Abbreviation parse := (parse_aapt2_output isalnum).
Local Abbreviation search := (re_search isalnum).
Local Abbreviation occurs := (occurs isalnum).

Lemma first_label_generic v s :
  ~ In quote v ->
  first_match isalnum re_label_generic
    (of_string "application-label:'" ++ v ++ of_string "'" ++ s) []
  = Some (s, [(1%nat, v)]).
Proof.
  intros Hv. unfold re_label_generic, lit. cbn [cat].
  eapply first_seq; [apply first_str|].
  eapply first_seq; [|apply first_str].
  rewrite <- (consumed_app v (of_string "'" ++ s)) at 2.
  apply first_group. apply first_star_class.
  - apply forall_notq. exact Hv.
  - reflexivity.
Qed.

Lemma first_label_app w v s :
  spaces w -> ~ In quote v ->
  first_match isalnum re_label_app
    (of_string "application:" ++ w ++ of_string "label='" ++ v
     ++ of_string "'" ++ s) []
  = Some (s, [(1%nat, v)]).
Proof.
  intros [Hw1 Hw2] Hv. unfold re_label_app, lit. cbn [cat].
  eapply first_seq; [apply first_str|].
  eapply first_seq.
  { apply first_plus_class; [exact Hw1|apply forall_ws; exact Hw2|reflexivity]. }
  eapply first_seq; [apply first_str|].
  eapply first_seq; [|apply first_str].
  rewrite <- (consumed_app v (of_string "'" ++ s)) at 2.
  apply first_group. apply first_star_class.
  - apply forall_notq. exact Hv.
  - reflexivity.
Qed.

Lemma first_label_locale loc v s :
  ascii_table isalnum -> locale_name isalnum loc -> ~ In quote v ->
  first_match isalnum re_label_locale
    (of_string "application-label-" ++ loc ++ of_string ":'" ++ v
     ++ of_string "'" ++ s) []
  = Some (s, [(2%nat, v); (1%nat, loc)]).
Proof.
  intros Ht [Hl1 Hl2] Hv. unfold re_label_locale, lit. cbn [cat].
  eapply first_seq; [apply first_str|].
  eapply first_seq
    with (s1 := of_string ":'" ++ v ++ of_string "'" ++ s)
         (c1 := [(1%nat, loc)]).
  { rewrite <- (consumed_app loc (of_string ":'" ++ v ++ of_string "'" ++ s))
      at 2.
    apply first_group. apply first_plus_class.
    - exact Hl1.
    - eapply Forall_impl; [|exact Hl2]. intros c Hc. simpl.
      destruct Hc as [Hc|[Hc|Hc]]; [rewrite Hc; reflexivity| |];
        subst c; rewrite !orb_true_r; reflexivity.
    - simpl. rewrite (Ht 58) by reflexivity. reflexivity. }
  eapply first_seq; [apply first_str|].
  eapply first_seq; [|apply first_str].
  rewrite <- (consumed_app v (of_string "'" ++ s)) at 2.
  apply first_group. apply first_star_class.
  - apply forall_notq. exact Hv.
  - reflexivity.
Qed.

(** Where the first match of the pattern of the labels is
    [application-label-<loc>:'v'], [findall] gives the pair of [loc] and
    [v], and then what it gives on the text after it. *)
Lemma findall_label_step pre loc v post :
  ascii_table isalnum -> locale_name isalnum loc -> ~ In quote v ->
  no_match_before isalnum re_label_locale (length pre)
    (pre ++ of_string "application-label-" ++ loc ++ of_string ":'" ++ v
     ++ of_string "'" ++ post) ->
  findall2 isalnum re_label_locale
    (pre ++ of_string "application-label-" ++ loc ++ of_string ":'" ++ v
     ++ of_string "'" ++ post)
  = (loc, v) :: findall2 isalnum re_label_locale post.
Proof.
  intros Ht Hl Hv Hno. unfold findall2.
  rewrite (finditer_cons isalnum re_label_locale _
             {| m_from := of_string "application-label-" ++ loc
                          ++ of_string ":'" ++ v ++ of_string "'" ++ post;
                m_rest := post; m_caps := [(2%nat, v); (1%nat, loc)] |}).
  - reflexivity.
  - apply (search_first isalnum re_label_locale pre _ post
             [(2%nat, v); (1%nat, loc)] Hno).
    apply first_label_locale; assumption.
  - unfold is_empty_match. cbn [m_from m_rest]. apply Nat.eqb_neq.
    rewrite !length_app. simpl length. lia.
Qed.

(** C2: the display name follows the priority chain.  With [label loc]
    the label the text gives for the locale [loc] (the last one, when it
    gives several; empty when it gives none), [generic] the value of the
    first [application-label:'...'] and [node] the value of the first
    [application: label='...'] (each empty when the text has none), the
    name is the first non-empty string among [label zh-CN],
    [label zh-HK], [label zh-TW], [generic], [label zh] and [node], and
    the empty string when all are empty.  A text that holds a label ['A']
    for [zh-CN] and a generic label ['B'] only is named [A]; a text with
    a generic label, a label for [zh] and a node label is named by the
    generic label, one with the last two by the label for [zh], one with
    the node label alone by it. *)
Theorem app_name_priority (text : str) :
  let i := parse text in
  let label (loc : string) :=
    dict_get_default (of_string loc) [] (app_name_labels i) in
  let generic := assign_group (search re_label_generic text) 1 [] in
  let node := assign_group (search re_label_app text) 1 [] in
  (forall loc,
     dict_get loc (app_name_labels i)
     = dict_get loc (rev (findall2 isalnum re_label_locale text)))
  /\ app_name i =
       (if truthy (label "zh-CN"%string) then label "zh-CN"%string
        else if truthy (label "zh-HK"%string) then label "zh-HK"%string
        else if truthy (label "zh-TW"%string) then label "zh-TW"%string
        else if truthy generic then generic
        else if truthy (label "zh"%string) then label "zh"%string
        else node)
  /\ (ascii_table isalnum ->
      app_name (parse text_label_cn_generic) = of_string "A" /\
      app_name (parse text_label_generic_cn) = of_string "A")
  /\ (~ occurs re_label_locale text ->
      findall2 isalnum re_label_locale text = [])
  /\ (ascii_table isalnum ->
      forall pre loc v post,
        text = pre ++ of_string "application-label-" ++ loc
               ++ of_string ":'" ++ v ++ of_string "'" ++ post ->
        locale_name isalnum loc -> ~ In quote v ->
        no_match_before isalnum re_label_locale (length pre) text ->
        findall2 isalnum re_label_locale text
        = (loc, v) :: findall2 isalnum re_label_locale post)
  /\ (forall pre v post,
        text = pre ++ of_string "application-label:'" ++ v
               ++ of_string "'" ++ post ->
        ~ In quote v ->
        no_match_before isalnum re_label_generic (length pre) text ->
        generic = v)
  /\ (~ occurs re_label_generic text -> generic = [])
  /\ (forall pre w v post,
        text = pre ++ of_string "application:" ++ w ++ of_string "label='"
               ++ v ++ of_string "'" ++ post ->
        spaces w -> ~ In quote v ->
        no_match_before isalnum re_label_app (length pre) text ->
        node = v)
  /\ (~ occurs re_label_app text -> node = [])
  /\ (ascii_table isalnum ->
      app_name (parse text_label_generic_zh_node) = of_string "B" /\
      app_name (parse text_label_zh_node) = of_string "Z" /\
      app_name (parse text_label_node) = of_string "C" /\
      app_name (parse text_label_tw_hk) = of_string "H" /\
      app_name (parse text_label_en) = [] /\
      app_name (parse text_label_empty_cn_generic) = of_string "B").
Proof.
  cbv zeta. split; [|split; [|split]].
  - intros loc. change (app_name_labels (parse text))
      with (dict_fill (findall2 isalnum re_label_locale text) []).
    rewrite dict_get_fill.
    destruct (dict_get loc (rev (findall2 isalnum re_label_locale text)));
      reflexivity.
  - unfold parse_aapt2_output.
    cbn [app_name app_name_labels init_info].
    set (labels := dict_fill (findall2 isalnum re_label_locale text) []).
    unfold preferred_locales, pick_preferred, dict_get_default, py_or.
    destruct (dict_get (of_string "zh-CN") labels) as [[|x1 v1]|];
      destruct (dict_get (of_string "zh-HK") labels) as [[|x2 v2]|];
      destruct (dict_get (of_string "zh-TW") labels) as [[|x3 v3]|];
      cbn [truthy negb];
      try reflexivity;
      destruct (assign_group (search re_label_generic text) 1 [])
        as [|x4 v4];
      cbn [truthy negb]; try reflexivity;
      destruct (dict_get (of_string "zh") labels) as [[|x5 v5]|];
      reflexivity.
  - intros Ht. rewrite !(parse_ascii isalnum) by (exact Ht || reflexivity).
    split; vm_compute; reflexivity.
  - split; [apply findall2_none|]. split.
    { intros Ht pre loc v post -> Hl Hv Hno.
      apply findall_label_step; assumption. }
    split.
    { intros pre v post -> Hv Hno.
      rewrite (search_first isalnum re_label_generic pre _ post
                 [(1%nat, v)] Hno); [reflexivity|].
      apply first_label_generic. exact Hv. }
    split; [apply assign_group_none|]. split.
    { intros pre w v post -> Hw Hv Hno.
      rewrite (search_first isalnum re_label_app pre _ post
                 [(1%nat, v)] Hno); [reflexivity|].
      apply first_label_app; assumption. }
    split; [apply assign_group_none|].
    intros Ht. rewrite !(parse_ascii isalnum) by (exact Ht || reflexivity).
    repeat split; vm_compute; reflexivity.
Qed.

(** *** Quoted tokens *)

Lemma quoted_here_fail c s :
  c <> quote -> match_here isalnum re_quoted false (c :: s) = None.
Proof.
  intros Hc. apply match_here_fail. unfold re_quoted, lit. cbn [cat].
  apply mtch_str_fail. cbn [of_string startswith].
  apply N.eqb_neq in Hc. rewrite N.eqb_sym in Hc.
  change (N_of_ascii "'"%char) with quote. rewrite Hc. reflexivity.
Qed.

Lemma finditer_quoted_skip pre s :
  ~ In quote pre ->
  finditer isalnum re_quoted (pre ++ s) = finditer isalnum re_quoted s.
Proof.
  induction pre as [|c pre IH]; intros H; [reflexivity|].
  simpl app. rewrite finditer_next.
  - apply IH. intros Hin. apply H. right. exact Hin.
  - apply quoted_here_fail. intros ->. apply H. left. reflexivity.
Qed.

Lemma finditer_quoted_token tok s :
  quotable tok ->
  finditer isalnum re_quoted (quote :: tok ++ quote :: s)
  = {| m_from := quote :: tok ++ quote :: s; m_rest := s;
       m_caps := [(1%nat, tok)] |}
    :: finditer isalnum re_quoted s.
Proof.
  intros Hq.
  rewrite (finditer_cons isalnum re_quoted _
             {| m_from := quote :: tok ++ quote :: s; m_rest := s;
                m_caps := [(1%nat, tok)] |}).
  - reflexivity.
  - apply scan_here, match_here_first.
    apply (first_quoted_after isalnum "'"%string tok s Hq).
  - unfold is_empty_match. cbn [m_from m_rest]. apply Nat.eqb_neq.
    simpl length. rewrite length_app. simpl length. lia.
Qed.

(** [findall] with the pattern of a quoted token reads a rendered run of
    tokens back, in order, whatever stands before it without a quote. *)
Lemma findall_render_tokens pre items :
  ~ In quote pre -> token_items items ->
  findall1 isalnum re_quoted (pre ++ render_tokens items) = map fst items.
Proof.
  intros Hpre Hit. unfold findall1. rewrite finditer_quoted_skip by exact Hpre.
  clear pre Hpre. induction Hit as [|[tok sep] items [Ht Hs] _ IH].
  - reflexivity.
  - simpl render_tokens. rewrite <- app_assoc. simpl app.
    rewrite finditer_quoted_token by exact Ht.
    rewrite finditer_quoted_skip by exact Hs.
    simpl map. f_equal. exact IH.
Qed.

(** *** Lines *)

Lemma splitlines_from_newline (A : Type) (F : str -> list A) :
  F [] = [] ->
  forall n a cur b, (length a <= n)%nat ->
  flat_map F (splitlines_from cur (a ++ newline :: b))
  = flat_map F (splitlines_from cur a) ++ flat_map F (splitlines b).
Proof.
  intros HF.
  assert (Hnl : forall cur b,
            flat_map F (splitlines_from cur (newline :: b))
            = F (rev cur) ++ flat_map F (splitlines b)).
  { intros cur b. destruct b as [|d b]; reflexivity. }
  induction n as [|n IH]; intros a cur b Hn.
  - destruct a; [|simpl in Hn; lia]. simpl app. rewrite Hnl.
    destruct cur; simpl; [rewrite HF|rewrite app_nil_r]; reflexivity.
  - destruct a as [|x a].
    + simpl app. rewrite Hnl.
      destruct cur; simpl; [rewrite HF|rewrite app_nil_r]; reflexivity.
    + simpl in Hn. simpl app. simpl splitlines_from.
      destruct (is_linebreak x).
      * destruct a as [|d a].
        -- cbn [app]. change (newline =? 10) with true.
           rewrite andb_true_r. destruct (x =? 13).
           ++ cbn [flat_map]. rewrite app_nil_r. reflexivity.
           ++ cbn [flat_map]. rewrite Hnl. cbn [rev].
              rewrite HF, app_nil_r. reflexivity.
        -- cbn [app]. destruct ((x =? 13) && (d =? 10)).
           ++ cbn [flat_map]. rewrite IH by (simpl in Hn; lia).
              rewrite app_assoc. reflexivity.
           ++ cbn [flat_map].
              change (d :: a ++ newline :: b) with ((d :: a) ++ newline :: b).
              rewrite (IH (d :: a)) by (simpl in *; lia).
              rewrite app_assoc. reflexivity.
      * apply IH. lia.
Qed.

Lemma is_linebreak_boundary c :
  is_linebreak c = true <-> In c line_boundaries.
Proof.
  unfold is_linebreak, line_boundaries.
  rewrite !orb_true_iff, !andb_true_iff, !N.leb_le, !N.eqb_eq. simpl. lia.
Qed.

Lemma one_line_no_break s c :
  one_line s -> In c s -> is_linebreak c = false.
Proof.
  intros H Hc. destruct (is_linebreak c) eqn:E; [|reflexivity].
  exfalso. apply (H c Hc). apply is_linebreak_boundary. exact E.
Qed.

Lemma splitlines_from_one s : forall cur,
  (forall c, In c s -> is_linebreak c = false) ->
  splitlines_from cur s
  = match rev cur ++ s with [] => [] | _ :: _ => [rev cur ++ s] end.
Proof.
  induction s as [|x s IH]; intros cur H.
  - simpl. rewrite app_nil_r. destruct cur as [|c cur]; [reflexivity|].
    destruct (rev (c :: cur)) eqn:E; [|reflexivity].
    apply (f_equal (@length char)) in E. rewrite length_rev in E.
    discriminate E.
  - simpl. rewrite (H x (or_introl eq_refl)).
    rewrite IH by (intros c Hc; apply H; right; exact Hc).
    simpl rev. rewrite <- app_assoc. reflexivity.
Qed.

Lemma lstrip_app_space l s : all_space l -> lstrip (l ++ s) = lstrip s.
Proof.
  induction l as [|c l IH]; intros H; [reflexivity|]. simpl.
  rewrite (H c (or_introl eq_refl)). apply IH.
  intros x Hx. apply H. right. exact Hx.
Qed.

Lemma lstrip_all_space l : all_space l -> lstrip l = [].
Proof.
  intros H. rewrite <- (app_nil_r l). rewrite lstrip_app_space by exact H.
  reflexivity.
Qed.

Lemma all_space_rev l : all_space l -> all_space (rev l).
Proof. intros H c Hc. apply H. apply in_rev. exact Hc. Qed.

(** What [strip] leaves is the part between the white space at the two
    ends. *)
Lemma strip_parts l core t :
  all_space l -> all_space t -> trimmed core -> strip (l ++ core ++ t) = core.
Proof.
  intros Hl Ht Hc. unfold strip, rstrip.
  rewrite lstrip_app_space by exact Hl.
  destruct Hc as [->|[[c [u [-> Hc]]] [v [d [E Hd]]]]].
  - simpl app. rewrite (lstrip_all_space t Ht). reflexivity.
  - simpl. rewrite Hc. change (c :: u ++ t) with ((c :: u) ++ t).
    rewrite E, rev_app_distr.
    rewrite lstrip_app_space by (apply all_space_rev; exact Ht).
    rewrite rev_app_distr. simpl. rewrite Hd. simpl.
    rewrite rev_involutive. reflexivity.
Qed.

Lemma begins_with_startswith p s : startswith p s = true <-> begins_with p s.
Proof.
  split.
  - intros H. exists (skipn (length p) s). apply startswith_split. exact H.
  - intros [rest ->]. apply startswith_app.
Qed.

Lemma is_arch_line_marked core : is_arch_line core = true <-> arch_marked core.
Proof.
  unfold is_arch_line, arch_marked.
  rewrite orb_true_iff, !begins_with_startswith. reflexivity.
Qed.

Lemma architectures_lines text :
  architectures (parse text)
  = flat_map (fun line =>
                if is_arch_line (strip line)
                then findall1 isalnum re_quoted (strip line) else [])
             (splitlines text).
Proof.
  unfold parse_aapt2_output. cbn [architectures].
  rewrite scan_archs_app. reflexivity.
Qed.

(** A text that is one line. *)
Lemma architectures_one_line line :
  one_line line ->
  architectures (parse line)
  = if is_arch_line (strip line)
    then findall1 isalnum re_quoted (strip line) else [].
Proof.
  intros H. rewrite architectures_lines. unfold splitlines.
  rewrite splitlines_from_one
    by (intros c Hc; apply (one_line_no_break line); assumption).
  simpl app. destruct line as [|c line]; [reflexivity|].
  cbn [flat_map]. apply app_nil_r.
Qed.

(** Two texts joined by a line boundary. *)
Lemma splitlines_from_break (A : Type) (F : str -> list A) brk :
  F [] = [] -> is_linebreak brk = true ->
  forall n a cur b, (length a <= n)%nat ->
  flat_map F (splitlines_from cur (a ++ brk :: b))
  = flat_map F (splitlines_from cur a) ++ flat_map F (splitlines b).
Proof.
  intros HF Hbrk.
  assert (Hnl : forall cur b,
            flat_map F (splitlines_from cur (brk :: b))
            = F (rev cur) ++ flat_map F (splitlines b)).
  { intros cur b. simpl. rewrite Hbrk. destruct b as [|d b]; [reflexivity|].
    cbn [flat_map]. f_equal.
    destruct ((brk =? 13) && (d =? 10)) eqn:E; [|reflexivity].
    apply andb_prop in E. destruct E as [_ E]. apply N.eqb_eq in E. subst d.
    unfold splitlines. simpl. rewrite HF.
    destruct b as [|d' b]; reflexivity. }
  induction n as [|n IH]; intros a cur b Hn.
  - destruct a; [|simpl in Hn; lia]. simpl app. rewrite Hnl.
    destruct cur; simpl; [rewrite HF|rewrite app_nil_r]; reflexivity.
  - destruct a as [|x a].
    + simpl app. rewrite Hnl.
      destruct cur; simpl; [rewrite HF|rewrite app_nil_r]; reflexivity.
    + simpl in Hn. simpl app. simpl splitlines_from.
      destruct (is_linebreak x).
      * destruct a as [|d a].
        -- cbn [app]. destruct ((x =? 13) && (brk =? 10)).
           ++ cbn [flat_map]. rewrite app_nil_r. reflexivity.
           ++ cbn [flat_map]. rewrite Hnl. cbn [rev].
              rewrite HF, app_nil_r. reflexivity.
        -- cbn [app]. destruct ((x =? 13) && (d =? 10)).
           ++ cbn [flat_map]. rewrite IH by (simpl in Hn; lia).
              rewrite app_assoc. reflexivity.
           ++ cbn [flat_map].
              change (d :: a ++ brk :: b) with ((d :: a) ++ brk :: b).
              rewrite (IH (d :: a)) by (simpl in *; lia).
              rewrite app_assoc. reflexivity.
      * apply IH. lia.
Qed.

Lemma architectures_break a brk b :
  In brk line_boundaries ->
  architectures (parse (a ++ brk :: b))
  = architectures (parse a) ++ architectures (parse b).
Proof.
  intros H. apply is_linebreak_boundary in H.
  rewrite !architectures_lines. unfold splitlines.
  apply splitlines_from_break with (n := length a);
    [reflexivity|exact H|lia].
Qed.

(** C3: [architectures] is read line by line.  A text that is one line
    (it holds no line boundary) gives, when the line without the white
    space at its two ends begins with [native-code:] or
    [alt-native-code:], every quoted token of that trimmed line, in
    order, and nothing otherwise, whatever it holds.  Two texts joined by
    a line boundary, of any of the ten kinds or a carriage return with a
    line feed, give what the first gives followed by what the second
    gives: the lines are taken in order, what they give is appended,
    nothing is removed.  A run of rendered tokens is read back as it is.
    The two lines of the example give [arm64-v8a], [armeabi-v7a], [x86],
    twice when they stand twice. *)
Theorem architectures_by_line :
  (forall line l core t : str,
     line = l ++ core ++ t -> one_line line ->
     all_space l -> all_space t -> trimmed core ->
     (arch_marked core ->
      architectures (parse line) = findall1 isalnum re_quoted core)
     /\ (~ arch_marked core -> architectures (parse line) = []))
  /\ (forall (a b : str) (brk : char),
        In brk line_boundaries ->
        architectures (parse (a ++ [brk] ++ b))
        = architectures (parse a) ++ architectures (parse b))
  /\ (forall a b : str,
        architectures (parse (a ++ [13; 10] ++ b))
        = architectures (parse a) ++ architectures (parse b))
  /\ (forall pre items,
        ~ In quote pre -> token_items items ->
        findall1 isalnum re_quoted (pre ++ render_tokens items)
        = map fst items)
  /\ architectures (parse text_native_code)
     = [of_string "arm64-v8a"; of_string "armeabi-v7a"; of_string "x86"]
  /\ architectures (parse (text_native_code ++ nl ++ text_native_code))
     = [of_string "arm64-v8a"; of_string "armeabi-v7a"; of_string "x86";
        of_string "arm64-v8a"; of_string "armeabi-v7a"; of_string "x86"]
  /\ architectures (parse text_arch_mixed)
     = [of_string "arm64-v8a"; of_string "x86"; of_string "x86"].
Proof.
  split; [|split; [|split; [|split; [|split; [|split]]]]].
  - intros line l core t -> H1 Hl Ht Hc.
    rewrite (architectures_one_line _ H1).
    rewrite (strip_parts l core t Hl Ht Hc). split.
    + intros Hm. apply is_arch_line_marked in Hm. rewrite Hm. reflexivity.
    + intros Hm. destruct (is_arch_line core) eqn:E; [|reflexivity].
      exfalso. apply Hm. apply is_arch_line_marked. exact E.
  - intros a b brk H. apply architectures_break. exact H.
  - intros a b.
    assert (H1 : In 13 line_boundaries) by (do 3 right; left; reflexivity).
    exact (eq_trans (architectures_break a 13 (10 :: b) H1)
             (f_equal (app (architectures (parse a)))
                (architectures_break [] 10 b (or_introl eq_refl)))).
  - apply findall_render_tokens.
  - vm_compute. reflexivity.
  - vm_compute. reflexivity.
  - vm_compute. reflexivity.
Qed.

(** *** Collected names *)

Lemma first_named_after marker w v s :
  spaces w -> quotable v ->
  first_match isalnum (named_after marker)
    (of_string marker ++ w ++ of_string "name='" ++ v ++ of_string "'" ++ s) []
  = Some (s, [(1%nat, v)]).
Proof.
  intros [Hw1 Hw2] [Hv1 Hv2]. unfold named_after, lit. cbn [cat].
  eapply first_seq; [apply first_str|].
  eapply first_seq.
  { apply first_plus_class; [exact Hw1|apply forall_ws; exact Hw2|reflexivity]. }
  eapply first_seq; [apply first_str|].
  eapply first_seq; [|apply first_str].
  rewrite <- (consumed_app v (of_string "'" ++ s)) at 2.
  apply first_group. apply first_plus_class.
  - exact Hv1.
  - apply forall_notq. exact Hv2.
  - reflexivity.
Qed.

(** Where the first match of the pattern is [<marker> name='v'],
    [findall] gives [v] and then what it gives on the text after it. *)
Lemma findall_named_step marker pre w v post :
  spaces w -> quotable v ->
  no_match_before isalnum (named_after marker) (length pre)
    (pre ++ of_string marker ++ w ++ of_string "name='" ++ v
     ++ of_string "'" ++ post) ->
  findall1 isalnum (named_after marker)
    (pre ++ of_string marker ++ w ++ of_string "name='" ++ v
     ++ of_string "'" ++ post)
  = v :: findall1 isalnum (named_after marker) post.
Proof.
  intros Hw Hv Hno. unfold findall1.
  rewrite (finditer_cons isalnum (named_after marker) _
             {| m_from := of_string marker ++ w ++ of_string "name='" ++ v
                          ++ of_string "'" ++ post;
                m_rest := post; m_caps := [(1%nat, v)] |}).
  - reflexivity.
  - apply (search_first isalnum (named_after marker) pre _ post
             [(1%nat, v)] Hno).
    apply first_named_after; assumption.
  - unfold is_empty_match. cbn [m_from m_rest]. apply Nat.eqb_neq.
    rewrite !length_app. simpl length. lia.
Qed.

(** [findall] reads a list of rendered lines back: every value, in
    order, as many times as it is there. *)
Lemma findall_name_lines marker values :
  (forall s, startswith (of_string marker) (newline :: s) = false) ->
  Forall quotable values ->
  findall1 isalnum (named_after marker) (flat_map (name_line marker) values)
  = values.
Proof.
  intros Hm Hv. induction Hv as [|v values Hq _ IH].
  - unfold findall1. rewrite finditer_none; [reflexivity|].
    simpl. rewrite match_here_fail; [reflexivity|].
    unfold named_after, lit. cbn [cat]. apply mtch_str_fail.
    specialize (Hm []). destruct (of_string marker); [discriminate|reflexivity].
  - simpl flat_map. unfold name_line at 1. rewrite <- !app_assoc.
    change (of_string " name='") with ([32] ++ of_string "name='").
    rewrite <- !app_assoc.
    transitivity
      (v :: findall1 isalnum (named_after marker)
              (nl ++ flat_map (name_line marker) values)).
    + apply (findall_named_step marker [] [32] v
               (nl ++ flat_map (name_line marker) values)).
      * split; [discriminate|]. intros c [<-|[]]. reflexivity.
      * exact Hq.
      * intros k Hk. simpl in Hk. lia.
    + f_equal. unfold findall1, nl. cbn [app]. rewrite finditer_next.
      * exact IH.
      * apply match_here_fail. unfold named_after, lit. cbn [cat].
        apply mtch_str_fail. apply Hm.
Qed.

Lemma collects_names_of field marker :
  (forall text,
     field (parse text) = findall1 isalnum (named_after marker) text) ->
  (forall s, startswith (of_string marker) (newline :: s) = false) ->
  collects_names isalnum field marker.
Proof.
  intros Hf Hm. split; [exact Hf|]. split; [|split].
  - intros text Ho. rewrite Hf. apply findall1_none. exact Ho.
  - intros pre w v post Hw Hv Hno. rewrite !Hf.
    apply findall_named_step; assumption.
  - intros values Hv. rewrite Hf. apply findall_name_lines; assumption.
Qed.

(** C4: [permissions] holds the value of every match of
    [uses-permission: name='...'], as [re.findall] takes them: one after
    the other from left to right, each search starting where the last
    match ended; the values come in the order of the text and a value
    that is there twice is kept twice.  The same holds for [features]
    with [uses-feature:] and for [implied_features] with
    [uses-implied-feature:].  A text with [uses-permission: name='P1']
    twice gives [P1] twice. *)
Theorem names_all_matches :
  collects_names isalnum permissions "uses-permission:"
  /\ collects_names isalnum features "uses-feature:"
  /\ collects_names isalnum implied_features "uses-implied-feature:"
  /\ permissions (parse text_permission_twice)
     = [of_string "P1"; of_string "P1"].
Proof.
  split; [|split; [|split]].
  - apply collects_names_of; [intros text|intros s]; reflexivity.
  - apply collects_names_of; [intros text|intros s]; reflexivity.
  - apply collects_names_of; [intros text|intros s]; reflexivity.
  - vm_compute. reflexivity.
Qed.

(** *** Runs of tokens *)

Lemma all_space_no_quote sep : all_space sep -> ~ In quote sep.
Proof. intros H Hin. specialize (H _ Hin). discriminate. Qed.

Lemma spaced_token_items items : spaced_tokens items -> token_items items.
Proof.
  unfold spaced_tokens, token_items. intros H.
  eapply Forall_impl; [|exact H]. intros it [H1 H2].
  split; [exact H1|apply all_space_no_quote; exact H2].
Qed.

(** One round of the run: a token and the white space after it. *)
Lemma first_token_round tok sep s c :
  quotable tok -> all_space sep -> stops isalnum (CSet false [ISpace]) s ->
  first_match isalnum
    (cat [lit "'"; Plus true notq; lit "'"; Star true ws])
    (quote :: tok ++ quote :: sep ++ s) c
  = Some (s, c).
Proof.
  intros [Ht1 Ht2] Hsep Hs. unfold lit. cbn [cat].
  eapply first_seq; [apply (first_str isalnum [quote])|].
  eapply first_seq.
  { apply (first_plus_class isalnum _ tok (quote :: sep ++ s));
      [exact Ht1|apply forall_notq; exact Ht2|reflexivity]. }
  eapply first_seq; [apply (first_str isalnum [quote])|].
  apply first_star_class; [apply forall_ws; exact Hsep|exact Hs].
Qed.

Lemma stops_ws_render items post :
  run_ends post ->
  stops isalnum (CSet false [ISpace]) (render_tokens items ++ post).
Proof.
  intros Hp. destruct items as [|it items]; simpl.
  - destruct post as [|c post]; [exact I|]. destruct Hp as [_ Hp].
    simpl. rewrite orb_false_r. exact Hp.
  - reflexivity.
Qed.

Lemma first_star_tokens items post c :
  spaced_tokens items -> run_ends post ->
  first_match isalnum
    (Star true (cat [lit "'"; Plus true notq; lit "'"; Star true ws]))
    (render_tokens items ++ post) c
  = Some (post, c).
Proof.
  intros Hit Hp. induction Hit as [|[tok sep] items [Ht Hs] _ IH].
  - simpl. apply first_star_stop. unfold lit. cbn [cat].
    apply mtch_str_fail. destruct post as [|x post]; [reflexivity|].
    destruct Hp as [Hx _]. cbn [of_string startswith].
    change (N_of_ascii "'"%char) with quote.
    apply N.eqb_neq in Hx. rewrite N.eqb_sym in Hx. rewrite Hx. reflexivity.
  - simpl render_tokens. rewrite <- !app_assoc. simpl app.
    eapply first_star_step.
    + rewrite <- app_assoc. simpl app. rewrite <- app_assoc.
      apply first_token_round;
        [exact Ht|exact Hs|apply stops_ws_render; exact Hp].
    + simpl. rewrite !length_app. simpl. rewrite !length_app. lia.
    + exact IH.
Qed.

Lemma first_token_run items post c :
  items <> [] -> spaced_tokens items -> run_ends post ->
  first_match isalnum token_run (render_tokens items ++ post) c
  = Some (post, c).
Proof.
  intros Hne Hit Hp. destruct items as [|[tok sep] items]; [contradiction|].
  inversion Hit as [|? ? [Ht Hs] Hit']; subst.
  unfold token_run, Plus. simpl render_tokens. rewrite <- !app_assoc.
  simpl app. eapply first_seq.
  - rewrite <- app_assoc. simpl app. rewrite <- app_assoc.
    apply first_token_round;
      [exact Ht|exact Hs|apply stops_ws_render; exact Hp].
  - apply first_star_tokens; assumption.
Qed.

Lemma first_run_after marker w items post :
  spaces w -> items <> [] -> spaced_tokens items -> run_ends post ->
  first_match isalnum (re_run_after marker)
    (of_string marker ++ w ++ render_tokens items ++ post) []
  = Some (post, [(1%nat, render_tokens items)]).
Proof.
  intros [Hw1 Hw2] Hne Hit Hp. unfold re_run_after, lit. cbn [cat].
  eapply first_seq; [apply first_str|].
  eapply first_seq.
  { apply first_plus_class; [exact Hw1|apply forall_ws; exact Hw2|].
    destruct items as [|it items]; [contradiction|reflexivity]. }
  rewrite <- (consumed_app (render_tokens items) post) at 2.
  apply first_group. apply first_token_run; assumption.
Qed.

Lemma reads_token_run_of field marker :
  (forall text,
     field (parse text) =
     match search (re_run_after marker) text with
     | Some m => findall1 isalnum re_quoted (group 1 m)
     | None => []
     end) ->
  reads_token_run isalnum field marker.
Proof.
  intros Hf. split.
  - intros text Ho. rewrite Hf. apply search_none in Ho. rewrite Ho.
    reflexivity.
  - intros pre w items post Hw Hne Hit Hp Hno. rewrite Hf.
    rewrite (search_first isalnum (re_run_after marker) pre _ post
               [(1%nat, render_tokens items)] Hno).
    + unfold group. simpl getcap.
      rewrite <- (app_nil_l (render_tokens items)).
      apply findall_render_tokens; [intros []|].
      apply spaced_token_items. exact Hit.
    + apply first_run_after; assumption.
Qed.

(** C5, as the code has it: [supports_screens], [densities] and [locales]
    are each read from the first place where the marker of the field is
    followed by white space and a run of quoted tokens.  The field holds
    the tokens of that run, in order, and nothing else; it is empty when
    no such place exists.  The run is the longest sequence of quoted
    tokens with optional white space between them, and a line break is
    white space: the run goes on over the end of the line when the next
    line begins with a quoted token, as in the text with [densities: '160']
    on one line and ['240'] on the next, which gives [160] and [240]. *)
Theorem token_runs_after_markers :
  reads_token_run isalnum supports_screens "supports-screens:"
  /\ reads_token_run isalnum densities "densities:"
  /\ reads_token_run isalnum locales "locales:"
  /\ densities (parse text_densities_two_lines)
     = [of_string "160"; of_string "240"].
Proof.
  split; [|split; [|split]].
  - apply reads_token_run_of. intros text. reflexivity.
  - apply reads_token_run_of. intros text. reflexivity.
  - apply reads_token_run_of. intros text. reflexivity.
  - vm_compute. reflexivity.
Qed.

(** *** The groups of the matches of [findall] *)

Lemma scan_adv_groups r n adv s m :
  scan_adv isalnum r adv s = Some m ->
  (sets_group r n = true -> getcap n (m_caps m) <> None) /\
  (forall v, getcap n (m_caps m) = Some v -> group_lang isalnum r n v).
Proof.
  unfold scan_adv. destruct (match_here isalnum r adv s) as [m'|] eqn:E.
  - intros H. inversion H; subst m'. clear H. revert E. unfold match_here.
    destruct (filter _ (mtch isalnum r s [])) as [|sc l] eqn:Ef;
      [discriminate|].
    intros H. inversion H; subst m. simpl. clear H.
    assert (Hin : In sc (filter
              (fun sc : str * caps =>
                 negb adv || (length (fst sc) <? length s)%nat)
              (mtch isalnum r s []))) by (rewrite Ef; left; reflexivity).
    apply filter_In in Hin. destruct Hin as [Hin _]. destruct sc as [s1 c1].
    simpl. split.
    + intros Hs. eapply caps_set; eassumption.
    + intros v Hv. destruct (caps_sound isalnum n r _ _ _ _ _ Hin Hv) as [H|H];
        [discriminate|exact H].
  - destruct s as [|x s]; [discriminate|]. apply scan_groups.
Qed.

Lemma finditer_groups r n : forall fuel adv s m,
  In m (finditer_fuel isalnum fuel r adv s) ->
  (sets_group r n = true -> getcap n (m_caps m) <> None) /\
  (forall v, getcap n (m_caps m) = Some v -> group_lang isalnum r n v).
Proof.
  induction fuel as [|fuel IH]; intros adv s m H; [destruct H|].
  simpl in H. destruct (scan_adv isalnum r adv s) as [m'|] eqn:E;
    [|destruct H].
  destruct H as [<-|H].
  - eapply scan_adv_groups. exact E.
  - eapply IH. exact H.
Qed.

Lemma icon_key_numeric text k :
  In k (map fst (findall2 isalnum re_icon text)) -> numeric k.
Proof.
  unfold findall2. rewrite map_map. simpl. intros H.
  apply in_map_iff in H. destruct H as [m [<- Hm]].
  destruct (finditer_groups re_icon 1 _ _ _ _ Hm) as [H1 H2].
  unfold group. destruct (getcap 1 (m_caps m)) as [v|] eqn:E.
  - specialize (H2 v eq_refl). revert H2.
    unfold re_icon, lit, Plus, notq. cbn [cat group_lang]. intros H.
    repeat match type of H with
           | _ \/ _ => destruct H as [H|H]
           | False => destruct H
           | (1%nat = 2%nat) /\ _ => destruct H as [H _]; discriminate
           | _ /\ _ => destruct H as [_ H]
           end.
    apply (lang_plus_chr isalnum true) in H. destruct H as [Hne Hd].
    split; [exact Hne|]. apply forallb_forall. rewrite Forall_forall in Hd.
    intros c Hc. specialize (Hd c Hc). simpl in Hd.
    rewrite orb_false_r in Hd. exact Hd.
  - exfalso. apply H1; reflexivity.
Qed.

Lemma int_digits_some k : forall acc,
  forallb is_digit k = true -> int_digits acc k <> None.
Proof.
  induction k as [|c k IH]; intros acc H; simpl; [discriminate|].
  simpl in H. apply andb_prop in H. destruct H as [Hc Hk].
  rewrite Hc. apply IH. exact Hk.
Qed.

Lemma too_long_spec max_str_digits k :
  too_long max_str_digits k = false <->
  (length k <= 640 \/ max_str_digits = 0 \/ length k <= max_str_digits)%nat.
Proof.
  unfold too_long.
  destruct (Nat.ltb_spec 640 (length k)) as [H1|H1],
    (Nat.ltb_spec 0 max_str_digits) as [H2|H2],
    (Nat.ltb_spec max_str_digits (length k)) as [H3|H3]; simpl;
    split; intros H; try reflexivity; try discriminate; lia.
Qed.

Lemma numeric_digits_value k : numeric k -> digits_value k <> None.
Proof.
  intros [Hne Hd]. unfold digits_value. destruct k as [|c k]; [contradiction|].
  apply int_digits_some. exact Hd.
Qed.

Lemma keyed_items_some max_str_digits d :
  (forall k, In k (dict_keys d) -> numeric k) ->
  (forall k, In k (dict_keys d) -> too_long max_str_digits k = false) ->
  keyed_items max_str_digits d <> None.
Proof.
  induction d as [|[k v] d IH]; intros Hn Hl; simpl; [discriminate|].
  unfold py_int. rewrite (Hl k (or_introl eq_refl)).
  destruct (digits_value k) eqn:E;
    [|exfalso; exact (numeric_digits_value k (Hn k (or_introl eq_refl)) E)].
  destruct (keyed_items max_str_digits d) eqn:E'; [discriminate|].
  apply IH; intros k0 Hk0; [apply Hn|apply Hl]; right; exact Hk0.
Qed.

Lemma keyed_items_too_long max_str_digits d k :
  In k (dict_keys d) -> too_long max_str_digits k = true ->
  keyed_items max_str_digits d = None.
Proof.
  induction d as [|[k' v] d IH]; intros Hk Hl; [destruct Hk|].
  cbn [keyed_items fst]. destruct Hk as [Hk|Hk].
  - simpl in Hk. subst k'. unfold py_int. rewrite Hl. reflexivity.
  - rewrite (IH Hk Hl). destruct (py_int max_str_digits k'); reflexivity.
Qed.

Lemma sorted_icons_some max_str_digits d :
  (forall k, In k (dict_keys d) -> numeric k) ->
  (forall k, In k (dict_keys d) -> too_long max_str_digits k = false) ->
  sorted_icons max_str_digits d <> None.
Proof.
  intros Hn Hl. unfold sorted_icons.
  assert (Hk := keyed_items_some max_str_digits d Hn Hl).
  destruct (keyed_items max_str_digits d); [discriminate|contradiction].
Qed.

Lemma sorted_icons_too_long max_str_digits d k :
  In k (dict_keys d) -> too_long max_str_digits k = true ->
  sorted_icons max_str_digits d = None.
Proof.
  intros Hk Hl. unfold sorted_icons.
  rewrite (keyed_items_too_long max_str_digits d k Hk Hl). reflexivity.
Qed.

(** C6, as the code has it: [icons] is a mapping from density to path,
    keyed by the numeric density string of the matches of
    [application-icon-<density>:'<path>'].  It has one entry for each
    density that is matched, not one for each match: a density never
    appears twice among the keys, a key is there exactly when a match has
    it, and its path is the path of the last match with that density.
    When the matched densities are all different, the entries are the
    matches, in order.  The keys are non-empty runs of digits, so sorting
    them as numbers fails only on a key with more digits than the
    interpreter converts to a number (more than 4300, unless the limit
    was changed).  For the icons of density 48 and 192 the mapping has
    these two entries and the numeric sort puts 48 first, whichever comes
    first in the text and whatever the limit is. *)
Theorem icons_by_density (max_str_digits : nat) (text : str) :
  let i := parse text in
  let found := findall2 isalnum re_icon text in
  NoDup (dict_keys (icons i))
  /\ (forall k, In k (dict_keys (icons i)) <-> In k (map fst found))
  /\ (forall k, dict_get k (icons i) = dict_get k (rev found))
  /\ (NoDup (map fst found) -> icons i = found)
  /\ (forall k, In k (dict_keys (icons i)) -> numeric k)
  /\ (sorted_icons max_str_digits (icons i) <> None <->
      forall k, In k (dict_keys (icons i)) ->
                (length k <= 640 \/ max_str_digits = 0
                 \/ length k <= max_str_digits)%nat)
  /\ icons (parse text_icons_48_192)
     = [(of_string "48", of_string "res/icon48.png");
        (of_string "192", of_string "res/icon192.png")]
  /\ sorted_icons max_str_digits (icons (parse text_icons_48_192))
     = Some [(of_string "48", of_string "res/icon48.png");
             (of_string "192", of_string "res/icon192.png")]
  /\ icons (parse text_icons_192_48)
     = [(of_string "192", of_string "res/icon192.png");
        (of_string "48", of_string "res/icon48.png")]
  /\ sorted_icons max_str_digits (icons (parse text_icons_192_48))
     = Some [(of_string "48", of_string "res/icon48.png");
             (of_string "192", of_string "res/icon192.png")].
Proof.
  cbv zeta.
  change (icons (parse text))
    with (dict_fill (findall2 isalnum re_icon text) []).
  destruct (dict_fill_keys (findall2 isalnum re_icon text) [] (NoDup_nil _))
    as [Hnd Hkeys].
  assert (Hin : forall k,
            In k (dict_keys (dict_fill (findall2 isalnum re_icon text) []))
            <-> In k (map fst (findall2 isalnum re_icon text))).
  { intros k. rewrite Hkeys. simpl. tauto. }
  assert (Hnum : forall k,
            In k (dict_keys (dict_fill (findall2 isalnum re_icon text) []))
            -> numeric k).
  { intros k Hk. apply (icon_key_numeric text). apply Hin. exact Hk. }
  split; [exact Hnd|]. split; [exact Hin|]. split; [|split; [|split; [|split]]].
  - intros k. rewrite dict_get_fill.
    destruct (dict_get k (rev (findall2 isalnum re_icon text))); reflexivity.
  - intros H. rewrite dict_fill_distinct; [reflexivity|exact H|].
    intros k _. reflexivity.
  - exact Hnum.
  - split.
    + intros Hs k Hk. apply too_long_spec.
      destruct (too_long max_str_digits k) eqn:E; [|reflexivity].
      exfalso. apply Hs.
      exact (sorted_icons_too_long max_str_digits _ k Hk E).
    + intros Hl. apply sorted_icons_some; [exact Hnum|].
      intros k Hk. apply too_long_spec. apply Hl. exact Hk.
  - repeat split; vm_compute; reflexivity.
Qed.

End Collections.

(** *** Equal records *)

Lemma list_eqb_refl l : list_eqb l l = true.
Proof.
  induction l as [|x l IH]; simpl; [reflexivity|].
  rewrite str_eqb_refl. exact IH.
Qed.

Lemma dict_get_in k v d :
  NoDup (dict_keys d) -> In (k, v) d -> dict_get k d = Some v.
Proof.
  induction d as [|[k' v'] d IH]; intros Hnd Hin; [destruct Hin|].
  simpl in Hnd. inversion Hnd as [|? ? Hk Hnd']; subst. simpl.
  destruct Hin as [E|Hin].
  - inversion E; subst. rewrite str_eqb_refl. reflexivity.
  - destruct (str_eqb k k') eqn:E.
    + apply str_eqb_eq in E. subst k'. exfalso. apply Hk.
      apply in_map_iff. exists (k, v). split; [reflexivity|exact Hin].
    + apply IH; assumption.
Qed.

Lemma dict_eqb_refl d : NoDup (dict_keys d) -> dict_eqb d d = true.
Proof.
  intros Hnd. unfold dict_eqb. rewrite Nat.eqb_refl. simpl.
  apply forallb_forall. intros [k v] Hin. simpl.
  rewrite (dict_get_in k v d Hnd Hin). apply str_eqb_refl.
Qed.

Lemma info_eqb_parse isalnum text :
  info_eqb (parse_aapt2_output isalnum text) (parse_aapt2_output isalnum text)
  = true.
Proof.
  unfold info_eqb. rewrite !str_eqb_refl, !list_eqb_refl. simpl.
  rewrite !dict_eqb_refl; [reflexivity| |].
  - apply (dict_fill_keys (findall2 isalnum re_icon text) [] (NoDup_nil _)).
  - apply (dict_fill_keys (findall2 isalnum re_label_locale text) []
             (NoDup_nil _)).
Qed.

(** *** The store *)

Local Open Scope nat_scope.

Lemma nth_error_base (h F : store) j :
  nth_error (h ++ F) (length h + j) = nth_error F j.
Proof.
  rewrite nth_error_app2 by lia. f_equal. lia.
Qed.

Lemma upd_base (h F : store) j o :
  upd (length h + j) o (h ++ F) = h ++ upd j o F.
Proof.
  induction h as [|x h IH]; [reflexivity|]. simpl. f_equal. exact IH.
Qed.

Lemma upd_same (F : store) : forall j o,
  nth_error F j = Some o -> upd j o F = F.
Proof.
  induction F as [|x F IH]; intros [|j] o H; try discriminate H; simpl.
  - simpl in H. inversion H. reflexivity.
  - f_equal. apply IH. exact H.
Qed.

Lemma upd_upd (F : store) : forall j o1 o2,
  upd j o2 (upd j o1 F) = upd j o2 F.
Proof.
  induction F as [|x F IH]; intros [|j] o1 o2; simpl; try reflexivity.
  f_equal. apply IH.
Qed.

Lemma nth_error_upd_same (F : store) : forall j o o',
  nth_error F j = Some o' -> nth_error (upd j o F) j = Some o.
Proof.
  induction F as [|x F IH]; intros [|j] o o' H; try discriminate H; simpl.
  - reflexivity.
  - eapply IH. exact H.
Qed.

Lemma nth_error_upd_other (F : store) : forall i j o,
  i <> j -> nth_error (upd j o F) i = nth_error F i.
Proof.
  induction F as [|x F IH]; intros [|i] [|j] o H; simpl; try reflexivity.
  - contradiction.
  - apply IH. intros E. apply H. f_equal. exact E.
Qed.

Lemma upd_app (F : store) o' : forall j o,
  (j < length F)%nat -> upd j o (F ++ [o']) = upd j o F ++ [o'].
Proof.
  induction F as [|x F IH]; intros [|j] o H; simpl in *; try lia.
  - reflexivity.
  - f_equal. apply IH. lia.
Qed.

Lemma field_set_same k v fs : field_get k fs = Some v -> field_set k v fs = fs.
Proof.
  induction fs as [|[k' v'] fs IH]; simpl; [discriminate|].
  destruct (String.eqb k k'); intros H.
  - inversion H. reflexivity.
  - f_equal. apply IH. exact H.
Qed.

(** The steps of a computation, on a store that is [h] followed by the
    objects [F]. *)
Lemma run_bind (A B : Type) (m : M A) (f : A -> M B) s a s' r :
  m s = Some (a, s') -> f a s' = r -> bind m f s = r.
Proof. intros H1 H2. unfold bind. rewrite H1. exact H2. Qed.

Lemma run_start (A : Type) (m : M A) h r : m (h ++ []) = r -> m h = r.
Proof. rewrite app_nil_r. exact (fun H => H). Qed.

Lemma run_alloc o (h F : store) :
  alloc o (h ++ F) = Some ((length h + length F)%nat, h ++ (F ++ [o])).
Proof. unfold alloc. rewrite length_app, app_assoc. reflexivity. Qed.

Lemma run_load (h F : store) j o :
  nth_error F j = Some o -> load (length h + j) (h ++ F) = Some (o, h ++ F).
Proof. intros H. unfold load. rewrite nth_error_base, H. reflexivity. Qed.

Lemma run_store_at (h F : store) j o o' :
  nth_error F j = Some o' ->
  store_at (length h + j) o (h ++ F) = Some (tt, h ++ upd j o F).
Proof.
  intros H. unfold store_at. rewrite nth_error_base, H, upd_base. reflexivity.
Qed.

Lemma run_get_item (h F : store) j fs k v :
  nth_error F j = Some (OInfo fs) -> field_get k fs = Some v ->
  get_item (length h + j) k (h ++ F) = Some (v, h ++ F).
Proof.
  intros H Hk. unfold get_item.
  eapply run_bind; [apply run_load; exact H|]. simpl. rewrite Hk. reflexivity.
Qed.

Lemma run_get_str (h F : store) j fs k v :
  nth_error F j = Some (OInfo fs) -> field_get k fs = Some (VStr v) ->
  get_str (length h + j) k (h ++ F) = Some (v, h ++ F).
Proof.
  intros H Hk. unfold get_str.
  eapply run_bind; [eapply run_get_item; eassumption|]. reflexivity.
Qed.

Lemma run_get_ref (h F : store) j fs k l :
  nth_error F j = Some (OInfo fs) -> field_get k fs = Some (VRef l) ->
  get_ref (length h + j) k (h ++ F) = Some (l, h ++ F).
Proof.
  intros H Hk. unfold get_ref.
  eapply run_bind; [eapply run_get_item; eassumption|]. reflexivity.
Qed.

Lemma run_set_item (h F : store) j fs k v :
  nth_error F j = Some (OInfo fs) ->
  set_item (length h + j) k v (h ++ F)
  = Some (tt, h ++ upd j (OInfo (field_set k v fs)) F).
Proof.
  intros H. unfold set_item.
  eapply run_bind; [apply run_load; exact H|]. simpl.
  eapply run_store_at. exact H.
Qed.

Lemma run_dict_store (h F : store) j d k v :
  nth_error F j = Some (ODict d) ->
  dict_store (length h + j) k v (h ++ F)
  = Some (tt, h ++ upd j (ODict (dict_set k v d)) F).
Proof.
  intros H. unfold dict_store.
  eapply run_bind; [apply run_load; exact H|]. simpl.
  eapply run_store_at. exact H.
Qed.

Lemma run_dict_lookup (h F : store) j d k :
  nth_error F j = Some (ODict d) ->
  dict_lookup (length h + j) k (h ++ F) = Some (dict_get k d, h ++ F).
Proof.
  intros H. unfold dict_lookup.
  eapply run_bind; [apply run_load; exact H|]. reflexivity.
Qed.

Lemma run_list_extend (h F : store) j items xs :
  nth_error F j = Some (OList items) ->
  list_extend (length h + j) xs (h ++ F)
  = Some (tt, h ++ upd j (OList (items ++ xs)) F).
Proof.
  intros H. unfold list_extend.
  eapply run_bind; [apply run_load; exact H|]. simpl.
  eapply run_store_at. exact H.
Qed.

Lemma run_assign_field (h F : store) j fs k m n old :
  nth_error F j = Some (OInfo fs) -> field_get k fs = Some (VStr old) ->
  assign_field (length h + j) k m n (h ++ F)
  = Some (tt, h ++ upd j (OInfo (field_set k (VStr (assign_group m n old)) fs))
                      F).
Proof.
  intros H Hk. destruct m as [m|]; simpl.
  - apply run_set_item. exact H.
  - rewrite (field_set_same k _ fs Hk), (upd_same F j _ H). reflexivity.
Qed.

Lemma run_assign_package (h F : store) j fs m o1 o2 o3 :
  nth_error F j = Some (OInfo fs) ->
  field_get "package_name" fs = Some (VStr o1) ->
  field_get "version_code" fs = Some (VStr o2) ->
  field_get "version_name" fs = Some (VStr o3) ->
  assign_package (length h + j) m (h ++ F)
  = Some (tt,
          h ++ upd j
                 (OInfo
                    (field_set "version_name" (VStr (assign_group m 3 o3))
                       (field_set "version_code" (VStr (assign_group m 2 o2))
                          (field_set "package_name"
                             (VStr (assign_group m 1 o1)) fs)))) F).
Proof.
  intros H H1 H2 H3. destruct m as [m|]; simpl.
  - eapply run_bind; [apply run_set_item; exact H|].
    eapply run_bind;
      [apply run_set_item; eapply nth_error_upd_same; exact H|].
    cbv beta. rewrite upd_upd.
    rewrite (run_set_item h _ j _ _ _ (nth_error_upd_same F j _ _ H)).
    rewrite upd_upd. reflexivity.
  - rewrite (field_set_same _ _ fs H1), (field_set_same _ _ fs H2),
      (field_set_same _ _ fs H3), (upd_same F j _ H). reflexivity.
Qed.

Lemma run_for_each_fill (h : store) j jd fs field : forall pairs F d,
  jd <> j ->
  nth_error F j = Some (OInfo fs) ->
  field_get field fs = Some (VRef (length h + jd)) ->
  nth_error F jd = Some (ODict d) ->
  for_each pairs
    (fun kv : str * str =>
       d <- get_ref (length h + j) field ;; dict_store d (fst kv) (snd kv))
    (h ++ F)
  = Some (tt, h ++ upd jd (ODict (dict_fill pairs d)) F).
Proof.
  induction pairs as [|[k v] pairs IH]; intros F d Hne H Hf Hd.
  - simpl. rewrite (upd_same F jd _ Hd). reflexivity.
  - cbn [for_each].
    eapply run_bind.
    { eapply run_bind; [eapply run_get_ref; eassumption|].
      apply run_dict_store. exact Hd. }
    cbn [fst snd].
    rewrite (IH (upd jd (ODict (dict_set k v d)) F) (dict_set k v d) Hne).
    + rewrite upd_upd. reflexivity.
    + rewrite nth_error_upd_other by (intros E; apply Hne; symmetry; exact E).
      exact H.
    + exact Hf.
    + eapply nth_error_upd_same. exact Hd.
Qed.

Lemma run_pick (h : store) j jd fs d : forall prefs F cur,
  nth_error F j = Some (OInfo fs) ->
  field_get "app_name_labels" fs = Some (VRef (length h + jd)) ->
  field_get "app_name" fs = Some (VStr cur) ->
  nth_error F jd = Some (ODict d) ->
  pick_run (length h + j) prefs (h ++ F)
  = Some (tt,
          h ++ upd j
                 (OInfo (field_set "app_name"
                           (VStr (pick_preferred prefs d cur)) fs)) F).
Proof.
  induction prefs as [|pref prefs IH]; intros F cur H Hl Hn Hd.
  - simpl. rewrite (field_set_same _ _ fs Hn), (upd_same F j _ H).
    reflexivity.
  - cbn [pick_run pick_preferred].
    eapply run_bind; [eapply run_get_ref; eassumption|].
    eapply run_bind; [apply run_dict_lookup; exact Hd|].
    destruct (dict_get pref d) as [v|] eqn:Ev; [|apply IH; assumption].
    destruct (truthy v); [|apply IH; assumption].
    eapply run_bind; [eapply run_get_ref; eassumption|].
    eapply run_bind.
    { unfold dict_index.
      eapply run_bind; [apply run_dict_lookup; exact Hd|].
      rewrite Ev. reflexivity. }
    apply run_set_item. exact H.
Qed.

Lemma run_default_name (h F : store) j jd fs d cur g a :
  nth_error F j = Some (OInfo fs) ->
  field_get "app_name_labels" fs = Some (VRef (length h + jd)) ->
  field_get "app_name" fs = Some (VStr cur) ->
  nth_error F jd = Some (ODict d) ->
  default_name (length h + j) g a (h ++ F)
  = Some (tt,
          h ++ upd j
                 (OInfo
                    (field_set "app_name"
                       (VStr (if negb (truthy cur)
                              then py_or
                                     (py_or g
                                        (dict_get_default (of_string "zh") []
                                           d)) a
                              else cur)) fs)) F).
Proof.
  intros H Hl Hn Hd. unfold default_name.
  eapply run_bind; [eapply run_get_str; eassumption|].
  destruct (truthy cur); cbn [negb].
  - rewrite (field_set_same _ _ fs Hn), (upd_same F j _ H). reflexivity.
  - eapply run_bind; [|apply run_set_item; exact H].
    unfold fallback_name, py_or, dict_get_default.
    destruct (truthy g) eqn:Eg.
    + cbv iota. rewrite Eg. reflexivity.
    + eapply run_bind; [eapply run_get_ref; eassumption|].
      eapply run_bind; [apply run_dict_lookup; exact Hd|]. reflexivity.
Qed.

Lemma run_assign_names isalnum (h F : store) j fs k r text :
  nth_error F j = Some (OInfo fs) ->
  assign_names isalnum (length h + j) k r text (h ++ F)
  = Some (tt,
          h ++ (upd j (OInfo (field_set k (VRef (length h + length F)) fs)) F
                ++ [OList (findall1 isalnum r text)])).
Proof.
  intros H. unfold assign_names.
  eapply run_bind; [apply run_alloc|]. cbv beta.
  assert (Hlt : (j < length F)%nat).
  { apply nth_error_Some. rewrite H. discriminate. }
  rewrite (run_set_item h _ j fs).
  - rewrite upd_app by exact Hlt. reflexivity.
  - rewrite nth_error_app1 by exact Hlt. exact H.
Qed.

Lemma run_assign_tokens isalnum (h F : store) j fs k m :
  nth_error F j = Some (OInfo fs) ->
  assign_tokens isalnum (length h + j) k (Some m) (h ++ F)
  = Some (tt,
          h ++ (upd j (OInfo (field_set k (VRef (length h + length F)) fs)) F
                ++ [OList (findall1 isalnum re_quoted (group 1 m))])).
Proof.
  intros H. unfold assign_tokens.
  eapply run_bind; [apply run_alloc|]. cbv beta.
  assert (Hlt : (j < length F)%nat).
  { apply nth_error_Some. rewrite H. discriminate. }
  rewrite (run_set_item h _ j fs).
  - rewrite upd_app by exact Hlt. reflexivity.
  - rewrite nth_error_app1 by exact Hlt. exact H.
Qed.

Lemma run_arch_lines isalnum (h : store) ja : forall lines F archs,
  nth_error F ja = Some (OList archs) ->
  for_each lines (arch_line isalnum (length h + ja)) (h ++ F)
  = Some (tt, h ++ upd ja (OList (scan_archs isalnum lines archs)) F).
Proof.
  induction lines as [|line lines IH]; intros F archs H.
  - simpl. rewrite (upd_same F ja _ H). reflexivity.
  - cbn [for_each]. unfold scan_archs. cbn [fold_left]. fold (scan_archs isalnum).
    unfold arch_line at 1. cbv zeta.
    destruct (is_arch_line (strip line)).
    + eapply run_bind; [apply run_list_extend; exact H|]. cbv beta.
      rewrite (IH _ _ (nth_error_upd_same F ja _ _ H)).
      rewrite upd_upd. reflexivity.
    + eapply run_bind; [reflexivity|]. apply IH. exact H.
Qed.

(** *** Reading in a larger store *)

Lemma nth_error_extend (h k : store) l o :
  nth_error h l = Some o -> nth_error (h ++ k) l = Some o.
Proof.
  intros H. rewrite nth_error_app1; [exact H|].
  apply nth_error_Some. rewrite H. discriminate.
Qed.

Lemma deref_extend (h k : store) v c :
  deref h v = Some c -> deref (h ++ k) v = Some c.
Proof.
  destruct v as [s|l]; simpl; [exact (fun H => H)|].
  destruct (nth_error h l) as [o|] eqn:E; [|discriminate].
  rewrite (nth_error_extend h k l o E). exact (fun H => H).
Qed.

Lemma read_fields_extend (h k : store) fs : forall cs,
  read_fields h fs = Some cs -> read_fields (h ++ k) fs = Some cs.
Proof.
  induction fs as [|kv fs IH]; intros cs H; [exact H|]. simpl in *.
  destruct (deref h (snd kv)) as [c|] eqn:E; [|discriminate].
  destruct (read_fields h fs) as [cs'|]; [|discriminate].
  rewrite (deref_extend h k _ c E), (IH cs' eq_refl). exact H.
Qed.

Lemma read_info_extend (h k : store) r i :
  read_info h r = Some i -> read_info (h ++ k) r = Some i.
Proof.
  unfold read_info. destruct (nth_error h r) as [o|] eqn:E; [|discriminate].
  rewrite (nth_error_extend h k r o E). destruct o as [| |fs]; try discriminate.
  unfold obind. destruct (read_fields h fs) as [cs|] eqn:Ec; [|discriminate].
  rewrite (read_fields_extend h k fs cs Ec). exact (fun H => H).
Qed.

(** *** The run of the parser *)

Lemma run_fill_field isalnum (h F : store) j jd fs field r text d :
  nth_error F j = Some (OInfo fs) ->
  field_get field fs = Some (VRef (length h + jd)) ->
  nth_error F jd = Some (ODict d) ->
  jd <> j ->
  fill_field isalnum (length h + j) field r text (h ++ F)
  = Some (tt, h ++ upd jd (ODict (dict_fill (findall2 isalnum r text) d)) F).
Proof.
  intros H Hf Hd Hne. unfold fill_field.
  exact (run_for_each_fill h j jd fs field _ F d Hne H Hf Hd).
Qed.

Ltac run_op :=
  first
    [ apply run_alloc
    | eapply run_assign_package; reflexivity
    | eapply run_assign_field; reflexivity
    | eapply run_fill_field; [reflexivity|reflexivity|reflexivity|discriminate]
    | eapply run_pick; reflexivity
    | eapply run_default_name; reflexivity
    | eapply run_assign_names; reflexivity
    | eapply run_assign_tokens; reflexivity
    | eapply run_arch_lines; reflexivity
    | eapply run_set_item; reflexivity
    | reflexivity ].

Ltac run_norm :=
  cbv beta zeta delta [entry];
  cbn [length app upd field_set field_get String.eqb Ascii.eqb Bool.eqb
       andb fst snd].

Ltac run_step := eapply run_bind; [run_op|run_norm].

Ltac read_back :=
  unfold read_info, info_refs; rewrite nth_error_base;
  cbn [nth_error obind read_fields deref fst snd flat_map app];
  rewrite ?nth_error_base.

(** On every store the parser returns: it allocates the dictionary
    [info] and the lists and dictionaries of its values after the objects
    that are there, which it leaves as they are; and what is then read at
    the address it returns is the record of the text. *)
Lemma parse_run_spec isalnum text (h : store) :
  exists new,
    parse_run isalnum text h = Some (length h + 9, h ++ new)
    /\ read_info (h ++ new) (length h + 9)
       = Some (parse_aapt2_output isalnum text)
    /\ 9 < length new
    /\ Forall (fun l => length h <= l < length h + length new)
         (info_refs (h ++ new) (length h + 9)).
Proof.
  destruct (re_search isalnum re_screens text) as [ms|] eqn:E1;
    destruct (re_search isalnum re_densities text) as [md|] eqn:E2;
    destruct (re_search isalnum re_locales text) as [ml|] eqn:E3.
  all: eexists; split;
    [apply run_start; unfold parse_run; rewrite ?E1, ?E2, ?E3;
     repeat run_step; reflexivity|].
  all: split;
    [read_back; unfold parse_aapt2_output; rewrite ?E1, ?E2, ?E3;
     reflexivity|].
  all: split; [cbn [length]; lia|].
  all: read_back; cbn [length]; repeat constructor; lia.
Qed.

(** C8: [parse_aapt2_output] is deterministic and leaves every other
    object alone.  Run on any store [h] of objects, it returns the address
    of a new dictionary; the store it leaves is [h], unchanged, followed
    by the objects it made.  The record read at that address is the
    record of the text, whatever [h] held: the result depends on the text
    only, and of the Unicode table of the interpreter only the entries of
    the characters of the text are consulted.  Run again on the same
    text, it returns another dictionary, which holds an equal record (the
    same under [==]), and the first one still holds what it held: the
    two records share no list and no dictionary, and neither shares one
    with an object that was there before. *)
Theorem parse_deterministic (isalnum : char -> bool) (text : str)
    (h : store) :
  exists r1 new1 r2 new2,
    parse_run isalnum text h = Some (r1, h ++ new1)
    /\ parse_run isalnum text (h ++ new1) = Some (r2, (h ++ new1) ++ new2)
    /\ read_info (h ++ new1) r1 = Some (parse_aapt2_output isalnum text)
    /\ read_info ((h ++ new1) ++ new2) r2
       = Some (parse_aapt2_output isalnum text)
    /\ read_info ((h ++ new1) ++ new2) r1
       = Some (parse_aapt2_output isalnum text)
    /\ info_eqb (parse_aapt2_output isalnum text)
         (parse_aapt2_output isalnum text) = true
    /\ r1 <> r2
    /\ Forall (fun l => length h <= l < length (h ++ new1))
         (r1 :: info_refs (h ++ new1) r1)
    /\ Forall (fun l => length (h ++ new1) <= l)
         (r2 :: info_refs ((h ++ new1) ++ new2) r2)
    /\ (forall table,
          (forall x, In x text -> table x = isalnum x) ->
          exists new,
            parse_run table text h = Some (r1, h ++ new) /\
            read_info (h ++ new) r1
            = Some (parse_aapt2_output isalnum text)).
Proof.
  destruct (parse_run_spec isalnum text h) as [new1 [H1 [H2 [H3 H4]]]].
  destruct (parse_run_spec isalnum text (h ++ new1))
    as [new2 [K1 [K2 [K3 K4]]]].
  exists (length h + 9), new1, (length (h ++ new1) + 9), new2.
  split; [exact H1|]. split; [exact K1|]. split; [exact H2|].
  split; [exact K2|].
  split; [apply read_info_extend; exact H2|].
  split; [apply info_eqb_parse|].
  split; [rewrite length_app; lia|].
  split; [|split].
  - constructor; [rewrite length_app; lia|].
    eapply Forall_impl; [|exact H4]. intros l Hl. rewrite length_app. exact Hl.
  - constructor; [lia|].
    eapply Forall_impl; [|exact K4]. intros l Hl. cbv beta in Hl. lia.
  - intros table Ht.
    destruct (parse_run_spec table text h) as [new [T1 [T2 _]]].
    exists new. split; [exact T1|]. rewrite T2. f_equal.
    apply parse_agree. exact Ht.
Qed.

Local Close Scope nat_scope.

(** *** The formatter *)

Lemma numeric_not_placeholder k :
  numeric k -> k <> [] /\ k <> of_string "?".
Proof.
  intros [Hne Hd]. split; [exact Hne|]. intros ->. discriminate.
Qed.

(** C9, as the code has it: [fmt_sdk] returns [<level>(<label>)] when the
    level is a key of the table and is neither empty nor the placeholder
    [?]; the level itself when it is not empty and not a key of the
    table; and [?] when the level is empty or is the placeholder, whatever
    the table holds; [fill_info] passes the placeholder for an empty
    field, and an empty table when none was loaded.  With a table whose
    keys are all numeric, the three clauses of the claim hold as they
    are written. *)
Theorem fmt_sdk_cases (sdk_map : dict) (level : str) :
  (level <> [] -> level <> of_string "?" ->
   forall label,
     dict_get level sdk_map = Some label ->
     fmt_sdk sdk_map level
     = level ++ of_string "(" ++ label ++ of_string ")")
  /\ (level <> [] -> dict_get level sdk_map = None ->
      fmt_sdk sdk_map level = level)
  /\ (level = [] \/ level = of_string "?" ->
      fmt_sdk sdk_map level = of_string "?")
  /\ fmt_sdk_field sdk_map [] = of_string "?"
  /\ (level <> [] -> fmt_sdk_field sdk_map level = fmt_sdk sdk_map level)
  /\ (level <> [] -> fmt_sdk (sdk_map_or_empty None) level = level)
  /\ ((forall k, In k (dict_keys sdk_map) -> numeric k) ->
      fmt_claim sdk_map level).
Proof.
  assert (Hkey : level <> [] -> level <> of_string "?" ->
            forall label, dict_get level sdk_map = Some label ->
            fmt_sdk sdk_map level
            = level ++ of_string "(" ++ label ++ of_string ")").
  { intros Hne Hq label Hl. unfold fmt_sdk.
    destruct level as [|c l]; [contradiction|]. cbn [truthy negb orb].
    apply str_eqb_neq in Hq. rewrite Hq, Hl. reflexivity. }
  assert (Habsent : level <> [] -> dict_get level sdk_map = None ->
            fmt_sdk sdk_map level = level).
  { intros Hne Hl. unfold fmt_sdk.
    destruct level as [|c l]; [contradiction|]. cbn [truthy negb orb].
    destruct (str_eqb (c :: l) (of_string "?")) eqn:E.
    - apply str_eqb_eq in E. symmetry. exact E.
    - rewrite Hl. reflexivity. }
  assert (Hempty : level = [] \/ level = of_string "?" ->
            fmt_sdk sdk_map level = of_string "?").
  { intros [->| ->]; reflexivity. }
  split; [exact Hkey|]. split; [exact Habsent|]. split; [exact Hempty|].
  split; [reflexivity|]. split; [|split].
  - intros Hne. destruct level; [contradiction|reflexivity].
  - intros Hne. unfold fmt_sdk. destruct level as [|c l]; [contradiction|].
    cbn [truthy negb orb sdk_map_or_empty dict_get].
    destruct (str_eqb (c :: l) (of_string "?")) eqn:E; [|reflexivity].
    apply str_eqb_eq in E. symmetry. exact E.
  - intros Hnum. split; [|split].
    + intros label Hl.
      assert (Hin : In level (dict_keys sdk_map)).
      { apply dict_mem_keys. unfold dict_mem. rewrite Hl. reflexivity. }
      destruct (numeric_not_placeholder level (Hnum level Hin)) as [H1 H2].
      apply Hkey; assumption.
    + exact Habsent.
    + intros ->. reflexivity.
Qed.

(* ================================================================== *)
(** * The claims on concrete texts *)

Lemma substring_in l s c : substring l s -> In c l -> In c s.
Proof.
  intros [pre [post ->]] H. apply in_or_app. right.
  apply in_or_app. left. exact H.
Qed.

Lemma ascii_table_ascii : ascii_table ascii_isalnum.
Proof. intros c _. reflexivity. Defined.

Ltac not_in_text :=
  let H := fresh in
  intros H; simpl in H;
  repeat (destruct H as [H|H]; [discriminate H|]); exact H.

(** A text without any pattern is parsed to the initial record, [raw]
    stripped. *)
Lemma parse_total_defaults_witness :
  ~ In quote (of_string "  hello world ") /\
  parse_aapt2_output ascii_isalnum (of_string "  hello world ")
  = init_info (of_string "  hello world ") /\
  raw (parse_aapt2_output ascii_isalnum (of_string "  hello world "))
  = of_string "hello world".
Proof.
  assert (Hq : ~ In quote (of_string "  hello world ")) by not_in_text.
  split; [exact Hq|].
  destruct (parse_total_defaults ascii_isalnum (of_string "  hello world "))
    as (Hraw & _ & _ & _ & _ & _ & _ & _ & _ & _ & _ & _ & _ & _ & _ & _
        & _ & _ & _ & _ & _ & _ & Hzero).
  split; [exact (Hzero Hq)|]. rewrite Hraw. reflexivity.
Defined.

(** The generic label of a text that begins with it is read, and it
    names the text before the label for [zh] and the node label. *)
Lemma app_name_priority_witness :
  assign_group
    (re_search ascii_isalnum re_label_generic text_label_generic_zh_node)
    1 []
  = of_string "B"
  /\ app_name (parse_aapt2_output ascii_isalnum text_label_generic_zh_node)
     = of_string "B".
Proof.
  destruct (app_name_priority ascii_isalnum text_label_generic_zh_node)
    as (_ & _ & _ & _ & _ & Hg & _ & _ & _ & Hex).
  split.
  - apply (Hg [] (of_string "B")
             (nl ++ of_string "application-label-zh:'Z'" ++ nl
              ++ of_string "application: label='C' icon='i.png'")).
    + reflexivity.
    + not_in_text.
    + intros k Hk. inversion Hk.
  - exact (proj1 (Hex ascii_table_ascii)).
Defined.

Ltac quotable_text :=
  split; [discriminate|not_in_text].

Lemma one_line_check s :
  forallb (fun c => negb (is_linebreak c)) s = true -> one_line s.
Proof.
  intros H c Hc Hb. rewrite forallb_forall in H. specialize (H c Hc).
  apply is_linebreak_boundary in Hb. rewrite Hb in H. discriminate H.
Defined.

(** An indented architecture line: the tokens of the trimmed line. *)
Lemma architectures_by_line_witness :
  architectures
    (parse_aapt2_output ascii_isalnum
       ([9; 32] ++ of_string "native-code: 'arm64-v8a' 'x86'" ++ [32; 32]))
  = [of_string "arm64-v8a"; of_string "x86"].
Proof.
  destruct (architectures_by_line ascii_isalnum) as (H & _ & _ & Hr & _).
  destruct (H ([9; 32] ++ of_string "native-code: 'arm64-v8a' 'x86'"
               ++ [32; 32])
              [9; 32] (of_string "native-code: 'arm64-v8a' 'x86'") [32; 32]
              eq_refl) as [Hm _].
  - apply one_line_check. reflexivity.
  - intros c [<-|[<-|[]]]; reflexivity.
  - intros c [<-|[<-|[]]]; reflexivity.
  - right. split.
    + exists 110, (of_string "ative-code: 'arm64-v8a' 'x86'").
      split; reflexivity.
    + exists (of_string "native-code: 'arm64-v8a' 'x86"), 39.
      split; reflexivity.
  - rewrite Hm.
    + apply (Hr (of_string "native-code: ")
               [(of_string "arm64-v8a", of_string " ");
                (of_string "x86", [])]).
      * not_in_text.
      * repeat constructor; try discriminate; simpl; not_in_text.
    + left. exists (of_string " 'arm64-v8a' 'x86'"). reflexivity.
Defined.

(** Two lines for the same permission give it twice. *)
Lemma names_all_matches_witness :
  permissions
    (parse_aapt2_output ascii_isalnum
       (flat_map (name_line "uses-permission:")
          [of_string "P1"; of_string "P1"]))
  = [of_string "P1"; of_string "P1"].
Proof.
  destruct (names_all_matches ascii_isalnum) as ((_ & _ & _ & H) & _).
  apply H. repeat constructor; try discriminate; not_in_text.
Defined.

(** A run of densities that goes on over a line break. *)
Lemma token_runs_after_markers_witness :
  densities
    (parse_aapt2_output ascii_isalnum
       ([] ++ of_string "densities:" ++ of_string " "
        ++ render_tokens [(of_string "160", nl); (of_string "240", [])]
        ++ []))
  = [of_string "160"; of_string "240"].
Proof.
  destruct (token_runs_after_markers ascii_isalnum) as (_ & (_ & H) & _).
  apply (H [] (of_string " ")
           [(of_string "160", nl); (of_string "240", [])] []).
  - split; [discriminate|]. intros c [<-|[]]. reflexivity.
  - discriminate.
  - constructor; [split; [quotable_text|intros c [<-|[]]; reflexivity]|].
    constructor; [split; [quotable_text|intros c []]|constructor].
  - exact I.
  - intros k Hk. inversion Hk.
Defined.

(** Two icons of different densities: the entries are the matches. *)
Lemma icons_by_density_witness :
  NoDup (map fst (findall2 ascii_isalnum re_icon text_icons_48_192)) /\
  icons (parse_aapt2_output ascii_isalnum text_icons_48_192)
  = findall2 ascii_isalnum re_icon text_icons_48_192.
Proof.
  assert (Hnd : NoDup (map fst
                  (findall2 ascii_isalnum re_icon text_icons_48_192))).
  { change (NoDup [of_string "48"; of_string "192"]).
    repeat constructor; simpl; intros H;
      repeat (destruct H as [H|H]; [discriminate H|]); exact H. }
  split; [exact Hnd|].
  destruct (icons_by_density ascii_isalnum 4300 text_icons_48_192)
    as (_ & _ & _ & H & _).
  exact (H Hnd).
Defined.

(** The first colon-form occurrence is read; the equals form is not. *)
Lemma sdk_levels_colon_form_witness :
  min_sdk (parse_aapt2_output ascii_isalnum
             (of_string "v minSdkVersion:'21' minSdkVersion:'23'"))
  = of_string "21" /\
  min_sdk (parse_aapt2_output ascii_isalnum (of_string "minSdkVersion='21'"))
  = [].
Proof.
  split.
  - destruct (sdk_levels_colon_form ascii_isalnum
                (of_string "v minSdkVersion:'21' minSdkVersion:'23'"))
      as (H & _).
    apply (H (of_string "21")); [discriminate|].
    exists (of_string "v "), (of_string " minSdkVersion:'23'").
    split; [reflexivity|]. split; [quotable_text|].
    intros k Hk. apply match_here_none.
    destruct k as [|[|k]]; [reflexivity|reflexivity|].
    exfalso. simpl in Hk. lia.
  - destruct (sdk_levels_colon_form ascii_isalnum
                (of_string "minSdkVersion='21'"))
      as (_ & _ & _ & _ & H & _).
    apply H. intros Hs.
    assert (Hc : In 58 (of_string "minSdkVersion='21'")).
    { apply (substring_in (of_string "minSdkVersion:'") _ 58 Hs).
      simpl. tauto. }
    revert Hc. not_in_text.
Defined.

(** Two runs on the text of the architectures, from the empty store:
    two dictionaries, the same record in both. *)
Lemma parse_deterministic_witness :
  exists r1 new1 r2 new2,
    parse_run ascii_isalnum text_native_code [] = Some (r1, new1)
    /\ parse_run ascii_isalnum text_native_code new1
       = Some (r2, new1 ++ new2)
    /\ read_info (new1 ++ new2) r1 = read_info (new1 ++ new2) r2
    /\ r1 <> r2.
Proof.
  destruct (parse_deterministic ascii_isalnum text_native_code [])
    as [r1 [new1 [r2 [new2 (H1 & H2 & _ & H4 & H5 & _ & H7 & _)]]]].
  exists r1, new1, r2, new2.
  split; [exact H1|]. split; [exact H2|]. split; [|exact H7].
  exact (eq_trans H5 (eq_sym H4)).
Defined.

(** A level of the table, a level that is not there, an empty field. *)
Lemma fmt_sdk_cases_witness :
  fmt_sdk [(of_string "34", of_string "14")] (of_string "34")
  = of_string "34(14)" /\
  fmt_sdk [(of_string "34", of_string "14")] (of_string "35")
  = of_string "35".
Proof.
  split.
  - destruct (fmt_sdk_cases [(of_string "34", of_string "14")]
                (of_string "34")) as (H & _).
    apply (H ltac:(discriminate) ltac:(discriminate) (of_string "14")).
    reflexivity.
  - destruct (fmt_sdk_cases [(of_string "34", of_string "14")]
                (of_string "35")) as (_ & H & _).
    apply H; [discriminate|reflexivity].
Defined.

(** A package line without [versionCode] leaves [package_name] empty. *)
Lemma package_fields_all_or_nothing_witness :
  ~ substring (of_string "versionCode='") (of_string "package: name='X'") /\
  package_name
    (parse_aapt2_output ascii_isalnum (of_string "package: name='X'"))
  = [].
Proof.
  assert (Hs : ~ substring (of_string "versionCode='")
                 (of_string "package: name='X'")).
  { intros Hs.
    assert (Hc : In 67 (of_string "package: name='X'")).
    { apply (substring_in (of_string "versionCode='") _ 67 Hs).
      simpl. tauto. }
    revert Hc. not_in_text. }
  split; [exact Hs|].
  destruct (package_fields_all_or_nothing ascii_isalnum
              (of_string "package: name='X'")) as (_ & H & _).
  exact (H Hs).
Defined.

(** *** Where the claims as written fail *)

(** Against C5 as written: the densities of the two-line text are [160]
    and [240], and no line of the text holds both tokens. *)
Lemma densities_from_two_lines :
  ~ from_one_line ascii_isalnum densities "densities:"
      text_densities_two_lines.
Proof.
  intros [H|[line [Hin [_ H]]]].
  - vm_compute in H. discriminate H.
  - change (splitlines text_densities_two_lines)
      with [of_string "densities: '160'"; of_string "'240'"] in Hin.
    destruct Hin as [<-|[<-|[]]]; vm_compute in H; discriminate H.
Qed.

(** Against C6 as written: two matches with the density 48 leave one
    entry. *)
Lemma icon_twice_one_entry :
  ~ one_entry_per_match ascii_isalnum text_icon_twice.
Proof. intros H. vm_compute in H. discriminate H. Qed.

(** Against C9 as written: the placeholder is a key of the table and is
    still formatted as [?]. *)
Lemma fmt_placeholder_key :
  ~ fmt_claim table_with_placeholder (of_string "?").
Proof.
  intros [H _]. specialize (H (of_string "x") eq_refl).
  vm_compute in H. discriminate H.
Qed.

(* ================================================================== *)
(** * More of the parser *)

(** ** The other single values *)

Section SingleValues.

Variable isalnum : char -> bool.

Local Abbreviation parse := (parse_aapt2_output isalnum).
Local Abbreviation search := (re_search isalnum).
Local Abbreviation occurs := (occurs isalnum).

Lemma reads_quoted_after_of field marker :
  (forall text,
     field (parse text)
     = assign_group (search (quoted_after marker) text) 1 []) ->
  reads_quoted_after isalnum field marker.
Proof.
  intros Hf. split.
  - intros text v Hne. rewrite Hf. apply quoted_after_field. exact Hne.
  - intros text. rewrite Hf. apply quoted_after_empty.
Qed.

(** X1: the platform build version name and code, the compile SDK
    version and its codename are each read from the first match of
    [<attribute>='...']: the field is a non-empty [v] exactly when that
    first match is the attribute, [v] and the closing quote, and it is
    empty exactly when the pattern does not occur. *)
Theorem build_fields_first_match :
  reads_quoted_after isalnum platform_build_version_name
    "platformBuildVersionName='"
  /\ reads_quoted_after isalnum platform_build_version_code
       "platformBuildVersionCode='"
  /\ reads_quoted_after isalnum compile_sdk_version "compileSdkVersion='"
  /\ reads_quoted_after isalnum compile_sdk_codename
       "compileSdkVersionCodename='".
Proof.
  split; [|split; [|split]];
    apply reads_quoted_after_of; intros text; reflexivity.
Qed.

(** *** [supports-any-density] *)

Lemma first_any_density w v s :
  spaces w -> quotable v ->
  first_match isalnum re_any_density
    (of_string "supports-any-density:" ++ w ++ of_string "'" ++ v
     ++ of_string "'" ++ s) []
  = Some (s, [(1%nat, v)]).
Proof.
  intros [Hw1 Hw2] [Hv1 Hv2]. unfold re_any_density, lit. cbn [cat].
  eapply first_seq; [apply first_str|].
  eapply first_seq.
  { apply first_plus_class; [exact Hw1|apply forall_ws; exact Hw2|reflexivity]. }
  eapply first_seq; [apply first_str|].
  eapply first_seq; [|apply first_str].
  rewrite <- (consumed_app v (of_string "'" ++ s)) at 2.
  apply first_group. apply first_plus_class.
  - exact Hv1.
  - apply forall_notq. exact Hv2.
  - reflexivity.
Qed.

Lemma any_density_group_quotable n v :
  group_lang isalnum re_any_density n v -> quotable v.
Proof.
  unfold re_any_density, lit, Plus, ws, notq. cbn [cat group_lang]. intros H.
  repeat match type of H with
         | _ \/ _ => destruct H as [H|H]
         | False => destruct H
         | _ /\ _ => destruct H as [_ H]
         end; apply (proj1 (lang_quotable isalnum true v) H).
Qed.

(** X2: [supports_any_density] is the quoted value that follows the
    first [supports-any-density:] and white space: where the first match
    of the pattern is the marker, white space and ['v'], the field is
    [v]; the field is never a string with a quote, and it is empty
    exactly when the pattern does not occur. *)
Theorem any_density_first_match (text : str) :
  (forall pre w v post,
     text = pre ++ of_string "supports-any-density:" ++ w ++ of_string "'"
            ++ v ++ of_string "'" ++ post ->
     spaces w -> quotable v ->
     no_match_before isalnum re_any_density (length pre) text ->
     supports_any_density (parse text) = v)
  /\ (supports_any_density (parse text) = [] <->
      ~ occurs re_any_density text).
Proof.
  change (supports_any_density (parse text))
    with (assign_group (search re_any_density text) 1 []).
  split.
  - intros pre w v post -> Hw Hv Hno.
    rewrite (search_first isalnum re_any_density pre _ post [(1%nat, v)] Hno).
    + reflexivity.
    + apply first_any_density; assumption.
  - split.
    + intros H Ho. destruct (search re_any_density text) as [m|] eqn:E.
      * assert (Hq : quotable (group 1 m)).
        { eapply group_quotable;
            [exact E|reflexivity|apply any_density_group_quotable]. }
        simpl in H. destruct Hq as [Hq _]. contradiction.
      * apply search_none in E. contradiction.
    + apply assign_group_none.
Qed.

(** *** The launchable activity *)

(** An optional part that has no group [n] leaves group [n] as it is. *)
Lemma first_opt_keeps x n s c v :
  (forall w, ~ group_lang isalnum x n w) ->
  getcap n c = Some v ->
  exists s' c',
    first_match isalnum (Opt x) s c = Some (s', c') /\ getcap n c' = Some v.
Proof.
  intros Hx Hc. unfold first_match, Opt. simpl.
  destruct (mtch isalnum x s c) as [|[s1 c1] l] eqn:E.
  - exists s, c. split; [reflexivity|exact Hc].
  - exists s1, c1. split; [reflexivity|].
    assert (Hin : In (s1, c1) (mtch isalnum x s c))
      by (rewrite E; left; reflexivity).
    destruct (getcap n c1) as [v1|] eqn:E1.
    + destruct (caps_sound isalnum n x _ _ _ _ _ Hin E1) as [H|H].
      * congruence.
      * exfalso. exact (Hx _ H).
    + exfalso. apply (caps_keep isalnum n x _ _ _ _ Hin); congruence.
Qed.

Lemma first_launchable w v s :
  spaces w -> clean v ->
  exists s' c',
    first_match isalnum re_launchable
      (of_string "launchable-activity:" ++ w ++ of_string "name='" ++ v
       ++ of_string "'" ++ s) []
    = Some (s', c')
    /\ getcap 1 c' = Some v.
Proof.
  intros [Hw1 Hw2] Hv.
  destruct (first_opt_keeps
              (cat [Plus true ws; lit "label='"; Group 2 (Star true notq);
                    lit "'"])
              1 s [(1%nat, v)] v) as [s' [c' [Hf Hc]]].
  { unfold lit, Plus, ws, notq. cbn [cat group_lang]. intros w0 H.
    repeat match type of H with
           | _ \/ _ => destruct H as [H|H]
           | False => destruct H
           | _ /\ _ => destruct H as [H _]; discriminate H
           end. }
  { reflexivity. }
  exists s', c'. split; [|exact Hc].
  unfold re_launchable, lit. cbn [cat].
  eapply first_seq; [apply first_str|].
  eapply first_seq.
  { apply first_plus_class; [exact Hw1|apply forall_ws; exact Hw2|reflexivity]. }
  eapply first_seq; [apply first_str|].
  eapply first_seq with (s1 := of_string "'" ++ s) (c1 := [(1%nat, v)]).
  { rewrite <- (consumed_app v (of_string "'" ++ s)) at 2.
    apply first_group. apply first_star_class.
    - apply forall_notq. exact Hv.
    - reflexivity. }
  eapply first_seq; [apply first_str|]. exact Hf.
Qed.

(** X3: [launchable_activity] is the name of the first
    [launchable-activity:] entry: where the first match of the pattern
    begins with the marker, white space and [name='v'], the field is [v],
    whatever follows (a label or anything else), and [v] may be empty;
    the field is empty when the pattern does not occur. *)
Theorem launchable_first_match (text : str) :
  (forall pre w v post,
     text = pre ++ of_string "launchable-activity:" ++ w
            ++ of_string "name='" ++ v ++ of_string "'" ++ post ->
     spaces w -> clean v ->
     no_match_before isalnum re_launchable (length pre) text ->
     launchable_activity (parse text) = v)
  /\ (~ occurs re_launchable text -> launchable_activity (parse text) = []).
Proof.
  change (launchable_activity (parse text))
    with (assign_group (search re_launchable text) 1 []).
  split.
  - intros pre w v post -> Hw Hv Hno.
    destruct (first_launchable w v post Hw Hv) as [s' [c' [Hf Hc]]].
    rewrite (search_first isalnum re_launchable pre _ s' c' Hno Hf).
    unfold assign_group, group. cbn [m_caps]. rewrite Hc. reflexivity.
  - apply assign_group_none.
Qed.

End SingleValues.

(** ** What the fields can hold *)

Ltac group_lang_inv H :=
  cbn [cat group_lang] in H;
  repeat match type of H with
         | _ \/ _ => destruct H as [H|H]
         | False => destruct H
         | group_lang _ notq _ _ => unfold notq in H; cbn [group_lang] in H
         | group_lang _ (Plus _ _) _ _ =>
             unfold Plus in H; cbn [group_lang] in H
         | group_lang _ ws _ _ => unfold ws in H; cbn [group_lang] in H
         | _ = _ /\ _ =>
             first [ let E := fresh in destruct H as [E _]; discriminate E
                   | destruct H as [_ H] ]
         end.

Section Invariants.

Variable isalnum : char -> bool.

Local Abbreviation parse := (parse_aapt2_output isalnum).
Local Abbreviation search := (re_search isalnum).

(** *** Groups of [search] and of [findall] with a property *)

Lemma search_group_prop (P : str -> Prop) r n text :
  P [] ->
  (forall v, group_lang isalnum r n v -> P v) ->
  P (assign_group (search r text) n []).
Proof.
  intros Hnil Hg. destruct (search r text) as [m|] eqn:E; [|exact Hnil].
  destruct (scan_groups isalnum r n text m E) as [_ H].
  unfold assign_group, group. destruct (getcap n (m_caps m)) as [v|];
    [apply Hg, H; reflexivity|exact Hnil].
Qed.

Lemma finditer_group_prop (P : str -> Prop) r n text m :
  In m (finditer isalnum r text) ->
  sets_group r n = true ->
  (forall v, group_lang isalnum r n v -> P v) ->
  P (group n m).
Proof.
  intros Hm Hs Hg.
  destruct (finditer_groups isalnum r n _ _ _ _ Hm) as [H1 H2].
  unfold group. destruct (getcap n (m_caps m)) as [v|] eqn:E.
  - apply Hg, H2. reflexivity.
  - exfalso. apply (H1 Hs). reflexivity.
Qed.

Lemma findall1_prop (P : str -> Prop) r text :
  sets_group r 1 = true ->
  (forall v, group_lang isalnum r 1 v -> P v) ->
  Forall P (findall1 isalnum r text).
Proof.
  intros Hs Hg. unfold findall1. apply Forall_forall. intros v Hv.
  apply in_map_iff in Hv. destruct Hv as [m [<- Hm]].
  eapply finditer_group_prop; eassumption.
Qed.

Lemma findall2_prop (P Q : str -> Prop) r text :
  sets_group r 1 = true -> sets_group r 2 = true ->
  (forall v, group_lang isalnum r 1 v -> P v) ->
  (forall v, group_lang isalnum r 2 v -> Q v) ->
  Forall (fun kv => P (fst kv) /\ Q (snd kv)) (findall2 isalnum r text).
Proof.
  intros Hs1 Hs2 Hg1 Hg2. unfold findall2. apply Forall_forall. intros kv Hkv.
  apply in_map_iff in Hkv. destruct Hkv as [m [<- Hm]]. simpl. split.
  - eapply finditer_group_prop; eassumption.
  - eapply finditer_group_prop; eassumption.
Qed.

(** *** The groups of the patterns *)

Lemma lang_notq_star_clean v : Lang isalnum (Star true notq) v -> clean v.
Proof.
  intros H. apply (lang_star_chr isalnum true) in H.
  apply forall_notq in H. exact H.
Qed.

Lemma quotable_clean v : quotable v -> clean v.
Proof. intros [_ H]. exact H. Qed.

Lemma quoted_after_group_quotable marker n v :
  group_lang isalnum (quoted_after marker) n v -> quotable v.
Proof.
  unfold quoted_after, lit, Plus, ws, notq. intros H. group_lang_inv H.
  apply (proj1 (lang_quotable isalnum true v) H).
Qed.

Lemma named_after_group_quotable marker n v :
  group_lang isalnum (named_after marker) n v -> quotable v.
Proof.
  unfold named_after, lit, Plus, ws, notq. intros H. group_lang_inv H.
  apply (proj1 (lang_quotable isalnum true v) H).
Qed.

Lemma launchable_group_clean v :
  group_lang isalnum re_launchable 1 v -> clean v.
Proof.
  unfold re_launchable, lit, Plus, Opt, ws. intros H. group_lang_inv H.
  apply lang_notq_star_clean. exact H.
Qed.

Lemma label_generic_group_clean v :
  group_lang isalnum re_label_generic 1 v -> clean v.
Proof.
  unfold re_label_generic, lit. intros H. group_lang_inv H.
  apply lang_notq_star_clean. exact H.
Qed.

Lemma label_app_group_clean v :
  group_lang isalnum re_label_app 1 v -> clean v.
Proof.
  unfold re_label_app, lit, Plus, ws. intros H. group_lang_inv H.
  apply lang_notq_star_clean. exact H.
Qed.

Lemma label_locale_key v :
  group_lang isalnum re_label_locale 1 v -> v <> [].
Proof.
  unfold re_label_locale, lit. intros H. group_lang_inv H.
  apply (lang_plus_chr isalnum true) in H. apply H.
Qed.

Lemma label_locale_value_clean v :
  group_lang isalnum re_label_locale 2 v -> clean v.
Proof.
  unfold re_label_locale, lit. intros H. group_lang_inv H.
  apply lang_notq_star_clean. exact H.
Qed.

Lemma icon_group_numeric v : group_lang isalnum re_icon 1 v -> numeric v.
Proof.
  unfold re_icon, lit. intros H. group_lang_inv H.
  apply (lang_plus_chr isalnum true) in H. destruct H as [Hne Hd].
  split; [exact Hne|]. apply forallb_forall. rewrite Forall_forall in Hd.
  intros c Hc. specialize (Hd c Hc). simpl in Hd.
  rewrite orb_false_r in Hd. exact Hd.
Qed.

Lemma icon_group_path v : group_lang isalnum re_icon 2 v -> quotable v.
Proof.
  unfold re_icon, lit. intros H. group_lang_inv H.
  apply (proj1 (lang_quotable isalnum true v) H).
Qed.

(** *** Dictionaries filled with pairs that have a property *)

Lemma dict_set_forall (P : str * str -> Prop) k v d :
  Forall P d -> P (k, v) -> Forall P (dict_set k v d).
Proof.
  intros Hd Hkv. induction Hd as [|[k' v'] d Hx Hd IH]; simpl.
  - constructor; [exact Hkv|constructor].
  - destruct (str_eqb k k') eqn:E.
    + apply str_eqb_eq in E. subst k'. constructor; assumption.
    + constructor; assumption.
Qed.

Lemma dict_fill_forall (P : str * str -> Prop) pairs : forall d,
  Forall P d -> Forall P pairs -> Forall P (dict_fill pairs d).
Proof.
  unfold dict_fill. induction pairs as [|[k v] pairs IH]; intros d Hd Hp.
  - exact Hd.
  - inversion Hp; subst. simpl. apply IH; [|assumption].
    apply dict_set_forall; assumption.
Qed.

Lemma dict_get_some_in k v d : dict_get k d = Some v -> In (k, v) d.
Proof.
  induction d as [|[k' v'] d IH]; simpl; [discriminate|].
  destruct (str_eqb k k') eqn:E.
  - apply str_eqb_eq in E. subst k'. intros H. inversion H; subst.
    left. reflexivity.
  - intros H. right. apply IH. exact H.
Qed.

Lemma pick_preferred_value prefs labels a :
  pick_preferred prefs labels a = a \/
  exists k, In (k, pick_preferred prefs labels a) labels.
Proof.
  induction prefs as [|p prefs IH]; simpl; [left; reflexivity|].
  destruct (dict_get p labels) as [v|] eqn:E; [|exact IH].
  destruct (truthy v); [|exact IH].
  right. exists p. apply dict_get_some_in. exact E.
Qed.

Lemma py_or_clean a b : clean a -> clean b -> clean (py_or a b).
Proof. intros Ha Hb. unfold py_or. destruct (truthy a); assumption. Qed.

Lemma labels_forall text :
  Forall (fun kv => fst kv <> [] /\ clean (snd kv))
         (app_name_labels (parse text)).
Proof.
  change (app_name_labels (parse text))
    with (dict_fill (findall2 isalnum re_label_locale text) []).
  apply dict_fill_forall; [constructor|].
  apply (findall2_prop (fun k => k <> []) clean); try reflexivity.
  - apply label_locale_key.
  - apply label_locale_value_clean.
Qed.

Lemma app_name_clean text : clean (app_name (parse text)).
Proof.
  assert (Hlab := labels_forall text). rewrite Forall_forall in Hlab.
  assert (Hval : forall k v, In (k, v) (app_name_labels (parse text)) ->
                             clean v).
  { intros k v Hin. apply (Hlab (k, v) Hin). }
  assert (Hget : forall k, clean (dict_get_default k []
                                    (app_name_labels (parse text)))).
  { intros k. unfold dict_get_default.
    destruct (dict_get k (app_name_labels (parse text))) as [v|] eqn:E.
    - apply (Hval k). apply dict_get_some_in. exact E.
    - intros []. }
  assert (Hgen : clean (assign_group (search re_label_generic text) 1 [])).
  { apply search_group_prop; [intros []|apply label_generic_group_clean]. }
  assert (Hnode : clean (assign_group (search re_label_app text) 1 [])).
  { apply search_group_prop; [intros []|apply label_app_group_clean]. }
  unfold parse_aapt2_output. cbn [app_name].
  fold (parse text).
  change (dict_fill (findall2 isalnum re_label_locale text)
            (app_name_labels (init_info text)))
    with (app_name_labels (parse text)).
  cbn [init_info app_name].
  assert (Hor : clean (py_or (py_or
                         (assign_group (search re_label_generic text) 1 [])
                         (dict_get_default (of_string "zh") []
                            (app_name_labels (parse text))))
                      (assign_group (search re_label_app text) 1 []))).
  { apply py_or_clean; [apply py_or_clean|]; [exact Hgen|apply Hget|exact Hnode]. }
  destruct (pick_preferred_value preferred_locales
              (app_name_labels (parse text)) []) as [Hp|[k Hp]].
  - rewrite Hp. cbn [truthy negb]. exact Hor.
  - destruct (truthy (pick_preferred preferred_locales
                        (app_name_labels (parse text)) [])) eqn:Et.
    + cbn [negb]. apply (Hval k). exact Hp.
    + cbn [negb]. exact Hor.
Qed.

Lemma field_clean r n text :
  (forall v, group_lang isalnum r n v -> quotable v) ->
  clean (assign_group (search r text) n []).
Proof.
  intros H. apply search_group_prop; [intros []|].
  intros v Hv. apply quotable_clean, H, Hv.
Qed.

Lemma token_field_quotable r text :
  Forall quotable
    match search r text with
    | Some m => findall1 isalnum re_quoted (group 1 m)
    | None => []
    end.
Proof.
  destruct (search r text) as [m|]; [|constructor].
  apply findall1_prop; [reflexivity|].
  apply (quoted_after_group_quotable "'"%string).
Qed.

Lemma architectures_quotable text : Forall quotable (architectures (parse text)).
Proof.
  unfold parse_aapt2_output. cbn [architectures]. rewrite scan_archs_app.
  simpl app. apply Forall_forall. intros v Hv.
  apply in_flat_map in Hv. destruct Hv as [line [_ Hv]].
  destruct (is_arch_line (strip line)); [|destruct Hv].
  assert (H : Forall quotable (findall1 isalnum re_quoted (strip line))).
  { apply findall1_prop; [reflexivity|].
    apply (quoted_after_group_quotable "'"%string). }
  rewrite Forall_forall in H. apply H. exact Hv.
Qed.

(** X4: a quote never gets into a field.  Whatever the text, no string
    field of the record holds a quote (only [raw] can), every collected
    value (permissions, features, implied features, screens, densities,
    locales, architectures) is a non-empty string without a quote, the
    keys of the labels are not empty and their values hold no quote, and
    the keys of the icons are numeric with non-empty paths without a
    quote. *)
Theorem parse_clean (text : str) : clean_info (parse text).
Proof.
  unfold clean_info. split; [|split; [|split]].
  - split; [exact (field_clean re_package 1 text
                     (package_groups_quotable isalnum 1))|].
    split; [exact (field_clean re_package 3 text
                     (package_groups_quotable isalnum 3))|].
    split; [exact (field_clean re_package 2 text
                     (package_groups_quotable isalnum 2))|].
    split; [exact (field_clean re_platform_name 1 text
                     (quoted_after_group_quotable _ 1))|].
    split; [exact (field_clean re_platform_code 1 text
                     (quoted_after_group_quotable _ 1))|].
    split; [exact (field_clean re_compile 1 text
                     (quoted_after_group_quotable _ 1))|].
    split; [exact (field_clean re_compile_codename 1 text
                     (quoted_after_group_quotable _ 1))|].
    split; [exact (field_clean re_min_sdk 1 text
                     (quoted_after_group_quotable _ 1))|].
    split; [exact (field_clean re_target_sdk 1 text
                     (quoted_after_group_quotable _ 1))|].
    split; [apply app_name_clean|].
    split; [exact (search_group_prop clean re_launchable 1 text
                     (fun H => H) launchable_group_clean)|].
    exact (field_clean re_any_density 1 text
             (any_density_group_quotable isalnum 1)).
  - split; [exact (findall1_prop quotable re_permission text eq_refl
                     (named_after_group_quotable _ 1))|].
    split; [exact (findall1_prop quotable re_feature text eq_refl
                     (named_after_group_quotable _ 1))|].
    split; [exact (findall1_prop quotable re_implied_feature text eq_refl
                     (named_after_group_quotable _ 1))|].
    split; [exact (token_field_quotable re_screens text)|].
    split; [exact (token_field_quotable re_densities text)|].
    split; [exact (token_field_quotable re_locales text)|].
    apply architectures_quotable.
  - apply labels_forall.
  - change (icons (parse text))
      with (dict_fill (findall2 isalnum re_icon text) []).
    apply dict_fill_forall; [constructor|].
    apply (findall2_prop numeric quotable); try reflexivity.
    + apply icon_group_numeric.
    + apply icon_group_path.
Qed.

End Invariants.

(** ** The order of the keys *)

Lemma set_mem_dict_keys k d : set_mem k (dict_keys d) = dict_mem k d.
Proof.
  unfold set_mem, dict_mem. induction d as [|[k' v'] d IH]; simpl.
  - reflexivity.
  - destruct (str_eqb k k'); [reflexivity|exact IH].
Qed.

Lemma first_keys_seen pairs : forall s1 s2,
  (forall x, set_mem x s1 = set_mem x s2) ->
  first_keys s1 pairs = first_keys s2 pairs.
Proof.
  induction pairs as [|[k v] pairs IH]; intros s1 s2 H; simpl.
  - reflexivity.
  - rewrite <- (H k). destruct (set_mem k s1).
    + apply IH. exact H.
    + f_equal. apply IH. intros x. unfold set_mem. simpl.
      unfold set_mem in H. rewrite (H x). reflexivity.
Qed.

Lemma dict_fill_key_order pairs : forall d,
  dict_keys (dict_fill pairs d)
  = dict_keys d ++ first_keys (dict_keys d) pairs.
Proof.
  induction pairs as [|[k v] pairs IH]; intros d.
  - simpl. symmetry. apply app_nil_r.
  - change (dict_fill ((k, v) :: pairs) d)
      with (dict_fill pairs (dict_set k v d)).
    rewrite IH, dict_keys_set. simpl first_keys.
    rewrite set_mem_dict_keys. destruct (dict_mem k d) eqn:E.
    + reflexivity.
    + rewrite <- app_assoc. simpl. f_equal. f_equal.
      apply first_keys_seen. intros x. unfold set_mem.
      rewrite existsb_app. simpl. rewrite orb_false_r. apply orb_comm.
Qed.

(** X5: the keys of [app_name_labels] and of [icons] stand in the order
    in which the text first gives them: the locales (the densities) of the
    matches, each once, a later match with a key that is already there
    changing the value and not the place. *)
Theorem mappings_in_text_order (isalnum : char -> bool) (text : str) :
  dict_keys (app_name_labels (parse_aapt2_output isalnum text))
  = first_keys [] (findall2 isalnum re_label_locale text)
  /\ dict_keys (icons (parse_aapt2_output isalnum text))
     = first_keys [] (findall2 isalnum re_icon text)
  /\ NoDup (dict_keys (app_name_labels (parse_aapt2_output isalnum text)))
  /\ (forall k,
        In k (dict_keys (app_name_labels (parse_aapt2_output isalnum text)))
        <-> In k (map fst (findall2 isalnum re_label_locale text))).
Proof.
  change (app_name_labels (parse_aapt2_output isalnum text))
    with (dict_fill (findall2 isalnum re_label_locale text) []).
  change (icons (parse_aapt2_output isalnum text))
    with (dict_fill (findall2 isalnum re_icon text) []).
  rewrite !dict_fill_key_order.
  destruct (dict_fill_keys (findall2 isalnum re_label_locale text) []
              (NoDup_nil _)) as [Hnd Hk].
  rewrite dict_fill_key_order in Hnd, Hk.
  split; [reflexivity|]. split; [reflexivity|]. split; [exact Hnd|].
  intros k. rewrite Hk. simpl. split; [intros [[]|H]; exact H|auto].
Qed.

(** ** Architectures and lines *)

Section ArchLines.

Variable isalnum : char -> bool.

(** Every line of [splitlines] is a whole line of the text. *)
Lemma splitlines_from_line : forall n s cur line,
  (length s <= n)%nat ->
  In line (splitlines_from cur s) ->
  (exists s1 s2,
     s = s1 ++ s2 /\ line = rev cur ++ s1 /\
     (forall c, In c s1 -> is_linebreak c = false) /\
     (s2 = [] \/ exists b p, s2 = b :: p /\ is_linebreak b = true))
  \/ (exists pre post,
        s = pre ++ line ++ post /\
        (forall c, In c line -> is_linebreak c = false) /\
        (exists p b, pre = p ++ [b] /\ is_linebreak b = true) /\
        (post = [] \/ exists b p, post = b :: p /\ is_linebreak b = true)).
Proof.
  assert (Hend : forall cur line,
            In line (splitlines_from cur []) ->
            exists s1 s2 : str,
              [] = s1 ++ s2 /\ line = rev cur ++ s1 /\
              (forall c, In c s1 -> is_linebreak c = false) /\
              (s2 = [] \/ exists b p, s2 = b :: p /\ is_linebreak b = true)).
  { intros cur line Hl. simpl in Hl. destruct cur as [|c cur]; [destruct Hl|].
    destruct Hl as [<-|[]]. exists [], [].
    split; [reflexivity|]. split; [symmetry; apply app_nil_r|].
    split; [intros x []|left; reflexivity]. }
  assert (Hnext : forall (x : char) (s line : str),
            is_linebreak x = true ->
            ((exists s1 s2 : str,
                s = s1 ++ s2 /\ line = rev [] ++ s1 /\
                (forall c, In c s1 -> is_linebreak c = false) /\
                (s2 = [] \/
                 exists b p, s2 = b :: p /\ is_linebreak b = true))
             \/ (exists pre post : str,
                   s = pre ++ line ++ post /\
                   (forall c, In c line -> is_linebreak c = false) /\
                   (exists p b, pre = p ++ [b] /\ is_linebreak b = true) /\
                   (post = [] \/
                    exists b p, post = b :: p /\ is_linebreak b = true))) ->
            forall front : str,
            exists pre post : str,
              front ++ x :: s = pre ++ line ++ post /\
              (forall c, In c line -> is_linebreak c = false) /\
              (exists p b, pre = p ++ [b] /\ is_linebreak b = true) /\
              (post = [] \/
               exists b p, post = b :: p /\ is_linebreak b = true)).
  { intros x s line Hx [[s1 [s2 [-> [-> [H1 H2]]]]]
                       |[pre [post [-> [H1 [[p [b [-> Hb]]] H2]]]]]] front.
    - exists (front ++ [x]), s2. rewrite <- app_assoc. simpl.
      split; [reflexivity|]. split; [exact H1|].
      split; [exists front, x; split; [reflexivity|exact Hx]|exact H2].
    - exists (front ++ x :: p ++ [b]), post. rewrite <- !app_assoc. simpl.
      rewrite <- !app_assoc. split; [reflexivity|]. split; [exact H1|].
      split; [|exact H2]. exists (front ++ x :: p), b.
      rewrite <- app_assoc. split; [reflexivity|exact Hb]. }
  induction n as [|n IH]; intros s cur line Hn Hl.
  - destruct s; [|simpl in Hn; lia]. left. apply Hend. exact Hl.
  - destruct s as [|x s]; [left; apply Hend; exact Hl|].
    simpl in Hn. simpl in Hl. destruct (is_linebreak x) eqn:Ex.
    + destruct Hl as [<-|Hl].
      * left. exists [], (x :: s).
        split; [reflexivity|]. split; [symmetry; apply app_nil_r|].
        split; [intros c []|]. right. exists x, s.
        split; [reflexivity|exact Ex].
      * right. destruct s as [|d s]; [destruct Hl|].
        destruct ((x =? 13) && (d =? 10)) eqn:E.
        -- apply andb_prop in E. destruct E as [_ E].
           apply N.eqb_eq in E. subst d.
           apply (Hnext 10 s line eq_refl
                    (IH s [] line ltac:(simpl in Hn; lia) Hl) [x]).
        -- apply (Hnext x (d :: s) line Ex
                    (IH (d :: s) [] line ltac:(simpl in *; lia) Hl) []).
    + destruct (IH s (x :: cur) line ltac:(lia) Hl)
        as [[s1 [s2 [-> [-> [H1 H2]]]]]
           |[pre [post [-> [H1 [[p [b [-> Hb]]] H2]]]]]].
      * left. exists (x :: s1), s2. simpl. rewrite <- app_assoc.
        split; [reflexivity|]. split; [reflexivity|].
        split; [|exact H2]. intros c [<-|Hc]; [exact Ex|apply H1; exact Hc].
      * right. exists (x :: p ++ [b]), post.
        split; [reflexivity|]. split; [exact H1|]. split; [|exact H2].
        exists (x :: p), b. split; [reflexivity|exact Hb].
Qed.

Lemma splitlines_line_of text line :
  In line (splitlines text) -> line_of text line.
Proof.
  intros Hl.
  assert (Hb : forall b, is_linebreak b = true -> In b line_boundaries).
  { intros b. apply is_linebreak_boundary. }
  assert (Hone : forall l : str,
            (forall c, In c l -> is_linebreak c = false) -> one_line l).
  { intros l H c Hc Hin. apply is_linebreak_boundary in Hin.
    rewrite (H c Hc) in Hin. discriminate Hin. }
  assert (Hpost : forall post : str,
            post = [] \/ (exists b p, post = b :: p /\ is_linebreak b = true) ->
            post = [] \/ exists b p, post = b :: p /\ In b line_boundaries).
  { intros post [->|[b [p [-> H]]]]; [left; reflexivity|].
    right. exists b, p. split; [reflexivity|apply Hb; exact H]. }
  destruct (splitlines_from_line (length text) text [] line (le_n _) Hl)
    as [[s1 [s2 [-> [-> [H1 H2]]]]]
       |[pre [post [-> [H1 [[p [b [-> Hp]]] H2]]]]]].
  - exists [], s2. split; [reflexivity|]. split; [apply Hone; exact H1|].
    split; [left; reflexivity|apply Hpost; exact H2].
  - exists (p ++ [b]), post. split; [reflexivity|].
    split; [apply Hone; exact H1|]. split; [|apply Hpost; exact H2].
    right. exists p, b. split; [reflexivity|apply Hb; exact Hp].
Qed.

(** Every match of [finditer] is a way to match at a place of the
    text. *)
Lemma match_here_in r adv s m :
  match_here isalnum r adv s = Some m ->
  m_from m = s /\ In (m_rest m, m_caps m) (mtch isalnum r s []).
Proof.
  unfold match_here.
  destruct (filter _ (mtch isalnum r s [])) as [|sc l] eqn:E; [discriminate|].
  intros H. inversion H; subst m. simpl. split; [reflexivity|].
  assert (Hin : In sc (filter
            (fun sc : str * caps =>
               negb adv || (length (fst sc) <? length s)%nat)
            (mtch isalnum r s []))) by (rewrite E; left; reflexivity).
  apply filter_In in Hin. destruct sc. exact (proj1 Hin).
Qed.

Lemma scan_in r : forall s m,
  scan isalnum r s = Some m ->
  exists pre, s = pre ++ m_from m /\
              In (m_rest m, m_caps m) (mtch isalnum r (m_from m) []).
Proof.
  induction s as [|x s IH]; intros m H; simpl in H.
  - destruct (match_here isalnum r false []) as [m'|] eqn:E; [|discriminate].
    inversion H; subst m'. destruct (match_here_in _ _ _ _ E) as [E1 E2].
    exists []. rewrite E1. split; [reflexivity|exact E2].
  - destruct (match_here isalnum r false (x :: s)) as [m'|] eqn:E.
    + inversion H; subst m'. destruct (match_here_in _ _ _ _ E) as [E1 E2].
      exists []. rewrite E1. split; [reflexivity|exact E2].
    + destruct (IH m H) as [pre [E1 E2]]. exists (x :: pre).
      split; [simpl; f_equal; exact E1|exact E2].
Qed.

Lemma scan_adv_in r adv s m :
  scan_adv isalnum r adv s = Some m ->
  exists pre, s = pre ++ m_from m /\
              In (m_rest m, m_caps m) (mtch isalnum r (m_from m) []).
Proof.
  unfold scan_adv. destruct (match_here isalnum r adv s) as [m'|] eqn:E.
  - intros H. inversion H; subst m'.
    destruct (match_here_in _ _ _ _ E) as [E1 E2].
    exists []. rewrite E1. split; [reflexivity|exact E2].
  - destruct s as [|x s]; [discriminate|]. intros H.
    destruct (scan_in r s m H) as [pre [E1 E2]]. exists (x :: pre).
    split; [simpl; f_equal; exact E1|exact E2].
Qed.

Lemma finditer_fuel_in r : forall fuel adv s m,
  In m (finditer_fuel isalnum fuel r adv s) ->
  exists pre, s = pre ++ m_from m /\
              In (m_rest m, m_caps m) (mtch isalnum r (m_from m) []).
Proof.
  induction fuel as [|fuel IH]; intros adv s m H; [destruct H|].
  simpl in H. destruct (scan_adv isalnum r adv s) as [m0|] eqn:E;
    [|destruct H].
  destruct H as [<-|H]; [exact (scan_adv_in r adv s m0 E)|].
  destruct (scan_adv_in r adv s m0 E) as [pre0 [E0 H0]].
  destruct (mtch_sound isalnum r _ _ _ _ H0) as [x [Ex _]].
  destruct (IH _ _ _ H) as [pre [E1 E2]].
  exists (pre0 ++ x ++ pre). split; [|exact E2].
  rewrite E0, Ex, E1, <- !app_assoc. reflexivity.
Qed.

(** A match of the pattern of a quoted token is a quote, the token and a
    quote, and its group is the token. *)
Lemma mtch_quoted_inv s s1 c1 :
  In (s1, c1) (mtch isalnum re_quoted s []) ->
  exists v, s = quote :: v ++ quote :: s1 /\ quotable v /\
            getcap 1 c1 = Some v.
Proof.
  unfold re_quoted, lit. cbn [cat]. intros H.
  change (In (s1, c1)
            (flat_map
               (fun sc =>
                  mtch isalnum (Seq (Group 1 (Plus true notq))
                                  (Str (of_string "'")))
                    (fst sc) (snd sc))
               (mtch isalnum (Str (of_string "'")) s []))) in H.
  apply in_flat_map in H. destruct H as [[s0 c0] [H0 H]].
  cbn [mtch] in H0. destruct (startswith (of_string "'") s) eqn:E0;
    [|destruct H0].
  destruct H0 as [H0|[]]. inversion H0; subst s0 c0. clear H0.
  apply startswith_split in E0. cbn [fst snd] in H.
  change (In (s1, c1)
            (flat_map
               (fun sc => mtch isalnum (Str (of_string "'")) (fst sc) (snd sc))
               (mtch isalnum (Group 1 (Plus true notq))
                  (skipn (length (of_string "'")) s) []))) in H.
  apply in_flat_map in H. destruct H as [[s2 c2] [H2 H]].
  change (In (s2, c2)
            (map (fun sc =>
                    (fst sc,
                     (1%nat, consumed (skipn (length (of_string "'")) s)
                               (fst sc)) :: snd sc))
               (mtch isalnum (Plus true notq)
                  (skipn (length (of_string "'")) s) []))) in H2.
  apply in_map_iff in H2. destruct H2 as [[s3 c3] [E3 H3]].
  inversion E3; subst s2 c2. clear E3.
  destruct (mtch_sound isalnum _ _ _ _ _ H3) as [v [Ev Hv]].
  apply (lang_quotable isalnum) in Hv.
  cbn [mtch fst snd] in H. destruct (startswith (of_string "'") s3) eqn:E1;
    [|destruct H].
  destruct H as [H|[]]. inversion H; subst s1 c1. clear H.
  apply startswith_split in E1.
  exists v. split; [|split; [exact Hv|]].
  - rewrite E0 at 1. rewrite Ev. rewrite E1 at 1. reflexivity.
  - change (getcap 1
              ((1%nat, consumed (skipn (length (of_string "'")) s) s3) :: c3))
      with (Some (consumed (skipn (length (of_string "'")) s) s3)).
    apply (f_equal (@Some str)).
    transitivity (consumed (v ++ s3) s3); [|apply consumed_app].
    apply (f_equal (fun x => consumed x s3)). exact Ev.
Qed.

Lemma findall_quoted_in a s :
  In a (findall1 isalnum re_quoted s) -> quoted_in a s.
Proof.
  unfold findall1, finditer. intros H. apply in_map_iff in H.
  destruct H as [m [<- Hm]].
  destruct (finditer_fuel_in re_quoted _ _ _ _ Hm) as [pre [E H]].
  destruct (mtch_quoted_inv _ _ _ H) as [v [Ev [Hq Hc]]].
  unfold group. rewrite Hc. split; [exact Hq|].
  exists pre, (m_rest m). rewrite E at 1. rewrite Ev. reflexivity.
Qed.

(** X6: an architecture comes from one line.  Every entry of
    [architectures] stands between two quotes in a whole line of the text
    (a part of the text without a line boundary, between line boundaries
    or the ends of the text): in what is left of that line without the
    white space at its two ends, which begins with [native-code:] or
    [alt-native-code:].  So an entry holds no quote and no line boundary:
    a quoted token that is cut by the end of a line is not read, and a
    token of a line that begins otherwise is not read either. *)
Theorem architectures_within_lines (text a : str) :
  In a (architectures (parse_aapt2_output isalnum text)) ->
  exists line l core t,
    line_of text line /\
    line = l ++ core ++ t /\ all_space l /\ all_space t /\ trimmed core /\
    arch_marked core /\
    quoted_in a core /\
    one_line a.
Proof.
  unfold parse_aapt2_output. cbn [architectures]. rewrite scan_archs_app.
  simpl app. intros Ha. apply in_flat_map in Ha.
  destruct Ha as [line [Hl Ha]].
  destruct (is_arch_line (strip line)) eqn:E; [|destruct Ha].
  destruct (strip_stripped line) as [l [t [El [Hsl [Hst Htr]]]]].
  assert (Hline := splitlines_line_of text line Hl).
  assert (Hq := findall_quoted_in a (strip line) Ha).
  exists line, l, (strip line), t.
  split; [exact Hline|]. split; [exact El|]. split; [exact Hsl|].
  split; [exact Hst|]. split; [exact Htr|].
  split; [apply is_arch_line_marked; exact E|]. split; [exact Hq|].
  destruct Hline as [pre [post [_ [Hone _]]]].
  destruct Hq as [_ [x [y Ex]]].
  intros c Hc. apply Hone. rewrite El. apply in_or_app. right.
  apply in_or_app. left. rewrite Ex. apply in_or_app. right. right.
  apply in_or_app. left. exact Hc.
Qed.

End ArchLines.

(* ================================================================== *)
(** * More of the display layer *)

(** ** The icons, sorted *)

Lemma insert_by_key_perm x l : Permutation (insert_by_key x l) (x :: l).
Proof.
  induction l as [|y l IH]; simpl; [apply Permutation_refl|].
  destruct (fst x <=? fst y); [apply Permutation_refl|].
  apply perm_trans with (y :: x :: l); [|apply perm_swap].
  apply perm_skip. exact IH.
Qed.

Lemma sort_by_key_perm l : Permutation (fold_right insert_by_key [] l) l.
Proof.
  induction l as [|x l IH]; simpl; [apply perm_nil|].
  apply perm_trans with (x :: fold_right insert_by_key [] l);
    [apply insert_by_key_perm|apply perm_skip; exact IH].
Qed.

Lemma insert_by_key_sorted x l :
  StronglySorted (fun a b : N * (str * str) => (fst a <= fst b)%N) l ->
  StronglySorted (fun a b : N * (str * str) => (fst a <= fst b)%N)
    (insert_by_key x l).
Proof.
  induction 1 as [|y l Hs IH Hy]; simpl.
  - constructor; constructor.
  - destruct (fst x <=? fst y) eqn:E.
    + apply N.leb_le in E. constructor.
      * constructor; assumption.
      * constructor; [exact E|]. rewrite Forall_forall in Hy |- *.
        intros z Hz. specialize (Hy z Hz). simpl in *. lia.
    + apply N.leb_gt in E. constructor; [exact IH|].
      rewrite Forall_forall in Hy |- *. intros z Hz.
      apply (Permutation_in _ (insert_by_key_perm x l)) in Hz.
      destruct Hz as [<-|Hz]; [simpl; lia|apply Hy; exact Hz].
Qed.

Lemma sort_by_key_sorted l :
  StronglySorted (fun a b : N * (str * str) => (fst a <= fst b)%N)
    (fold_right insert_by_key [] l).
Proof.
  induction l as [|x l IH]; simpl; [constructor|].
  apply insert_by_key_sorted. exact IH.
Qed.

Lemma insert_by_key_filter n x l :
  filter (fun e : N * (str * str) => fst e =? n) (insert_by_key x l)
  = filter (fun e : N * (str * str) => fst e =? n) (x :: l).
Proof.
  induction l as [|y l IH]; [reflexivity|]. simpl insert_by_key.
  destruct (fst x <=? fst y) eqn:E; [reflexivity|].
  apply N.leb_gt in E. simpl. simpl in IH. rewrite IH.
  destruct (fst y =? n) eqn:Ey; [|reflexivity].
  destruct (fst x =? n) eqn:Ex; [|reflexivity].
  apply N.eqb_eq in Ey, Ex. lia.
Qed.

Lemma sort_by_key_filter n l :
  filter (fun e : N * (str * str) => fst e =? n)
    (fold_right insert_by_key [] l)
  = filter (fun e : N * (str * str) => fst e =? n) l.
Proof.
  induction l as [|x l IH]; [reflexivity|]. simpl fold_right.
  rewrite insert_by_key_filter. simpl. rewrite IH. reflexivity.
Qed.

Lemma keyed_items_spec max_str_digits d : forall kl,
  keyed_items max_str_digits d = Some kl ->
  map snd kl = d /\
  Forall (fun e => digits_value (fst (snd e)) = Some (fst e)) kl.
Proof.
  induction d as [|kv d IH]; intros kl H; simpl in H.
  - inversion H; subst. split; [reflexivity|constructor].
  - destruct (py_int max_str_digits (fst kv)) as [n|] eqn:En; [|discriminate].
    destruct (keyed_items max_str_digits d) as [l|]; [|discriminate].
    inversion H; subst. destruct (IH l eq_refl) as [H1 H2]. split.
    + simpl. f_equal. exact H1.
    + constructor; [|exact H2]. simpl. unfold py_int in En.
      destruct (too_long max_str_digits (fst kv)); [discriminate|exact En].
Qed.

Lemma sorted_icons_spec max_str_digits d l :
  sorted_icons max_str_digits d = Some l ->
  Permutation l d /\ StronglySorted density_le l /\
  (forall n, filter (density_is n) l = filter (density_is n) d).
Proof.
  unfold sorted_icons.
  destruct (keyed_items max_str_digits d) as [kl|] eqn:E; [|discriminate].
  intros H. inversion H; subst l. clear H.
  destruct (keyed_items_spec max_str_digits d kl E) as [Hd Hk].
  assert (Hks : Forall (fun e => digits_value (fst (snd e)) = Some (fst e))
                  (fold_right insert_by_key [] kl)).
  { rewrite Forall_forall in Hk |- *. intros e He. apply Hk.
    apply (Permutation_in _ (sort_by_key_perm kl)). exact He. }
  assert (Hfilter : forall n (l0 : list (N * (str * str))),
            Forall (fun e => digits_value (fst (snd e)) = Some (fst e)) l0 ->
            filter (density_is n) (map snd l0)
            = map snd (filter (fun e => fst e =? n) l0)).
  { intros n l0 H0. induction H0 as [|e l0 He _ IH]; [reflexivity|].
    simpl. unfold density_is at 1. rewrite He.
    destruct (fst e =? n); simpl; rewrite IH; reflexivity. }
  split; [|split].
  - rewrite <- Hd. apply Permutation_map. apply sort_by_key_perm.
  - assert (Hs := sort_by_key_sorted kl). revert Hs Hks.
    generalize (fold_right insert_by_key [] kl). intros l0 Hs.
    induction Hs as [|e l0 Hs IH He]; intros H0; simpl; [constructor|].
    inversion H0 as [|? ? Hpe H0']; subst. constructor; [apply IH; exact H0'|].
    rewrite Forall_forall in He, H0' |- *. intros kv Hkv.
    apply in_map_iff in Hkv. destruct Hkv as [e' [<- He']].
    unfold density_le. rewrite Hpe, (H0' e' He'). apply He. exact He'.
  - intros n. rewrite (Hfilter n _ Hks), sort_by_key_filter.
    rewrite <- (Hfilter n kl Hk), Hd. reflexivity.
Qed.

(** X7: the icons are listed by rising density.  When no density of a
    parsed record has more digits than the interpreter converts (at most
    640 digits, or no limit, or at most the limit), the sort by [int] of
    the key succeeds, and its result holds the entries of [icons], each
    once, in the numeric order of their densities (48 before 192),
    entries whose densities are equal as numbers (48 and 048) staying in
    their order.  A density with more digits than that makes the sort
    fail: with the usual limit, one of 4301 digits. *)
Theorem icons_sorted_by_density (isalnum : char -> bool)
    (max_str_digits : nat) (text : str) :
  let d := icons (parse_aapt2_output isalnum text) in
  ((forall k, In k (dict_keys d) ->
              (length k <= 640 \/ max_str_digits = 0
               \/ length k <= max_str_digits)%nat) ->
   exists l,
     sorted_icons max_str_digits d = Some l /\
     Permutation l d /\
     StronglySorted density_le l /\
     (forall n, filter (density_is n) l = filter (density_is n) d))
  /\ (forall k,
        In k (dict_keys d) ->
        (640 < length k)%nat -> (0 < max_str_digits)%nat ->
        (max_str_digits < length k)%nat ->
        sorted_icons max_str_digits d = None).
Proof.
  cbv zeta. split.
  - intros Hl.
    destruct (sorted_icons max_str_digits
                (icons (parse_aapt2_output isalnum text))) as [l|] eqn:E.
    + exists l. split; [reflexivity|].
      apply (sorted_icons_spec max_str_digits). exact E.
    + exfalso. revert E. apply sorted_icons_some.
      * intros k Hk. apply (icon_key_numeric isalnum text).
        destruct (dict_fill_keys (findall2 isalnum re_icon text) []
                    (NoDup_nil _)) as [_ Hkeys].
        apply Hkeys in Hk. destruct Hk as [[]|Hk]. exact Hk.
      * intros k Hk. apply too_long_spec. apply Hl. exact Hk.
  - intros k Hk H1 H2 H3.
    apply (sorted_icons_too_long max_str_digits _ k Hk).
    destruct (too_long max_str_digits k) eqn:E; [reflexivity|].
    apply too_long_spec in E. lia.
Qed.

(** ** The labels shown *)

Lemma set_mem_in k shown : set_mem k shown = true <-> In k shown.
Proof.
  unfold set_mem. rewrite existsb_exists. split.
  - intros [x [Hx E]]. apply str_eqb_eq in E. subst x. exact Hx.
  - intros H. exists k. split; [exact H|apply str_eqb_refl].
Qed.

Lemma set_add_new k shown : ~ In k shown -> set_add k shown = k :: shown.
Proof.
  intros H. unfold set_add. destruct (set_mem k shown) eqn:E; [|reflexivity].
  apply set_mem_in in E. contradiction.
Qed.

Lemma truthy_nonempty v : truthy v = true <-> v <> [].
Proof. destruct v; simpl; split; congruence. Qed.

Lemma preferred_pairs_in labels prefs kv :
  In kv (preferred_pairs labels prefs) ->
  In (fst kv) prefs /\ In kv labels /\ snd kv <> [].
Proof.
  unfold preferred_pairs. intros H. apply in_flat_map in H.
  destruct H as [k [Hk H]].
  destruct (dict_get k labels) as [v|] eqn:E; [|destruct H].
  destruct (truthy v) eqn:Ev; [|destruct H].
  destruct H as [<-|[]]. simpl. split; [exact Hk|]. split.
  - apply dict_get_some_in. exact E.
  - apply truthy_nonempty. exact Ev.
Qed.

Lemma preferred_pairs_nodup labels prefs :
  NoDup prefs -> NoDup (map fst (preferred_pairs labels prefs)).
Proof.
  induction 1 as [|k prefs Hk Hnd IH]; simpl; [constructor|].
  destruct (dict_get k labels) as [v|]; [|exact IH].
  destruct (truthy v); [|exact IH]. simpl. constructor; [|exact IH].
  intros Hin. apply in_map_iff in Hin. destruct Hin as [kv [E Hkv]].
  apply preferred_pairs_in in Hkv. destruct Hkv as [Hp _].
  rewrite E in Hp. contradiction.
Qed.

Lemma preferred_pairs_length labels prefs :
  (length (preferred_pairs labels prefs) <= length prefs)%nat.
Proof.
  unfold preferred_pairs.
  induction prefs as [|k prefs IH]; simpl; [lia|].
  destruct (dict_get k labels) as [v|]; [|simpl; lia].
  destruct (truthy v); simpl; lia.
Qed.

Lemma preferred_pairs_complete labels prefs k v :
  In k prefs -> dict_get k labels = Some v -> truthy v = true ->
  In (k, v) (preferred_pairs labels prefs).
Proof.
  intros Hk Hg Hv. unfold preferred_pairs. apply in_flat_map.
  exists k. split; [exact Hk|]. rewrite Hg, Hv. left. reflexivity.
Qed.

Lemma show_preferred_spec labels prefs : forall other shown,
  NoDup prefs -> (forall k, In k prefs -> ~ In k shown) ->
  show_preferred prefs labels other shown
  = (other ++ map label_line (preferred_pairs labels prefs),
     rev (map fst (preferred_pairs labels prefs)) ++ shown).
Proof.
  induction prefs as [|k prefs IH]; intros other shown Hnd Hfresh.
  - simpl. rewrite app_nil_r. reflexivity.
  - inversion Hnd as [|? ? Hk Hnd']; subst. simpl.
    assert (Hfresh' : forall k', In k' prefs -> ~ In k' shown).
    { intros k' Hk'. apply Hfresh. right. exact Hk'. }
    destruct (dict_get k labels) as [v|]; [|apply IH; assumption].
    destruct (truthy v); [|apply IH; assumption].
    rewrite set_add_new by (apply Hfresh; left; reflexivity).
    rewrite IH; [|exact Hnd'|].
    + simpl. rewrite <- !app_assoc. reflexivity.
    + intros k' Hk' [<-|Hin]; [contradiction|].
      exact (Hfresh' k' Hk' Hin).
Qed.

Lemma show_others_spec limit : forall items other shown,
  NoDup shown ->
  exists rest,
    show_others items limit other shown
    = (other ++ map label_line rest, rev (map fst rest) ++ shown) /\
    NoDup (rev (map fst rest) ++ shown) /\
    Forall (fun kv => In kv items /\ snd kv <> []) rest /\
    (length (rev (map fst rest) ++ shown) <= Nat.max limit (length shown))%nat
    /\ ((limit <= length (rev (map fst rest) ++ shown))%nat \/
        forall kv, In kv items -> snd kv <> [] ->
                   In (fst kv) (rev (map fst rest) ++ shown))
    /\ (NoDup (map fst items) ->
        rest = firstn (limit - length shown)
                 (filter (fun kv => negb (set_mem (fst kv) shown)
                                    && truthy (snd kv)) items)).
Proof.
  induction items as [|kv items IH]; intros other shown Hnd.
  - exists []. simpl. rewrite app_nil_r.
    split; [reflexivity|]. split; [exact Hnd|]. split; [constructor|].
    split; [lia|]. split; [right; intros kv []|].
    intros _. rewrite firstn_nil. reflexivity.
  - simpl. destruct (limit <=? length shown)%nat eqn:El.
    + apply Nat.leb_le in El. exists []. simpl. rewrite app_nil_r.
      split; [reflexivity|]. split; [exact Hnd|]. split; [constructor|].
      split; [lia|]. split; [left; exact El|].
      intros _. replace (limit - length shown)%nat with 0%nat by lia.
      reflexivity.
    + apply Nat.leb_gt in El.
      destruct (negb (set_mem (fst kv) shown) && truthy (snd kv)) eqn:Ec.
      * apply andb_prop in Ec. destruct Ec as [Em Ev].
        apply negb_true_iff in Em.
        assert (Hnew : ~ In (fst kv) shown).
        { intros Hin. apply set_mem_in in Hin. congruence. }
        rewrite set_add_new by exact Hnew.
        destruct (IH (other ++ [label_line kv]) (fst kv :: shown))
          as [rest [H1 [H2 [H3 [H4 [H5 H6]]]]]].
        { constructor; assumption. }
        assert (Eq : rev (map fst rest) ++ fst kv :: shown
                     = rev (map fst (kv :: rest)) ++ shown).
        { simpl. rewrite <- app_assoc. reflexivity. }
        exists (kv :: rest). rewrite <- Eq.
        split; [rewrite H1; simpl; rewrite <- app_assoc; reflexivity|].
        split; [exact H2|]. split.
        { constructor.
          - split; [left; reflexivity|apply truthy_nonempty; exact Ev].
          - eapply Forall_impl; [|exact H3]. intros a [Ha1 Ha2].
            split; [right; exact Ha1|exact Ha2]. }
        split; [simpl length in H4; lia|]. split.
        { destruct H5 as [H5|H5]; [left; exact H5|]. right.
          intros a [<-|Ha] Hne.
          - apply in_or_app. right. left. reflexivity.
          - apply H5; assumption. }
        intros Hk. inversion Hk as [|? ? Hfresh Hk']; subst.
        rewrite (H6 Hk'). simpl length.
        replace (limit - length shown)%nat
          with (S (limit - S (length shown))) by lia.
        simpl. f_equal. f_equal. apply filter_ext_in. intros a Ha.
        unfold set_mem. simpl.
        destruct (str_eqb (fst a) (fst kv)) eqn:E; [|reflexivity].
        apply str_eqb_eq in E. exfalso. apply Hfresh. rewrite <- E.
        apply in_map. exact Ha.
      * destruct (IH other shown Hnd) as [rest [H1 [H2 [H3 [H4 [H5 H6]]]]]].
        exists rest. split; [exact H1|]. split; [exact H2|]. split.
        { eapply Forall_impl; [|exact H3]. intros a [Ha1 Ha2].
          split; [right; exact Ha1|exact Ha2]. }
        split; [exact H4|]. split.
        { destruct H5 as [H5|H5]; [left; exact H5|]. right.
          intros a [<-|Ha] Hne.
          - apply in_or_app.
            destruct (set_mem (fst kv) shown) eqn:Em.
            + right. apply set_mem_in. exact Em.
            + simpl in Ec. apply truthy_nonempty in Hne. congruence.
          - apply H5; assumption. }
        intros Hk. inversion Hk as [|? ? Hfresh Hk']; subst.
        exact (H6 Hk').
Qed.

Lemma others_filter_agree labels a :
  NoDup (dict_keys labels) -> In a labels ->
  negb (set_mem (fst a)
          (rev (map fst (preferred_pairs labels display_preferred))))
  && truthy (snd a)
  = negb (set_mem (fst a) display_preferred) && truthy (snd a).
Proof.
  intros Hnd Ha. destruct (truthy (snd a)) eqn:Ev;
    [|rewrite !andb_false_r; reflexivity].
  rewrite !andb_true_r. f_equal.
  destruct (set_mem (fst a) display_preferred) eqn:E.
  - apply set_mem_in. apply set_mem_in in E. apply in_rev.
    rewrite rev_involutive. apply in_map_iff. exists a.
    split; [reflexivity|]. destruct a as [k v]. cbn [fst snd] in *.
    apply preferred_pairs_complete; [exact E| |exact Ev].
    apply dict_get_in; assumption.
  - destruct (set_mem (fst a)
                (rev (map fst (preferred_pairs labels display_preferred))))
      eqn:E'; [|reflexivity].
    apply set_mem_in in E'. apply in_rev in E'. apply in_map_iff in E'.
    destruct E' as [b [Eb Hb]]. apply preferred_pairs_in in Hb.
    destruct Hb as [Hb _]. rewrite Eb in Hb. apply set_mem_in in Hb.
    congruence.
Qed.

(** X8: the labels [fill_info] shows.  For a non-empty mapping the block
    is an empty line, the heading, and one line per label shown: first
    the preferred locales that have a non-empty label, in the order of
    the list, then other labels in the order of the mapping.  No locale
    is shown twice, every label shown is a non-empty label of the
    mapping, and at most twelve are shown (five more than there are
    preferred locales).  No non-empty label is left out when the mapping
    has at most twelve of them.  The other labels are the non-empty
    labels of the locales that are not preferred, in the order of the
    mapping, cut after as many as make twelve with the preferred ones. *)
Theorem label_block_shape (labels : dict) (other : list str) :
  labels <> [] ->
  exists rest,
    let chosen := preferred_pairs labels display_preferred ++ rest in
    label_block labels other
    = other ++ [[]; labels_header] ++ map label_line chosen
    /\ (length chosen <= 12)%nat
    /\ NoDup (map fst chosen)
    /\ Forall (fun kv => In kv labels /\ snd kv <> []) chosen
    /\ (NoDup (dict_keys labels) ->
        (length (filter (fun kv => truthy (snd kv)) labels) <= 12)%nat ->
        forall kv, In kv labels -> snd kv <> [] -> In kv chosen)
    /\ (NoDup (dict_keys labels) ->
        rest
        = firstn (12 - length (preferred_pairs labels display_preferred))
            (filter (fun kv => negb (set_mem (fst kv) display_preferred)
                               && truthy (snd kv)) labels)).
Proof.
  intros Hne. destruct labels as [|kv0 labels0]; [contradiction|].
  set (labels := kv0 :: labels0) in *.
  assert (Hprefs : NoDup display_preferred).
  { unfold display_preferred.
    repeat (constructor;
            [simpl; intros H;
             repeat (destruct H as [H|H]; [discriminate H|]); exact H|]).
    constructor. }
  unfold label_block. fold labels. cbv zeta.
  rewrite (show_preferred_spec labels display_preferred _ [] Hprefs)
    by (intros k _ []).
  cbn [fst snd]. rewrite app_nil_r.
  set (pp := preferred_pairs labels display_preferred).
  assert (Hpp_nd : NoDup (rev (map fst pp))).
  { apply NoDup_rev. apply preferred_pairs_nodup. exact Hprefs. }
  destruct (show_others_spec (5 + length display_preferred) labels
              ((other ++ [[]; labels_header]) ++ map label_line pp)
              (rev (map fst pp)) Hpp_nd)
    as [rest [H1 [H2 [H3 [H4 [H5 H6]]]]]].
  exists rest. cbv zeta. rewrite H1. cbn [fst].
  assert (Hkeys : rev (map fst rest) ++ rev (map fst pp)
                  = rev (map fst (pp ++ rest))).
  { rewrite map_app, rev_app_distr. reflexivity. }
  rewrite Hkeys in H2, H4, H5.
  assert (Hlen : (length (pp ++ rest) <= 12)%nat).
  { rewrite length_rev, length_map in H4.
    assert (Hp := preferred_pairs_length labels display_preferred).
    fold pp in Hp. rewrite length_rev, length_map in H4.
    change (length display_preferred) with 7%nat in *. lia. }
  assert (Hnd : NoDup (map fst (pp ++ rest))).
  { rewrite <- (rev_involutive (map fst (pp ++ rest))).
    apply NoDup_rev. exact H2. }
  assert (Hall : Forall (fun kv => In kv labels /\ snd kv <> [])
                   (pp ++ rest)).
  { apply Forall_app. split; [|exact H3].
    apply Forall_forall. intros kv Hkv.
    apply preferred_pairs_in in Hkv. tauto. }
  split; [rewrite map_app, <- !app_assoc; reflexivity|].
  split; [exact Hlen|]. split; [exact Hnd|]. split; [exact Hall|].
  split; [|intros Hdict; rewrite (H6 Hdict); rewrite length_rev, length_map;
           change (5 + length display_preferred)%nat with 12%nat;
           f_equal; apply filter_ext_in; intros a Ha;
           apply (others_filter_agree labels a Hdict Ha)].
  intros Hdict Hcount kv Hkv Hv.
  assert (Hshown : In (fst kv) (map fst (pp ++ rest))).
  { destruct H5 as [H5|H5].
    - rewrite length_rev in H5.
      change (length display_preferred) with 7%nat in H5.
      assert (Hincl : incl (map fst (pp ++ rest))
                        (map fst (filter (fun kv => truthy (snd kv)) labels))).
      { intros k Hk. apply in_map_iff in Hk. destruct Hk as [a [<- Ha]].
        rewrite Forall_forall in Hall. destruct (Hall a Ha) as [Ha1 Ha2].
        apply in_map. apply filter_In. split; [exact Ha1|].
        apply truthy_nonempty. exact Ha2. }
      assert (Hback : incl (map fst (filter (fun kv => truthy (snd kv))
                                       labels))
                        (map fst (pp ++ rest))).
      { apply NoDup_length_incl; [exact Hnd| |exact Hincl].
        rewrite !length_map in *. lia. }
      apply Hback. apply in_map. apply filter_In.
      split; [exact Hkv|apply truthy_nonempty; exact Hv].
    - apply in_rev. apply H5; assumption. }
  apply in_map_iff in Hshown. destruct Hshown as [a [Ea Ha]].
  rewrite Forall_forall in Hall. destruct (Hall a Ha) as [Ha1 _].
  assert (E : a = kv).
  { destruct a as [k v], kv as [k' v']. simpl in Ea. subst k'.
    f_equal.
    assert (E1 := dict_get_in k v labels Hdict Ha1).
    assert (E2 := dict_get_in k v' labels Hdict Hkv). congruence. }
  subst a. exact Ha.
Qed.

(** ** The version line *)

Lemma lstrip_chars_head chars s :
  match lstrip_chars chars s with
  | [] => True
  | c :: _ => existsb (N.eqb c) chars = false
  end.
Proof.
  induction s as [|x s IH]; simpl; [exact I|].
  destruct (existsb (N.eqb x) chars) eqn:E; [exact IH|exact E].
Qed.

Lemma lstrip_chars_keeps_last (chars a : str) (c : char) :
  existsb (N.eqb c) chars = false ->
  exists b : str, lstrip_chars chars (a ++ [c]) = b ++ [c].
Proof.
  intros Hc. induction a as [|x a IH]; simpl.
  - rewrite Hc. exists []. reflexivity.
  - destruct (existsb (N.eqb x) chars); [exact IH|].
    exists (x :: a). reflexivity.
Qed.

Lemma strip_chars_ends chars s :
  strip_chars chars s = [] \/
  ((exists c t, strip_chars chars s = c :: t /\
                existsb (N.eqb c) chars = false) /\
   (exists u d, strip_chars chars s = u ++ [d] /\
                existsb (N.eqb d) chars = false)).
Proof.
  unfold strip_chars.
  assert (Hhd := lstrip_chars_head chars s).
  destruct (lstrip_chars chars s) as [|c u] eqn:Eu; [left; reflexivity|].
  right. change (rev (c :: u)) with (rev u ++ [c]).
  destruct (lstrip_chars_keeps_last chars (rev u) c Hhd) as [b Hb].
  rewrite Hb. assert (Hlast := lstrip_chars_head chars (rev u ++ [c])).
  rewrite Hb in Hlast. split.
  - exists c, (rev b). split; [|exact Hhd].
    rewrite rev_app_distr. reflexivity.
  - destruct (b ++ [c]) as [|d w] eqn:Ew.
    + destruct b; discriminate.
    + exists (rev w), d. split; [reflexivity|exact Hlast].
Qed.

Lemma strip_chars_keep chars c t u d :
  c :: t = u ++ [d] ->
  existsb (N.eqb c) chars = false -> existsb (N.eqb d) chars = false ->
  strip_chars chars (c :: t) = c :: t.
Proof.
  intros E Hc Hd. unfold strip_chars. simpl lstrip_chars. rewrite Hc.
  rewrite E, rev_app_distr. simpl. rewrite Hd. simpl.
  rewrite rev_involutive. reflexivity.
Qed.

(** X9: the version line of a parsed record.  It is empty when the text
    holds no package line.  It never begins or ends with a space or a
    slash.  When the version name does not begin and the version code
    does not end with a space or a slash, it is the name, [" / "] and the
    code. *)
Theorem version_text_cases (isalnum : char -> bool) (text : str) :
  let i := parse_aapt2_output isalnum text in
  (~ package_line text -> version_text i = [])
  /\ (version_text i = [] \/
      ((exists c t, version_text i = c :: t /\ c <> 32 /\ c <> 47) /\
       (exists u d, version_text i = u ++ [d] /\ d <> 32 /\ d <> 47)))
  /\ (forall c t u d,
        version_name i = c :: t -> version_code i = u ++ [d] ->
        c <> 32 -> c <> 47 -> d <> 32 -> d <> 47 ->
        version_text i
        = version_name i ++ of_string " / " ++ version_code i).
Proof.
  cbv zeta.
  assert (Hmem : forall c, existsb (N.eqb c) (of_string " /") = false <->
                           c <> 32 /\ c <> 47).
  { intros c. simpl. rewrite orb_false_r, orb_false_iff, !N.eqb_neq.
    reflexivity. }
  split; [|split].
  - intros Hno.
    assert (Ho : ~ occurs isalnum re_package text).
    { intros Ho. apply Hno. apply (occurs_package isalnum). exact Ho. }
    unfold version_text.
    change (version_name (parse_aapt2_output isalnum text))
      with (assign_group (re_search isalnum re_package text) 3 []).
    change (version_code (parse_aapt2_output isalnum text))
      with (assign_group (re_search isalnum re_package text) 2 []).
    rewrite !(assign_group_none isalnum _ _ _ Ho). reflexivity.
  - unfold version_text.
    destruct (strip_chars_ends (of_string " /")
                (version_name (parse_aapt2_output isalnum text)
                 ++ of_string " / "
                 ++ version_code (parse_aapt2_output isalnum text)))
      as [H|[[c [t [H1 H2]]] [u [d [H3 H4]]]]]; [left; exact H|].
    right. split.
    + exists c, t. split; [exact H1|]. apply Hmem. exact H2.
    + exists u, d. split; [exact H3|]. apply Hmem. exact H4.
  - intros c t u d En Ec Hc1 Hc2 Hd1 Hd2. unfold version_text.
    rewrite En, Ec. simpl app.
    apply (strip_chars_keep (of_string " /") c
             (t ++ of_string " / " ++ u ++ [d])
             (c :: t ++ of_string " / " ++ u) d).
    + simpl. rewrite <- !app_assoc. reflexivity.
    + apply Hmem. split; assumption.
    + apply Hmem. split; assumption.
Qed.

(** ** The table of SDK versions *)

Lemma fill_sdk_map_good data : forall d,
  Forall good_item data ->
  fill_sdk_map data d = Some (dict_fill (map item_entry data) d).
Proof.
  induction data as [|it data IH]; intros d H; [reflexivity|].
  inversion H as [|? ? Hit Hdata]; subst.
  destruct it as [|api version codename]; [destruct Hit|].
  simpl in Hit. simpl.
  destruct (sdk_label version codename) as [l|]; [|contradiction].
  apply IH. exact Hdata.
Qed.

Lemma fill_sdk_map_bad data : forall d,
  Exists (fun it => ~ good_item it) data -> fill_sdk_map data d = None.
Proof.
  induction data as [|it data IH]; intros d H; [inversion H|].
  destruct it as [|api version codename]; [reflexivity|]. simpl.
  destruct (sdk_label version codename) as [l|] eqn:E; [|reflexivity].
  inversion H as [? ? Hit|? ? Hdata]; subst.
  - exfalso. apply Hit. simpl. rewrite E. discriminate.
  - apply IH. exact Hdata.
Qed.

Lemma good_item_dec it : good_item it \/ ~ good_item it.
Proof.
  destruct it as [|api version codename]; simpl; [right; tauto|].
  destruct (sdk_label version codename); [left; discriminate|right; tauto].
Qed.

Lemma good_or_bad data :
  Forall good_item data \/ Exists (fun it => ~ good_item it) data.
Proof.
  induction data as [|it data IH]; [left; constructor|].
  destruct (good_item_dec it) as [H|H].
  - destruct IH as [IH|IH].
    + left. constructor; assumption.
    + right. apply Exists_cons_tl. exact IH.
  - right. apply Exists_cons_hd. exact H.
Qed.

(** X10: the table is loaded whole or not at all.  When every item of
    the file is an object whose version is a string (or absent) and whose
    codename is a string, absent or a false value, the table has one
    entry per API level, the last item of a level giving its label.  One
    item that is not so, wherever it stands, leaves no table at all, as a
    missing file does, and every level is then shown bare.  The label of
    an item is its version without one leading ["Android "], followed,
    when the codename is not blank, by a space and the codename without
    its spaces. *)
Theorem load_sdk_versions_all_or_nothing (file : option (list jitem)) :
  (forall data,
     file = Some data -> Forall good_item data ->
     exists m,
       load_sdk_versions file = Some m /\
       NoDup (dict_keys m) /\
       (forall api,
          dict_get api m = dict_get api (rev (map item_entry data))))
  /\ (forall data,
        file = Some data -> Exists (fun it => ~ good_item it) data ->
        load_sdk_versions file = None)
  /\ (load_sdk_versions file = None <->
      file = None \/
      exists data, file = Some data /\
                   Exists (fun it => ~ good_item it) data)
  /\ (load_sdk_versions file = None ->
      forall level, level <> [] ->
        fmt_sdk (sdk_map_or_empty (load_sdk_versions file)) level = level)
  /\ (forall v c,
        let c' := filter (fun x => negb (x =? 32)) c in
        sdk_label (JString (of_string "Android " ++ v)) (JString c)
        = Some (if truthy c' then v ++ of_string " " ++ c' else v)
        /\ ~ In 32 c').
Proof.
  assert (Hgood : forall data, Forall good_item data ->
            exists m, fill_sdk_map data [] = Some m /\
                      NoDup (dict_keys m) /\
                      (forall api, dict_get api m
                                   = dict_get api (rev (map item_entry data)))).
  { intros data Hd. exists (dict_fill (map item_entry data) []).
    split; [apply fill_sdk_map_good; exact Hd|]. split.
    - apply (dict_fill_keys (map item_entry data) [] (NoDup_nil _)).
    - intros api. rewrite dict_get_fill.
      destruct (dict_get api (rev (map item_entry data))); reflexivity. }
  split; [|split; [|split; [|split]]].
  - intros data -> Hd. apply Hgood. exact Hd.
  - intros data -> Hd. apply fill_sdk_map_bad. exact Hd.
  - split.
    + intros H. destruct file as [data|]; [|left; reflexivity]. right.
      exists data. split; [reflexivity|].
      destruct (good_or_bad data) as [Hg|Hb]; [|exact Hb].
      destruct (Hgood data Hg) as [m [Hm _]]. simpl in H. congruence.
    + intros [->|[data [-> Hb]]]; [reflexivity|].
      apply fill_sdk_map_bad. exact Hb.
  - intros -> level Hne. unfold fmt_sdk. destruct level as [|c l];
      [contradiction|].
    cbn [truthy negb orb sdk_map_or_empty dict_get].
    destruct (str_eqb (c :: l) (of_string "?")) eqn:E; [|reflexivity].
    apply str_eqb_eq in E. symmetry. exact E.
  - intros v c. cbv zeta. split.
    + unfold sdk_label, sdk_version, sdk_codename.
      rewrite startswith_app.
      change 8%nat with (length (of_string "Android ")).
      rewrite skipn_length_app. reflexivity.
    + intros Hin. apply filter_In in Hin. destruct Hin as [_ H].
      discriminate H.
Qed.

(* ================================================================== *)
(** * These properties on concrete inputs *)

(** The build version name of a text that is one attribute. *)
Lemma build_fields_first_match_witness :
  platform_build_version_name
    (parse_aapt2_output ascii_isalnum
       (of_string "platformBuildVersionName='14'"))
  = of_string "14".
Proof.
  destruct (build_fields_first_match ascii_isalnum) as ((H & _) & _).
  apply (H (of_string "platformBuildVersionName='14'") (of_string "14"));
    [discriminate|].
  exists [], []. split; [reflexivity|]. split; [quotable_text|].
  intros k Hk. inversion Hk.
Defined.

(** The value of [supports-any-density] is read without its quotes. *)
Lemma any_density_first_match_witness :
  supports_any_density
    (parse_aapt2_output ascii_isalnum
       (of_string "supports-any-density: 'true'"))
  = of_string "true".
Proof.
  destruct (any_density_first_match ascii_isalnum
              (of_string "supports-any-density: 'true'")) as (H & _).
  apply (H [] (of_string " ") (of_string "true") []).
  - reflexivity.
  - split; [discriminate|]. intros c [<-|[]]. reflexivity.
  - quotable_text.
  - intros k Hk. inversion Hk.
Defined.

(** The name of the activity is read, the label after it is not. *)
Lemma launchable_first_match_witness :
  launchable_activity
    (parse_aapt2_output ascii_isalnum
       (of_string "launchable-activity: name='a.Main'  label='App' icon=''"))
  = of_string "a.Main".
Proof.
  destruct (launchable_first_match ascii_isalnum
              (of_string
                 "launchable-activity: name='a.Main'  label='App' icon=''"))
    as (H & _).
  apply (H [] (of_string " ") (of_string "a.Main")
           (of_string "  label='App' icon=''")).
  - reflexivity.
  - split; [discriminate|]. intros c [<-|[]]. reflexivity.
  - not_in_text.
  - intros k Hk. inversion Hk.
Defined.

(** The third architecture of the example stands between quotes in a
    marked line of it. *)
Lemma architectures_within_lines_witness :
  In (of_string "x86")
    (architectures (parse_aapt2_output ascii_isalnum text_native_code))
  /\ exists line core,
       line_of text_native_code line /\ arch_marked core /\
       quoted_in (of_string "x86") core.
Proof.
  assert (Hin : In (of_string "x86")
                  (architectures
                     (parse_aapt2_output ascii_isalnum text_native_code))).
  { vm_compute. right. right. left. reflexivity. }
  split; [exact Hin|].
  destruct (architectures_within_lines ascii_isalnum text_native_code
              (of_string "x86") Hin)
    as [line [l [core [t [H1 [_ [_ [_ [_ [H2 [H3 _]]]]]]]]]]].
  exists line, core. split; [exact H1|]. split; [exact H2|exact H3].
Defined.

(** The icons of the example, given from the larger density to the
    smaller, are sorted under the usual limit of 4300 digits. *)
Lemma icons_sorted_by_density_witness :
  exists l,
    sorted_icons 4300
      (icons (parse_aapt2_output ascii_isalnum text_icons_192_48)) = Some l
    /\ StronglySorted density_le l.
Proof.
  destruct (icons_sorted_by_density ascii_isalnum 4300 text_icons_192_48)
    as [H _].
  destruct H as [l [H1 [_ [H2 _]]]].
  - intros k Hk. left. vm_compute in Hk.
    destruct Hk as [<-|[<-|[]]]; simpl; lia.
  - exists l. split; assumption.
Defined.

(** A mapping with three labels, one of them for a preferred locale: the
    block is the empty line, the heading, the preferred label, and the
    two others in the order of the mapping. *)
Lemma label_block_shape_witness :
  label_block
    [(of_string "fr", of_string "F"); (of_string "en-US", of_string "E");
     (of_string "de", of_string "D")] []
  = [[]; labels_header; of_string "en-US: E"; of_string "fr: F";
     of_string "de: D"].
Proof.
  assert (Hne : [(of_string "fr", of_string "F");
                 (of_string "en-US", of_string "E");
                 (of_string "de", of_string "D")] <> []) by discriminate.
  assert (Hnd : NoDup (dict_keys
                         [(of_string "fr", of_string "F");
                          (of_string "en-US", of_string "E");
                          (of_string "de", of_string "D")])).
  { repeat constructor; simpl; intros H;
      repeat (destruct H as [H|H]; [discriminate H|]); exact H. }
  destruct (label_block_shape _ [] Hne) as [rest [H1 [_ [_ [_ [_ H6]]]]]].
  rewrite H1, (H6 Hnd). reflexivity.
Defined.

(** The version line of a package line. *)
Lemma version_text_cases_witness :
  version_text
    (parse_aapt2_output ascii_isalnum
       (of_string "package: name='a.b' versionCode='7' versionName='1.0'"))
  = of_string "1.0 / 7".
Proof.
  destruct (version_text_cases ascii_isalnum
              (of_string
                 "package: name='a.b' versionCode='7' versionName='1.0'"))
    as (_ & _ & H).
  rewrite (H 49 (of_string ".0") [] 55);
    [vm_compute; reflexivity|vm_compute; reflexivity|vm_compute; reflexivity
    |discriminate|discriminate|discriminate|discriminate].
Defined.

(** A file with one item: the label of its level. *)
Lemma load_sdk_versions_all_or_nothing_witness :
  exists m,
    load_sdk_versions
      (Some [JObject (of_string "34") (JString (of_string "Android 14"))
               (JString (of_string "Upside Down Cake"))])
    = Some m
    /\ dict_get (of_string "34") m = Some (of_string "14 UpsideDownCake").
Proof.
  destruct (load_sdk_versions_all_or_nothing
              (Some [JObject (of_string "34")
                       (JString (of_string "Android 14"))
                       (JString (of_string "Upside Down Cake"))]))
    as (H & _).
  destruct (H _ eq_refl) as [m [H1 [_ H3]]].
  { constructor; [|constructor]. simpl. discriminate. }
  exists m. split; [exact H1|]. rewrite H3. reflexivity.
Defined.
